(** * Cloud formation simulation (cloudformationsimulation.cpp)

    A shallow embedding of the particle model of the SDL2 / OpenGL ES
    cumulus demo: the puff update rule and its culling, the spawn-credit
    scheduler of the two ground thermals, the event handler of the main
    loop and the ring layout of the soft-blob renderer.

    The C++ [float] is IEEE-754 binary32.  It is modelled by the
    reference operations of [SpecFloat] at precision 24 and maximal
    exponent 128, every arithmetic operator of the source being one
    correctly rounded (round to nearest, ties to even) operation, with
    no fused multiply-add and no excess precision.  The C [int] of the
    viewport is a [Z]; its conversion to [float] rounds to nearest.
    What the program takes from the C library ([rand], [sin], [cos],
    [pow]) is a parameter of the development. *)

From Stdlib Require Import ZArith Bool List Lia Floats.SpecFloat Zpower.
Import ListNotations.
Local Open Scope Z_scope.

(** ** binary32 arithmetic *)

Module F32.

Definition prec : Z := 24.
Definition emax : Z := 128.

Definition float : Type := spec_float.

Definition add : float -> float -> float := SFadd prec emax.
Definition sub : float -> float -> float := SFsub prec emax.
Definition mul : float -> float -> float := SFmul prec emax.
Definition div : float -> float -> float := SFdiv prec emax.
Definition neg : float -> float := SFopp.

(** [x < y], [x <= y], [x > y], [x >= y] of C++: all false on a NaN. *)
Definition ltb (x y : float) : bool := SFltb x y.
Definition leb (x y : float) : bool := SFleb x y.
Definition gtb (x y : float) : bool :=
  match SFcompare x y with Some Gt => true | _ => false end.
Definition geb (x y : float) : bool :=
  match SFcompare x y with Some (Gt | Eq) => true | _ => false end.

(** [(float)n] for an integer [n]. *)
Definition of_int (n : Z) : float := binary_normalize prec emax n 0 false.

(** The decimal literal [num/den] with suffix [f]: the binary32 number
    nearest to the quotient (both integers are exact in binary32). *)
Definition lit (num den : Z) : float := div (of_int num) (of_int den).

Definition is_nan (x : float) : bool :=
  match x with S754_nan => true | _ => false end.

(** Neither a NaN nor an infinity. *)
Definition is_finite (x : float) : bool :=
  match x with S754_zero _ | S754_finite _ _ _ => true | _ => false end.

(** A member of the format: mantissa and exponent in canonical form. *)
Definition valid (x : float) : bool := valid_binary prec emax x.

Definition zero : float := S754_zero false.
Definition one : float := Eval vm_compute in of_int 1.
Definition two : float := Eval vm_compute in of_int 2.
Definition f0_001 : float := Eval vm_compute in lit 1 1000.
Definition f0_02 : float := Eval vm_compute in lit 2 100.
Definition f0_033 : float := Eval vm_compute in lit 33 1000.
Definition f0_05 : float := Eval vm_compute in lit 5 100.
Definition f0_15 : float := Eval vm_compute in lit 15 100.
Definition f0_18 : float := Eval vm_compute in lit 18 100.
Definition f0_2 : float := Eval vm_compute in lit 2 10.
Definition f0_30 : float := Eval vm_compute in lit 30 100.
Definition f0_38 : float := Eval vm_compute in lit 38 100.
Definition f0_4 : float := Eval vm_compute in lit 4 10.
Definition f0_45 : float := Eval vm_compute in lit 45 100.
Definition f0_5 : float := Eval vm_compute in lit 5 10.
Definition f0_55 : float := Eval vm_compute in lit 55 100.
Definition f0_6 : float := Eval vm_compute in lit 6 10.
Definition f0_70 : float := Eval vm_compute in lit 70 100.
Definition f0_8 : float := Eval vm_compute in lit 8 10.
Definition f0_82 : float := Eval vm_compute in lit 82 100.
Definition f1_1 : float := Eval vm_compute in lit 11 10.
Definition f1_6 : float := Eval vm_compute in lit 16 10.
Definition f3_2 : float := Eval vm_compute in lit 32 10.
Definition f3 : float := Eval vm_compute in of_int 3.
Definition f4 : float := Eval vm_compute in of_int 4.
Definition f6 : float := Eval vm_compute in of_int 6.
Definition f8 : float := Eval vm_compute in of_int 8.
Definition f10 : float := Eval vm_compute in of_int 10.
Definition f12 : float := Eval vm_compute in of_int 12.
Definition f18 : float := Eval vm_compute in of_int 18.
Definition f20 : float := Eval vm_compute in of_int 20.
Definition f50 : float := Eval vm_compute in of_int 50.
Definition f60 : float := Eval vm_compute in of_int 60.
Definition f100 : float := Eval vm_compute in of_int 100.
Definition f110 : float := Eval vm_compute in of_int 110.
Definition f200 : float := Eval vm_compute in of_int 200.

(** [(float)M_PI]: 3.14159265358979323846 rounded to binary32. *)
Definition pi : float := S754_finite false 13176795 (-22).

(** [std::max(a, b)] is [(a < b) ? b : a] and [std::min(a, b)] is
    [(b < a) ? b : a]. *)
Definition max (a b : float) : float := if ltb a b then b else a.
Definition min (a b : float) : float := if ltb b a then b else a.

End F32.

Import F32.

(** [clampf(x, a, b)] of the source. *)
Definition clampf (x a b : float) : float := F32.max a (F32.min b x).

(** ** What the program takes from the C library *)

(** [rand()] reads and advances a hidden generator state and returns an
    integer between 0 and [RAND_MAX]; [sinf], [cosf] and [powf] are the
    [float] overloads of [std::sin], [std::cos] and [std::pow]. *)
Class Runtime : Type := {
  Rng : Type;
  rand : Rng -> Z * Rng;
  RAND_MAX : Z;
  sinf : float -> float;
  cosf : float -> float;
  powf : float -> float -> float
}.

(** ** The atmospheric model *)

Module Puff.
Record t : Type := mk {
  x : float;       (* position *)
  y : float;
  r : float;       (* radius *)
  vx : float;      (* velocity *)
  vy : float;
  growth : float;  (* dr/dt *)
  wobble : float;  (* small horizontal meander *)
  life : float;    (* seconds *)
  maxLife : float;
  whiten : float   (* 0..1 whiteness *)
}.
End Puff.

Module Emitter.
Record t : Type := mk {
  x0 : float;      (* horizontal source span *)
  x1 : float;
  y : float;       (* emission height *)
  rate : float     (* puffs/sec *)
}.
End Emitter.

(** One ring of a soft blob, as handed to the GL: the vertices of the
    triangle fan and the colour of [glColor4f]. *)
Record Fan : Type := mkFan {
  fan_verts : list float;
  fan_rgb : float * float * float;
  fan_alpha : float
}.

Inductive Key : Type :=
| SDLK_ESCAPE | SDLK_q | SDLK_LEFT | SDLK_RIGHT | SDLK_UP | SDLK_DOWN
| SDLK_other.

Inductive Event : Type :=
| SDL_QUIT
| SDL_WINDOWEVENT_SIZE_CHANGED (data1 data2 : Z)
| SDL_KEYDOWN (sym : Key)
| SDL_other.

Section Model.
Context {RT : Runtime}.

(** [frand()]: [rand() / (float)RAND_MAX]. *)
Definition frand (g : Rng) : float * Rng :=
  let (n, g') := rand g in (div (of_int n) (of_int RAND_MAX), g').

(** [spawnPuff]: the eight draws are made in the order of the source. *)
Definition spawnPuff (P : list Puff.t) (E : Emitter.t) (winW winH : Z)
  (g : Rng) : list Puff.t * Rng :=
  let (u1, g1) := frand g in
  let px := add (Emitter.x0 E) (mul u1 (sub (Emitter.x1 E) (Emitter.x0 E))) in
  let (u2, g2) := frand g1 in
  let py := add (Emitter.y E) (mul u2 f10) in
  let (u3, g3) := frand g2 in
  let pr := add f12 (mul u3 f10) in
  let (u4, g4) := frand g3 in
  let pvx := mul (sub u4 f0_5) f8 in
  let (u5, g5) := frand g4 in
  let pvy := add f12 (mul u5 f10) in
  let (u6, g6) := frand g5 in
  let pgrowth := add f3 (mul u6 f6) in
  let (u7, g7) := frand g6 in
  let pwobble := mul (sub (mul u7 two) one) f0_8 in
  let (u8, g8) := frand g7 in
  let pmaxLife := add f18 (mul u8 f8) in
  (P ++ [Puff.mk px py pr pvx pvy pgrowth pwobble zero pmaxLife f0_2], g8).

(** The wrap of the horizontal position: the two tests of the source,
    one after the other. *)
Definition wrap_x (px : float) (winW : Z) : float :=
  let px1 :=
    if ltb px (neg f100) then add px (add (of_int winW) f200) else px in
  if gtb px1 (add (of_int winW) f100)
  then sub px1 (add (of_int winW) f200) else px1.

(** The normalised height of a puff. *)
Definition heightNorm (py : float) (winH : Z) : float :=
  clampf (div py (of_int winH)) zero one.

(** The vertical velocity of the tick. *)
Definition updraft (py : float) (winH : Z) : float :=
  let up := sub one (mul f0_4 (heightNorm py winH)) in
  add (mul f10 up) f8.

(** The radius increment of the tick. *)
Definition growth_step (pgrowth dt hn : float) : float :=
  mul (mul pgrowth dt) (add f0_6 (mul f0_4 (sub one hn))).

(** The body of the loop of [updatePuffs], for one puff. *)
Definition update_puff (dt breeze : float) (winW winH : Z) (p : Puff.t)
  : Puff.t :=
  let life' := add (Puff.life p) dt in
  let hn := heightNorm (Puff.y p) winH in
  let vy' := updraft (Puff.y p) winH in
  let vx' := add (Puff.vx p) (mul (sub breeze (Puff.vx p)) f0_05) in
  let x' :=
    add (Puff.x p)
        (mul (add vx' (mul (Puff.wobble p) (sinf (mul two life')))) dt) in
  let y' := add (Puff.y p) (mul vy' dt) in
  let r' := add (Puff.r p) (growth_step (Puff.growth p) dt hn) in
  let whiten' := clampf (add (Puff.whiten p) (mul dt f0_15)) zero one in
  Puff.mk (wrap_x x' winW) y' r' vx' vy' (Puff.growth p) (Puff.wobble p)
          life' (Puff.maxLife p) whiten'.

(** The predicate of [remove_if]. *)
Definition culled (winH : Z) (p : Puff.t) : bool :=
  gtb (Puff.life p) (Puff.maxLife p)
  || gtb (sub (Puff.y p) (Puff.r p)) (mul (of_int winH) f1_1).

(** [updatePuffs]: every puff is updated, then the old and the high ones
    are erased, the others keeping their order. *)
Definition updatePuffs (P : list Puff.t) (dt breeze : float) (winW winH : Z)
  : list Puff.t :=
  filter (fun p => negb (culled winH p))
         (map (update_puff dt breeze winW winH) P).

(** [n] calls of [updatePuffs] with the same arguments. *)
Fixpoint updatePuffs_n (n : nat) (P : list Puff.t) (dt breeze : float)
  (winW winH : Z) : list Puff.t :=
  match n with
  | O => P
  | S n' => updatePuffs_n n' (updatePuffs P dt breeze winW winH)
                          dt breeze winW winH
  end.

(** ** The soft-blob renderer *)

Definition slices : Z := 32.

(** Radius fraction and alpha of ring [i] of [rings]. *)
Definition ring_t (i rings : Z) : float := div (of_int (i + 1)) (of_int rings).
Definition ring_alpha (alphaPeak : float) (i rings : Z) : float :=
  mul alphaPeak (powf (sub one (ring_t i rings)) f1_6).

Definition fan_vertex (cx cy rad : float) (s : Z) : list float :=
  let ang := mul (mul (div (of_int s) (of_int slices)) two) pi in
  [add cx (mul rad (cosf ang)); add cy (mul rad (sinf ang))].

Definition ring (cx cy R : float) (rgb : float * float * float)
  (alphaPeak : float) (rings i : Z) : Fan :=
  let t := ring_t i rings in
  let rad := mul t R in
  let a := ring_alpha alphaPeak i rings in
  mkFan ([cx; cy]
         ++ flat_map (fun s => fan_vertex cx cy rad (Z.of_nat s))
                     (seq 0 (Z.to_nat (slices + 1))))
        rgb a.

(** [drawSoftBlob]: the fans drawn, from the smallest ring to the
    largest. *)
Definition drawSoftBlob (cx cy R : float) (rgb : float * float * float)
  (alphaPeak : float) (rings : Z) : list Fan :=
  map (fun i => ring cx cy R rgb alphaPeak rings (Z.of_nat i))
      (seq 0 (Z.to_nat rings)).

(** ** The main loop *)

Record Sim : Type := mkSim {
  winW : Z;
  winH : Z;
  emitters : list Emitter.t;
  emitterTimerA : float;
  emitterTimerB : float;
  puffs : list Puff.t;
  running : bool;
  lastTicks : Z;
  breeze : float;
  rng : Rng
}.

(** The state before the first frame, for a seeded generator and the
    tick count read at start-up. *)
Definition initial (g : Rng) (ticks : Z) : Sim :=
  let w := 960 in
  let h := 600 in
  mkSim w h
    [Emitter.mk (mul (of_int w) f0_18) (mul (of_int w) f0_38) f110 f4;
     Emitter.mk (mul (of_int w) f0_55) (mul (of_int w) f0_82) f110 f3_2]
    zero zero [] true ticks f12 g.

(** [emitters[i] = f(emitters[i])]; the vector always holds two
    emitters, an index past the end leaves the list as it is. *)
Fixpoint modify (i : nat) (f : Emitter.t -> Emitter.t) (l : list Emitter.t)
  : list Emitter.t :=
  match l, i with
  | [], _ => []
  | e :: l', O => f e :: l'
  | e :: l', S i' => e :: modify i' f l'
  end.

Definition set_span (a b c : float) (e : Emitter.t) : Emitter.t :=
  Emitter.mk a b c (Emitter.rate e).

Definition set_rate (f : float -> float) (e : Emitter.t) : Emitter.t :=
  Emitter.mk (Emitter.x0 e) (Emitter.x1 e) (Emitter.y e) (f (Emitter.rate e)).

(** The body of the event loop, for one event. *)
Definition handle_event (ev : Event) (s : Sim) : Sim :=
  match ev with
  | SDL_QUIT =>
      mkSim (winW s) (winH s) (emitters s) (emitterTimerA s)
            (emitterTimerB s) (puffs s) false (lastTicks s) (breeze s)
            (rng s)
  | SDL_WINDOWEVENT_SIZE_CHANGED w h =>
      let es :=
        modify 1 (set_span (mul (of_int w) f0_55) (mul (of_int w) f0_82) f110)
          (modify 0
             (set_span (mul (of_int w) f0_18) (mul (of_int w) f0_38) f110)
             (emitters s)) in
      mkSim w h es (emitterTimerA s) (emitterTimerB s) (puffs s)
            (running s) (lastTicks s) (breeze s) (rng s)
  | SDL_KEYDOWN k =>
      let run :=
        match k with SDLK_ESCAPE | SDLK_q => false | _ => running s end in
      let br :=
        match k with
        | SDLK_LEFT => sub (breeze s) f4
        | SDLK_RIGHT => add (breeze s) f4
        | _ => breeze s
        end in
      let es :=
        match k with
        | SDLK_UP => map (set_rate (fun q => add q f0_8)) (emitters s)
        | SDLK_DOWN =>
            map (set_rate (fun q => F32.max f0_6 (sub q f0_8))) (emitters s)
        | _ => emitters s
        end in
      mkSim (winW s) (winH s) es (emitterTimerA s) (emitterTimerB s)
            (puffs s) run (lastTicks s) br (rng s)
  | SDL_other => s
  end.

Definition handle_events (evs : list Event) (s : Sim) : Sim :=
  fold_left (fun s ev => handle_event ev s) evs s.

(** [while (timer >= 1.f) { spawnPuff(...); timer -= 1.f; }].  The loop
    does not end on every [float] (an infinite credit stays infinite), so
    it runs on fuel: [None] when the fuel is used up before the test
    fails. *)
Fixpoint spawn_while (fuel : nat) (timer : float) (P : list Puff.t)
  (E : Emitter.t) (w h : Z) (g : Rng) : option (float * list Puff.t * Rng) :=
  if geb timer one then
    match fuel with
    | O => None
    | S fuel' =>
        let (P', g') := spawnPuff P E w h g in
        spawn_while fuel' (sub timer one) P' E w h g'
    end
  else Some (timer, P, g).

(** The scheduler of one persistent emitter, for one tick: the credit
    grows by [dt*rate], then the loop spawns. *)
Definition emit (fuel : nat) (timer dt : float) (P : list Puff.t)
  (E : Emitter.t) (w h : Z) (g : Rng) : option (float * list Puff.t * Rng) :=
  spawn_while fuel (add timer (mul dt (Emitter.rate E))) P E w h g.


(** The credit alone: how many puffs the loop spawns and what credit it
    leaves. *)
Fixpoint credit_while (fuel : nat) (timer : float) : option (nat * float) :=
  if geb timer one then
    match fuel with
    | O => None
    | S fuel' =>
        match credit_while fuel' (sub timer one) with
        | None => None
        | Some (n, timer') => Some (S n, timer')
        end
    end
  else Some (O, timer).


Definition nth_emitter (i : nat) (s : Sim) : Emitter.t :=
  nth i (emitters s) (Emitter.mk zero zero zero zero).

(** One frame after its events: timing, the two schedulers, the
    occasional mid-level puff and the update.  [now] is what
    [SDL_GetTicks()] returns, a 32-bit unsigned count of milliseconds. *)
Definition frame (fuel : nat) (now : Z) (s : Sim) : option Sim :=
  let dt0 := mul (of_int ((now - lastTicks s) mod 2 ^ 32)) f0_001 in
  let dt := clampf dt0 zero f0_033 in
  let w := winW s in
  let h := winH s in
  match emit fuel (emitterTimerA s) dt (puffs s) (nth_emitter 0 s) w h (rng s)
  with
  | None => None
  | Some (tA, P1, g1) =>
      match emit fuel (emitterTimerB s) dt P1 (nth_emitter 1 s) w h g1 with
      | None => None
      | Some (tB, P2, g2) =>
          let (u, g3) := frand g2 in
          let (P3, g4) :=
            if ltb u (mul (mul f0_02 dt) f60) then
              let (v, g') := frand g3 in
              let mid :=
                Emitter.mk (mul (of_int w) f0_30) (mul (of_int w) f0_70)
                           (add (mul (of_int h) f0_45) (mul v f50)) one in
              spawnPuff P2 mid w h g'
            else (P2, g3) in
          Some (mkSim w h (emitters s) tA tB
                      (updatePuffs P3 dt (breeze s) w h)
                      (running s) now (breeze s) g4)
      end
  end.

(** What the C standard says of [rand]: a value between 0 and
    [RAND_MAX], itself a positive [int]. *)
Definition rand_in_range : Prop :=
  0 < RAND_MAX < 2 ^ 31 /\ forall g, 0 <= fst (rand g) <= RAND_MAX.

(** The states the program goes through: the start, then events and
    frames. *)
Inductive Reachable : Sim -> Prop :=
| R_initial : forall g ticks, Reachable (initial g ticks)
| R_event : forall ev s, Reachable s -> Reachable (handle_event ev s)
| R_frame : forall fuel now s s',
    Reachable s -> frame fuel now s = Some s' -> Reachable s'.


End Model.

(** A runtime to run the model on: the generator that the C standard
    gives as an example for [rand], and stand-ins for the functions of
    [<cmath>], of which only [pow(+0, y) = +0] is meant. *)
Definition sample_runtime : Runtime := {|
  Rng := Z;
  rand := fun seed =>
    let next := (seed * 1103515245 + 12345) mod 2 ^ 32 in
    ((next / 65536) mod 32768, next);
  RAND_MAX := 32767;
  sinf := fun _ => zero;
  cosf := fun _ => one;
  powf := fun a _ => a
|}.

(** A puff as [spawnPuff] makes them, with a maximal life of 20. *)
Definition sample_puff : Puff.t :=
  Puff.mk (of_int 200) f110 f12 zero f12 f3 f0_8 zero f20 f0_2.

(** The start of the program on the sample runtime. *)
Definition sample_start : @Sim sample_runtime := @initial sample_runtime 1 0.

(** The invariants of a puff that the updates rely on: a whiteness in
    the unit interval, a growth rate between 3 and 9, a height and a
    radius that are members of the format. *)
Definition whiten_ok (p : Puff.t) : Prop :=
  valid (Puff.whiten p) = true /\ leb zero (Puff.whiten p) = true /\
  leb (Puff.whiten p) one = true.


(** The floor under the emission rates. *)
Definition rate_ok (e : Emitter.t) : Prop :=
  valid (Emitter.rate e) = true /\ leb f0_6 (Emitter.rate e) = true.

(** ** The order and the rounding of binary32, on integers *)

Module F32Spec.

(** Every finite binary32 number is an integer multiple of [2^-149];
    [ord] is that integer, and the two infinities sit at the overflow
    threshold [2^128 = omega * 2^-149]. *)
Definition omega : Z := 2 ^ 277.

Definition ord (a : float) : Z :=
  match a with
  | S754_zero _ => 0
  | S754_infinity s => cond_Zopp s omega
  | S754_nan => 0
  | S754_finite s m e => cond_Zopp s (Zpos m * 2 ^ (e + 149))
  end.

(** Not a NaN, and of sign bit [s]. *)
Definition signed (s : bool) (a : float) : Prop :=
  match a with
  | S754_nan => False
  | S754_zero s' | S754_infinity s' | S754_finite s' _ _ => s' = s
  end.

Definition fexp32 (e : Z) : Z := Z.max (e - 24) (-149).

(** [m / N] rounded to the nearest integer, ties to even. *)
Definition rne_div (m N : Z) : Z :=
  let q := m / N in
  let t := 2 * (m mod N) in
  if t <? N then q
  else if N <? t then q + 1
  else if Z.even q then q else q + 1.

(** The binary32 rounding of [m * 2^e] for [0 < m], as an [ord]. *)
Definition RNpos (m e : Z) : Z :=
  let E := fexp32 (Z.log2 m + 1 + e) in
  let m' := if E <=? e then m * 2 ^ (e - E) else rne_div m (2 ^ (E - e)) in
  Z.min (m' * 2 ^ (E + 149)) omega.

Definition RN (m e : Z) : Z :=
  match m with
  | 0 => 0
  | Zpos _ => RNpos m e
  | Zneg p => - RNpos (Zpos p) e
  end.

(** The binary32 rounding of [(a / b) * 2^e] for [0 <= a] and [0 < b],
    where [e] is low enough for the integer part of [a / b] to fill the
    mantissa: [e <= fexp32 (Zdigits2 (a / b) + e)]. *)
Definition RNquo (a b e : Z) : Z :=
  let E := fexp32 (Zdigits2 (a / b) + e) in
  Z.min (rne_div a (b * 2 ^ (E - e)) * 2 ^ (E + 149)) omega.

(** The rounding of the quotient of two positive [ord]s. *)
Definition RQ (X Y : Z) : Z := RNquo (X * 2 ^ 149) Y (-149).

(** The rounding of the quotient [X / Y] for [0 < Y] and any [X]. *)
Definition SRQ (X Y : Z) : Z := if X <? 0 then - RQ (- X) Y else RQ X Y.

(** A shift record stands for the quotient [a / N]: its mantissa is the
    integer part, its two bits place the remainder below, at or above
    the half. *)
Definition stands_for (a N : Z) (mrs : shr_record) : Prop :=
  shr_m mrs = a / N /\
  match shr_r mrs, shr_s mrs with
  | false, false => a mod N = 0
  | false, true => 0 < 2 * (a mod N) < N
  | true, false => 2 * (a mod N) = N
  | true, true => N < 2 * (a mod N)
  end.

(** The rounding of an integer count of [2^-149]. *)
Definition RNZ (k : Z) : Z := RN k (-149).

(** The last step of [binary_round_aux]: the rounded mantissa is put
    back in canonical form and the overflow is detected. *)
Definition finish (s : bool) (m e : Z) : float :=
  let '(mrs, e') := shr_fexp prec emax m e loc_Exact in
  match shr_m mrs with
  | 0 => S754_zero s
  | Zpos p => if e' <=? emax - prec then S754_finite s p e' else S754_infinity s
  | Zneg _ => S754_nan
  end.

End F32Spec.

Import F32Spec.

(** ** The clouds and the scene *)

(** More literals of the source. *)
Definition f0_004 : float := Eval vm_compute in lit 4 1000.
Definition f0_06 : float := Eval vm_compute in lit 6 100.
Definition f0_22 : float := Eval vm_compute in lit 22 100.
Definition f0_75 : float := Eval vm_compute in lit 75 100.
Definition f0_78 : float := Eval vm_compute in lit 78 100.
Definition f0_80 : float := Eval vm_compute in lit 80 100.
Definition f0_85 : float := Eval vm_compute in lit 85 100.
Definition f0_86 : float := Eval vm_compute in lit 86 100.
Definition f0_88 : float := Eval vm_compute in lit 88 100.
Definition f0_90 : float := Eval vm_compute in lit 90 100.
Definition f0_98 : float := Eval vm_compute in lit 98 100.

(** The time step of a frame: the milliseconds between two reads of the
    32-bit tick counter, as seconds, clamped. *)
Definition tick_dt (now last : Z) : float :=
  clampf (mul (of_int ((now - last) mod 2 ^ 32)) f0_001) zero f0_033.

(** The threshold that a draw of [frand] has to stay under for the
    mid-level puff of a frame. *)
Definition mid_threshold (dt : float) : float := mul (mul f0_02 dt) f60.

(** What the arrow keys of an event list add to the breeze. *)
Definition breeze_keys (evs : list Event) : Z :=
  fold_left (fun k ev =>
    match ev with
    | SDL_KEYDOWN SDLK_LEFT => k - 4
    | SDL_KEYDOWN SDLK_RIGHT => k + 4
    | _ => k
    end) evs 0.

Section Scene.
Context {RT : Runtime}.

(** The tint of a puff in [drawClouds], from grey-blue to white. *)
Definition cloud_rgb (w : float) : float * float * float :=
  (add (mul f0_85 w) (mul f0_75 (sub one w)),
   add (mul f0_86 w) (mul f0_78 (sub one w)),
   add (mul f0_90 w) (mul f0_82 (sub one w))).

(** The peak alpha of a puff in [drawClouds]. *)
Definition cloud_peak (r : float) : float :=
  mul f0_22 (div one (add one (mul f0_004 r))).

(** [drawClouds]: nine rings per puff, the puffs in the order of the
    collection. *)
Definition drawClouds (P : list Puff.t) : list Fan :=
  flat_map (fun p =>
    drawSoftBlob (Puff.x p) (Puff.y p) (Puff.r p)
                 (cloud_rgb (Puff.whiten p)) (cloud_peak (Puff.r p)) 9) P.

(** The fans of [drawScene]: the clouds, then the haze of the sun. *)
Definition scene_fans (s : Sim) : list Fan :=
  drawClouds (puffs s)
  ++ drawSoftBlob (mul (of_int (winW s)) f0_82) (mul (of_int (winH s)) f0_80)
                  f60 (one, f0_98, f0_88) f0_06 10.

End Scene.

(** ** Intervals of binary32 *)

(** A member of the format that is neither a NaN nor an infinity. *)
Definition fin (x : float) : Prop := valid x = true /\ is_finite x = true.

(** [x] is a finite member of the format between [lo] and [hi]. *)
Definition within (lo hi x : float) : Prop :=
  fin x /\ ord lo <= ord x <= ord hi.

(** ** Invariants of the main loop *)

(** The largest rate the up key can reach: from there on adding 0.8f
    rounds back to the same number. *)
Definition rate_cap : float := Eval vm_compute in of_int 16777216.

Definition rate_bounded (e : Emitter.t) : Prop :=
  within f0_6 rate_cap (Emitter.rate e).

(** A spawn credit between two frames: a finite number of [0, 1). *)
Definition credit_ok (t : float) : Prop := fin t /\ 0 <= ord t < ord one.

(** The age of a puff between two frames: not above its maximal life,
    which is at most 26 seconds. *)
Definition age_ok (p : Puff.t) : Prop :=
  within f18 (of_int 26) (Puff.maxLife p) /\
  fin (Puff.life p) /\ 0 <= ord (Puff.life p) <= ord (Puff.maxLife p).

(** ** The rectangles of the scene *)

Definition Color : Type := (float * float * float * float)%type.

(** What [fillRectGradient] and [fillRect] hand to [glDrawElements]:
    the four corners, the colours (one per corner, or the current
    colour), the indices of the two triangles. *)
Inductive Draw : Type :=
| DrawGradient (verts : list float) (cols : list Color) (idx : list Z)
| DrawSolid (verts : list float) (col : Color) (idx : list Z).

Definition rect_verts (x y w h : float) : list float :=
  [x; y; add x w; y; add x w; add y h; x; add y h].

Definition rect_idx : list Z := [0; 1; 2; 0; 2; 3].

Definition fillRectGradient (x y w h : float) (c00 c10 c11 c01 : Color)
  : Draw :=
  DrawGradient (rect_verts x y w h) [c00; c10; c11; c01] rect_idx.

Definition fillRect (x y w h : float) (c : Color) : Draw :=
  DrawSolid (rect_verts x y w h) c rect_idx.

Definition f128 : float := Eval vm_compute in of_int 128.

(** The rectangles of [drawScene], in the order they are drawn: the two
    bands of the sky, the ground and the two strips of hills. *)
Definition scene_rects (winW winH : Z) : list Draw :=
  let top : Color := (lit 42 100, lit 66 100, lit 95 100, one) in
  let mid : Color := (lit 62 100, lit 78 100, lit 98 100, one) in
  let near : Color := (lit 78 100, lit 86 100, lit 99 100, one) in
  let ground : Color := (lit 40 100, lit 55 100, lit 35 100, one) in
  let hill1 : Color := (lit 33 100, lit 47 100, lit 32 100, one) in
  let hill2 : Color := (lit 28 100, lit 42 100, lit 30 100, one) in
  [fillRectGradient zero (mul (of_int winH) f0_45) (of_int winW)
                    (mul (of_int winH) f0_55) top top mid mid;
   fillRectGradient zero zero (of_int winW) (mul (of_int winH) f0_45)
                    mid mid near near;
   fillRect zero zero (of_int winW) f110 ground;
   fillRect zero f110 (of_int winW) f18 hill1;
   fillRect zero f128 (of_int winW) f12 hill2].

Definition draw_verts (d : Draw) : list float :=
  match d with DrawGradient v _ _ | DrawSolid v _ _ => v end.

(** The corner at the lower left and the corner at the upper right. *)
Definition draw_box (d : Draw) : float * float * float * float :=
  let v := draw_verts d in
  (nth 0 v S754_nan, nth 1 v S754_nan, nth 4 v S754_nan, nth 5 v S754_nan).

(** The sample program after forty presses of the up key: a rate high
    enough for a single frame to spawn. *)
Definition sample_busy : @Sim sample_runtime :=
  @handle_events sample_runtime (repeat (SDL_KEYDOWN SDLK_UP) 40) sample_start.

(** The state after one frame of it: each emitter has spawned a puff. *)
Definition sample_next : @Sim sample_runtime :=
  Eval vm_compute in
    match @frame sample_runtime 5 1016 sample_busy with
    | Some s' => s'
    | None => sample_busy
    end.

(** * Facts on binary32

    The reference operations are related to the integers.  [ord] maps
    the members of the format to [Z] so that the comparison of floats
    is the order of [Z]; the sum, the difference and the product of two
    finite numbers are the rounding [RN] of the exact results, the
    quotient is the rounding [RQ] of the exact quotient, and both
    roundings are monotone and leave the members of the format where
    they are.  Nothing is assumed: the facts are proved from the
    definitions of [SpecFloat]. *)

Module F32Facts.

(** ** Digits and the shift by one place *)

Lemma fexp_eq e : fexp prec emax e = fexp32 e.
Proof. reflexivity. Qed.

Lemma digits2_pos_log2 p : Zpos (digits2_pos p) = Z.log2 (Zpos p) + 1.
Proof.
  induction p as [p IH|p IH|]; simpl digits2_pos.
  - rewrite Pos2Z.inj_succ, IH.
    change (Zpos p~1) with (2 * Zpos p + 1).
    rewrite Z.log2_succ_double by lia. lia.
  - rewrite Pos2Z.inj_succ, IH.
    change (Zpos p~0) with (2 * Zpos p).
    rewrite Z.log2_double by lia. lia.
  - reflexivity.
Qed.

Lemma Zdigits2_log2 m : 0 < m -> Zdigits2 m = Z.log2 m + 1.
Proof.
  destruct m as [|p|p]; try lia. intros _. apply digits2_pos_log2.
Qed.

Lemma log2_bounds m : 0 < m -> 2 ^ Z.log2 m <= m < 2 ^ (Z.log2 m + 1).
Proof. intros H. replace (Z.log2 m + 1) with (Z.succ (Z.log2 m)) by lia. apply Z.log2_spec; lia. Qed.

(** iter_pos as an iteration on nat *)
Lemma iter_pos_nat {A} (f : A -> A) p x :
  iter_pos f p x = Nat.iter (Pos.to_nat p) f x.
Proof.
  revert x. induction p as [p IH|p IH|]; intros x; simpl iter_pos.
  - rewrite !IH. rewrite Pos2Nat.inj_xI.
    replace (S (2 * Pos.to_nat p)) with (Pos.to_nat p + (Pos.to_nat p + 1))%nat by lia.
    rewrite !Nat.iter_add. reflexivity.
  - rewrite !IH. rewrite Pos2Nat.inj_xO.
    replace (2 * Pos.to_nat p)%nat with (Pos.to_nat p + Pos.to_nat p)%nat by lia.
    rewrite Nat.iter_add. reflexivity.
  - reflexivity.
Qed.

Lemma shr_1_m mrs : 0 <= shr_m mrs -> shr_m (shr_1 mrs) = shr_m mrs / 2.
Proof.
  destruct mrs as [m r s]; simpl. intros H.
  destruct m as [|[p|p|]|p]; try lia; simpl shr_m.
  - reflexivity.
  - change (Zpos p~1) with (2 * Zpos p + 1).
    apply Z.div_unique with 1; lia.
  - change (Zpos p~0) with (2 * Zpos p).
    apply Z.div_unique with 0; lia.
  - reflexivity.
Qed.

Lemma shr_1_r mrs : 0 <= shr_m mrs -> shr_r (shr_1 mrs) = Z.odd (shr_m mrs).
Proof.
  destruct mrs as [m r s]; simpl. intros H.
  destruct m as [|[p|p|]|p]; try lia; reflexivity.
Qed.

Lemma shr_1_s mrs : shr_s (shr_1 mrs) = shr_r mrs || shr_s mrs.
Proof.
  destruct mrs as [m r s]; simpl.
  destruct m as [|[p|p|]|[p|p|]]; reflexivity.
Qed.

Lemma iter_shr_m n mrs :
  0 <= shr_m mrs ->
  shr_m (Nat.iter n shr_1 mrs) = shr_m mrs / 2 ^ Z.of_nat n.
Proof.
  intros H. induction n as [|n IH].
  - simpl. now rewrite Z.div_1_r.
  - rewrite Nat2Z.inj_succ, Z.pow_succ_r by lia. simpl Nat.iter.
    rewrite shr_1_m; rewrite IH.
    + rewrite (Z.mul_comm 2), Z.div_div by lia. reflexivity.
    + apply Z.div_pos; lia.
Qed.

Lemma iter_shr_rs n m :
  0 <= m ->
  let mrs := Nat.iter (S n) shr_1 (Build_shr_record m false false) in
  shr_r mrs = Z.testbit m (Z.of_nat n) /\
  shr_s mrs = negb (m mod 2 ^ Z.of_nat n =? 0).
Proof.
  intros H. induction n as [|n IH].
  - cbv zeta.
    change (Nat.iter 1 shr_1 (Build_shr_record m false false))
      with (shr_1 (Build_shr_record m false false)).
    split.
    + rewrite shr_1_r by (simpl; lia). simpl. symmetry. apply Z.bit0_odd.
    + rewrite shr_1_s. simpl. rewrite Z.mod_1_r. reflexivity.
  - cbv zeta in *. destruct IH as [IHr IHs].
    remember (Nat.iter (S n) shr_1 (Build_shr_record m false false)) as mrs eqn:E.
    change (Nat.iter (S (S n)) shr_1 (Build_shr_record m false false)) with (shr_1 (Nat.iter (S n) shr_1 (Build_shr_record m false false))).
    rewrite <- E.
    assert (Hm : shr_m mrs = m / 2 ^ Z.of_nat (S n)).
    { rewrite E. rewrite iter_shr_m by (simpl; lia). reflexivity. }
    split.
    + rewrite shr_1_r by (rewrite Hm; apply Z.div_pos; lia).
      rewrite Hm. rewrite Z.testbit_odd, Z.shiftr_div_pow2 by lia. reflexivity.
    + rewrite shr_1_s, IHr, IHs.
      rewrite Nat2Z.inj_succ, Z.pow_succ_r by lia.
      rewrite (Z.mul_comm 2), Z.rem_mul_r by lia.
      pose proof (Z.testbit_spec' m (Z.of_nat n) ltac:(lia)) as Hb.
      set (a := m mod 2 ^ Z.of_nat n) in *.
      set (b := (m / 2 ^ Z.of_nat n) mod 2) in *.
      assert (0 <= a < 2 ^ Z.of_nat n) by (apply Z.mod_pos_bound; lia).
      destruct (Z.testbit m (Z.of_nat n)); simpl Z.b2z in Hb; rewrite <- Hb;
        destruct (Z.eqb_spec a 0), (Z.eqb_spec (a + 2 ^ Z.of_nat n * 1) 0),
                 (Z.eqb_spec (a + 2 ^ Z.of_nat n * 0) 0);
        simpl; try reflexivity; try lia.
Qed.

(** ** Division rounded to nearest, ties to even *)

Lemma rne_div_cases m N :
  0 < N ->
  exists q t, m = q * N + t /\ 0 <= t < N /\
    rne_div m N = (if 2 * t <? N then q else if N <? 2 * t then q + 1
                   else if Z.even q then q else q + 1).
Proof.
  intros HN. exists (m / N), (m mod N). split; [|split].
  - rewrite Z.mul_comm. apply Z.div_mod. lia.
  - apply Z.mod_pos_bound. lia.
  - reflexivity.
Qed.

Lemma rne_div_bounds m N : 0 < N -> m / N <= rne_div m N <= m / N + 1.
Proof.
  intros HN. unfold rne_div.
  destruct (_ <? _); [lia|]. destruct (_ <? _); [lia|]. destruct (Z.even _); lia.
Qed.

Lemma rne_div_unique m N q t :
  0 < N -> m = q * N + t -> 0 <= t < N ->
  rne_div m N = (if 2 * t <? N then q else if N <? 2 * t then q + 1
                 else if Z.even q then q else q + 1).
Proof.
  intros HN Hm Ht. unfold rne_div.
  assert (Hq : m / N = q) by (symmetry; apply Z.div_unique with t; lia).
  assert (Hr : m mod N = t) by (symmetry; apply Z.mod_unique with q; lia).
  rewrite Hq, Hr. reflexivity.
Qed.

Lemma rne_div_mono m1 m2 N :
  0 < N -> m1 <= m2 -> rne_div m1 N <= rne_div m2 N.
Proof.
  intros HN Hle.
  destruct (rne_div_cases m1 N HN) as (q1 & t1 & E1 & B1 & R1).
  destruct (rne_div_cases m2 N HN) as (q2 & t2 & E2 & B2 & R2).
  rewrite R1, R2.
  assert (q1 <= q2) by nia.
  destruct (Z.eq_dec q1 q2) as [->|Hne].
  - assert (t1 <= t2) by nia.
    destruct (Z.ltb_spec (2 * t1) N), (Z.ltb_spec (2 * t2) N),
      (Z.ltb_spec N (2 * t1)), (Z.ltb_spec N (2 * t2)); destruct (Z.even q2); lia.
  - destruct (Z.ltb_spec (2 * t1) N), (Z.ltb_spec (2 * t2) N),
      (Z.ltb_spec N (2 * t1)), (Z.ltb_spec N (2 * t2));
      destruct (Z.even q1), (Z.even q2); lia.
Qed.

Lemma rne_div_exact a N : 0 < N -> rne_div (a * N) N = a.
Proof.
  intros HN. rewrite (rne_div_unique (a * N) N a 0) by lia.
  destruct (Z.ltb_spec (2 * 0) N); lia.
Qed.

Lemma rne_div_scale m N c : 0 < N -> 0 < c -> rne_div (m * c) (N * c) = rne_div m N.
Proof.
  intros HN Hc.
  destruct (rne_div_cases m N HN) as (q & t & E & B & R).
  rewrite R. rewrite (rne_div_unique (m * c) (N * c) q (t * c)) by nia.
  destruct (Z.ltb_spec (2 * t) N), (Z.ltb_spec (2 * (t * c)) (N * c)),
    (Z.ltb_spec N (2 * t)), (Z.ltb_spec (N * c) (2 * (t * c))); try reflexivity; nia.
Qed.

Lemma rne_div_le m N K : 0 < N -> m <= K * N -> rne_div m N <= K.
Proof.
  intros HN H. rewrite <- (rne_div_exact K N HN). now apply rne_div_mono.
Qed.

Lemma rne_div_ge m N K : 0 < N -> K * N <= m -> K <= rne_div m N.
Proof.
  intros HN H. rewrite <- (rne_div_exact K N HN). now apply rne_div_mono.
Qed.

Lemma rne_div_1 m : rne_div m 1 = m.
Proof. rewrite <- (Z.mul_1_r m) at 1. apply rne_div_exact. lia. Qed.

(** The first shift of [binary_round_aux], from an exact mantissa. *)
Lemma round_after_shift m k :
  0 <= m ->
  let mrs := Nat.iter (S k) shr_1 (Build_shr_record m false false) in
  round_nearest_even (shr_m mrs) (loc_of_shr_record mrs)
  = rne_div m (2 ^ Z.of_nat (S k)).
Proof.
  intros Hm mrs.
  destruct (iter_shr_rs k m Hm) as [Hr Hs]. fold mrs in Hr, Hs.
  assert (Hq : shr_m mrs = m / 2 ^ Z.of_nat (S k)).
  { unfold mrs. rewrite iter_shr_m by (simpl; lia). reflexivity. }
  assert (HP : 0 < 2 ^ Z.of_nat k) by (apply Z.pow_pos_nonneg; lia).
  pose proof (Z.testbit_spec' m (Z.of_nat k) ltac:(lia)) as Hb.
  pose proof (Z.mod_pos_bound m (2 ^ Z.of_nat k) HP) as Ha.
  pose proof (Z.mod_pos_bound (m / 2 ^ Z.of_nat k) 2 ltac:(lia)) as Hb2.
  assert (HN : 2 ^ Z.of_nat (S k) = 2 ^ Z.of_nat k * 2).
  { rewrite Nat2Z.inj_succ, Z.pow_succ_r by lia. lia. }
  unfold rne_div. rewrite <- Hq.
  assert (Hrem : m mod 2 ^ Z.of_nat (S k)
                 = m mod 2 ^ Z.of_nat k
                   + 2 ^ Z.of_nat k * Z.b2z (Z.testbit m (Z.of_nat k))).
  { rewrite HN, Z.rem_mul_r by lia. rewrite Hb. reflexivity. }
  rewrite Hrem, HN.
  destruct mrs as [q r s]. cbn [shr_m shr_r shr_s] in Hr, Hs, Hq |- *. subst r s.
  set (a := m mod 2 ^ Z.of_nat k) in *.
  destruct (Z.testbit m (Z.of_nat k)); destruct (Z.eqb_spec a 0) as [Ea|Ea];
    cbn [negb Z.b2z round_nearest_even loc_of_shr_record].
  - rewrite Ea.
    destruct (Z.ltb_spec (2 * (0 + 2 ^ Z.of_nat k * 1)) (2 ^ Z.of_nat k * 2)); [lia|].
    destruct (Z.ltb_spec (2 ^ Z.of_nat k * 2) (2 * (0 + 2 ^ Z.of_nat k * 1))); [lia|].
    reflexivity.
  - destruct (Z.ltb_spec (2 * (a + 2 ^ Z.of_nat k * 1)) (2 ^ Z.of_nat k * 2)); [lia|].
    destruct (Z.ltb_spec (2 ^ Z.of_nat k * 2) (2 * (a + 2 ^ Z.of_nat k * 1))); [|lia].
    reflexivity.
  - rewrite Ea.
    destruct (Z.ltb_spec (2 * (0 + 2 ^ Z.of_nat k * 0)) (2 ^ Z.of_nat k * 2)); [|lia].
    reflexivity.
  - destruct (Z.ltb_spec (2 * (a + 2 ^ Z.of_nat k * 0)) (2 ^ Z.of_nat k * 2)); [|lia].
    reflexivity.
Qed.

Lemma round_nearest_even_bounds q l :
  q <= round_nearest_even q l <= q + 1.
Proof.
  destruct l as [|[| |]]; simpl; try lia. destruct (Z.even q); lia.
Qed.

(** ** The rounding of the reference implementation *)

Lemma shr_nat mrs e n :
  0 <= n -> shr mrs e n = (Nat.iter (Z.to_nat n) shr_1 mrs, e + n).
Proof.
  intros Hn. destruct n as [|p|p]; try lia.
  - simpl. now rewrite Z.add_0_r.
  - unfold shr. rewrite iter_pos_nat. reflexivity.
Qed.

Lemma pow2_pos k : 0 <= k -> 0 < 2 ^ k.
Proof. intros. apply Z.pow_pos_nonneg; lia. Qed.

Lemma pow2_le a b : 0 <= a <= b -> 2 ^ a <= 2 ^ b.
Proof. intros. apply Z.pow_le_mono_r; lia. Qed.

Lemma pow2_lt a b : 0 <= a < b -> 2 ^ a < 2 ^ b.
Proof. intros. apply Z.pow_lt_mono_r; lia. Qed.

Lemma pow2_add a b : 0 <= a -> 0 <= b -> 2 ^ (a + b) = 2 ^ a * 2 ^ b.
Proof. intros. apply Z.pow_add_r; lia. Qed.

Lemma log2_lt_pow2' m k : 0 < m -> m < 2 ^ k -> Z.log2 m < k.
Proof. intros. apply Z.log2_lt_pow2; lia. Qed.

Lemma log2_le_pow2' m k : 0 < m -> 2 ^ k <= m -> k <= Z.log2 m.
Proof. intros. apply Z.log2_le_pow2; lia. Qed.

Lemma finish_spec s m E :
  0 <= m <= 2 ^ 24 -> -149 <= E -> (-149 < E -> 2 ^ 23 <= m) ->
  valid (finish s m E) = true /\ signed s (finish s m E) /\
  ord (finish s m E) = cond_Zopp s (Z.min (m * 2 ^ (E + 149)) omega).
Proof.
  intros Hm HE Hn. unfold finish, shr_fexp. rewrite fexp_eq. unfold fexp32.
  assert (H0 : m = 0 \/ 0 < m < 2 ^ 24 \/ m = 2 ^ 24) by lia.
  destruct H0 as [->|[H0| ->]].
  - (* zero *)
    assert (E = -149) by (change (2 ^ 23) with 8388608 in Hn; lia). subst E.
    simpl. repeat split. now destruct s.
  - (* below 2^24 *)
    rewrite Zdigits2_log2 by lia.
    assert (Hl : Z.log2 m < 24) by (apply log2_lt_pow2'; lia).
    assert (Hl2 : -149 < E -> 23 <= Z.log2 m) by (intros; apply log2_le_pow2'; lia).
    assert (Hl0 : 0 <= Z.log2 m) by apply Z.log2_nonneg.
    replace (Z.max (Z.log2 m + 1 + E - 24) (-149) - E) with 0 by lia.
    cbn [shr shr_record_of_loc shr_m].
    destruct m as [|p|p]; try lia.
    change (emax - prec) with 104.
    destruct (Z.leb_spec E 104) as [HE1|HE1].
    + split; [|split].
      * unfold valid, valid_binary, bounded, canonical_mantissa.
        rewrite fexp_eq. unfold fexp32. rewrite digits2_pos_log2.
        change (emax - prec) with 104.
        generalize dependent (Z.log2 (Zpos p)). intros l Hl Hl2 Hl0.
        apply andb_true_intro; split; [apply Z.eqb_eq | apply Z.leb_le]; lia.
      * reflexivity.
      * cbn [ord]. f_equal. rewrite Z.min_l; [reflexivity|].
        unfold omega. replace 277 with (24 + 253) by lia.
        rewrite (pow2_add 24 253) by lia.
        assert (2 ^ (E + 149) <= 2 ^ 253) by (apply pow2_le; lia).
        assert (Hv : 0 < 2 ^ (E + 149)) by (apply pow2_pos; lia).
        nia.
    + split; [|split]; try reflexivity.
      cbn [ord]. f_equal. rewrite Z.min_r; [reflexivity|].
      unfold omega. replace 277 with (23 + 254) by lia.
      rewrite (pow2_add 23 254) by lia.
      assert (2 ^ 254 <= 2 ^ (E + 149)) by (apply pow2_le; lia).
      specialize (Hn ltac:(lia)). nia.
  - (* exactly 2^24: one more shift *)
    change (Zdigits2 (2 ^ 24)) with 25.
    replace (Z.max (25 + E - 24) (-149) - E) with 1 by lia.
    cbn [shr shr_record_of_loc iter_pos]. 
    change (shr_m (shr_1 {| shr_m := 2 ^ 24; shr_r := false; shr_s := false |}))
      with (Zpos 8388608).
    cbv iota beta.
    change (emax - prec) with 104.
    destruct (Z.leb_spec (E + 1) 104) as [HE1|HE1].
    + split; [|split].
      * unfold valid, valid_binary, bounded, canonical_mantissa.
        rewrite fexp_eq. unfold fexp32.
        change (Zpos (digits2_pos 8388608)) with 24.
        change (emax - prec) with 104.
        apply andb_true_intro; split; [apply Z.eqb_eq | apply Z.leb_le]; lia.
      * reflexivity.
      * cbn [ord]. f_equal.
        replace (E + 1 + 149) with (1 + (E + 149)) by lia.
        rewrite (pow2_add 1 (E + 149)) by lia.
        rewrite Z.min_l.
        -- change (2 ^ 24) with (8388608 * 2 ^ 1). lia.
        -- unfold omega. replace 277 with (24 + 253) by lia.
           rewrite (pow2_add 24 253) by lia.
           assert (2 ^ (E + 149) <= 2 ^ 253) by (apply pow2_le; lia).
           assert (Hv : 0 < 2 ^ (E + 149)) by (apply pow2_pos; lia).
           nia.
    + split; [|split]; try reflexivity.
      cbn [ord]. f_equal. rewrite Z.min_r; [reflexivity|].
      unfold omega. replace 277 with (24 + 253) by lia.
      rewrite (pow2_add 24 253) by lia.
      assert (2 ^ 253 <= 2 ^ (E + 149)) by (apply pow2_le; lia).
      nia.
Qed.

Lemma bra_finish s mx ex lx :
  binary_round_aux prec emax s mx ex lx
  = finish s (round_nearest_even (shr_m (fst (shr_fexp prec emax mx ex lx)))
                (loc_of_shr_record (fst (shr_fexp prec emax mx ex lx))))
           (snd (shr_fexp prec emax mx ex lx)).
Proof.
  unfold binary_round_aux, finish.
  destruct (shr_fexp prec emax mx ex lx) as [mrs' e']. reflexivity.
Qed.

Lemma shr_record_of_loc_m m l : shr_m (shr_record_of_loc m l) = m.
Proof. destruct l as [|[| |]]; reflexivity. Qed.

(** The first shift: quotient and exponent, whatever the location. *)
Lemma first_shift mx ex lx :
  0 <= mx -> ex <= fexp32 (Zdigits2 mx + ex) ->
  let E := fexp32 (Zdigits2 mx + ex) in
  snd (shr_fexp prec emax mx ex lx) = E /\
  shr_m (fst (shr_fexp prec emax mx ex lx)) = mx / 2 ^ (E - ex).
Proof.
  intros Hm He E. unfold shr_fexp. rewrite fexp_eq. fold E.
  rewrite shr_nat by lia. cbn [fst snd]. split; [lia|].
  rewrite iter_shr_m by (rewrite shr_record_of_loc_m; lia).
  rewrite shr_record_of_loc_m, Z2Nat.id by lia. reflexivity.
Qed.

(** After the first shift the mantissa fits the format. *)
Lemma first_shift_range mx ex :
  0 <= mx -> ex <= fexp32 (Zdigits2 mx + ex) ->
  let E := fexp32 (Zdigits2 mx + ex) in
  let q := mx / 2 ^ (E - ex) in
  0 <= q < 2 ^ 24 /\ -149 <= E /\ (-149 < E -> 2 ^ 23 <= q).
Proof.
  intros Hm He. cbv zeta.
  destruct (Z.eq_dec mx 0) as [->|Hnz].
  - rewrite Z.div_0_l by (apply Z.pow_nonzero; lia).
    simpl Zdigits2 in *. unfold fexp32 in *.
    change (2 ^ 24) with 16777216. change (2 ^ 23) with 8388608. lia.
  - assert (Hpos : 0 < mx) by lia.
    pose proof (log2_bounds mx Hpos) as [Hlo Hhi].
    pose proof (Z.log2_nonneg mx) as Hl0.
    rewrite Zdigits2_log2 in * by lia.
    set (l := Z.log2 mx) in *.
    set (E := fexp32 (l + 1 + ex)) in *.
    assert (HE : -149 <= E /\ l + 1 + ex - 24 <= E /\ (-149 < E -> E = l + 1 + ex - 24))
      by (unfold E, fexp32; lia).
    clearbody E l.
    assert (HP : 0 < 2 ^ (E - ex)) by (apply pow2_pos; lia).
    split; [|split]; [split| |].
    + apply Z.div_pos; lia.
    + apply Z.div_lt_upper_bound; [exact HP|].
      rewrite <- pow2_add by lia.
      apply Z.lt_le_trans with (1 := Hhi). apply pow2_le. lia.
    + lia.
    + intros HE'. apply Z.div_le_lower_bound; [exact HP|].
      rewrite Z.mul_comm, <- pow2_add by lia.
      apply Z.le_trans with (2 := Hlo). apply pow2_le. lia.
Qed.

Lemma bra_valid s mx ex lx :
  0 <= mx -> ex <= fexp32 (Zdigits2 mx + ex) ->
  valid (binary_round_aux prec emax s mx ex lx) = true /\
  signed s (binary_round_aux prec emax s mx ex lx).
Proof.
  intros Hm He. rewrite bra_finish.
  destruct (first_shift mx ex lx Hm He) as [-> ->].
  destruct (first_shift_range mx ex Hm He) as (Hq & HE & Hn).
  set (q := mx / _) in *.
  pose proof (round_nearest_even_bounds q
    (loc_of_shr_record (fst (shr_fexp prec emax mx ex lx)))) as Hr.
  edestruct finish_spec as (Hv & Hs & _); [| |..|split; [exact Hv|exact Hs]].
  - lia.
  - exact HE.
  - intros. specialize (Hn H). lia.
Qed.

Lemma bra_exact s mx ex :
  0 < mx -> ex <= fexp32 (Zdigits2 mx + ex) ->
  ord (binary_round_aux prec emax s mx ex loc_Exact)
  = cond_Zopp s (RNpos mx ex).
Proof.
  intros Hm He. rewrite bra_finish.
  assert (Hm' : 0 <= mx) by lia.
  destruct (first_shift mx ex loc_Exact Hm' He) as [HE Hq].
  destruct (first_shift_range mx ex Hm' He) as (Hr & HE' & Hn).
  rewrite HE.
  assert (Hround :
    round_nearest_even (shr_m (fst (shr_fexp prec emax mx ex loc_Exact)))
       (loc_of_shr_record (fst (shr_fexp prec emax mx ex loc_Exact)))
    = if fexp32 (Zdigits2 mx + ex) <=? ex then mx * 2 ^ (ex - fexp32 (Zdigits2 mx + ex))
      else rne_div mx (2 ^ (fexp32 (Zdigits2 mx + ex) - ex))).
  { unfold shr_fexp. rewrite fexp_eq.
    set (E := fexp32 (Zdigits2 mx + ex)) in *.
    rewrite shr_nat by lia. cbn [fst shr_record_of_loc].
    destruct (Z.leb_spec E ex) as [H1|H1].
    - replace (E - ex) with 0 by lia. replace (ex - E) with 0 by lia.
      simpl. lia.
    - destruct (Z.to_nat (E - ex)) as [|k] eqn:Ek; [lia|].
      rewrite round_after_shift by lia.
      rewrite <- Ek, Z2Nat.id by lia. reflexivity. }
  rewrite Hround.
  set (E := fexp32 (Zdigits2 mx + ex)) in *.
  set (m2 := if E <=? ex then _ else _).
  assert (Hm2 : mx / 2 ^ (E - ex) <= m2 <= mx / 2 ^ (E - ex) + 1).
  { unfold m2. destruct (Z.leb_spec E ex).
    - replace (E - ex) with 0 by lia. replace (ex - E) with 0 by lia.
      rewrite Z.pow_0_r, Z.div_1_r. lia.
    - apply rne_div_bounds. apply pow2_pos. lia. }
  destruct (finish_spec s m2 E) as (_ & _ & Ho); try lia.
  rewrite Ho. unfold RNpos. rewrite <- Zdigits2_log2 by lia. reflexivity.
Qed.

(** ** The rounding of a positive number *)

Lemma fexp32_mono a b : a <= b -> fexp32 a <= fexp32 b.
Proof. unfold fexp32. lia. Qed.

Lemma RNpos_nonneg m e : 0 < m -> 0 <= RNpos m e.
Proof.
  intros Hm. unfold RNpos.
  set (E := fexp32 _).
  assert (0 <= 2 ^ (E + 149)) by (apply Z.pow_nonneg; lia).
  assert (0 <= omega) by (unfold omega; apply Z.pow_nonneg; lia).
  apply Z.min_glb; [|assumption].
  apply Z.mul_nonneg_nonneg; [|assumption].
  destruct (Z.leb_spec E e).
  - apply Z.mul_nonneg_nonneg; [lia|apply Z.pow_nonneg; lia].
  - assert (0 < 2 ^ (E - e)) by (apply pow2_pos; lia).
    pose proof (rne_div_bounds m (2 ^ (E - e)) H2).
    assert (0 <= m / 2 ^ (E - e)) by (apply Z.div_pos; lia).
    lia.
Qed.

Lemma RNpos_le_omega m e : RNpos m e <= omega.
Proof. unfold RNpos. apply Z.le_min_r. Qed.

(** The rounding depends on the value only, not on how it is written. *)
Lemma RNpos_shift m e k :
  0 < m -> 0 <= k -> RNpos (m * 2 ^ k) (e - k) = RNpos m e.
Proof.
  intros Hm Hk. unfold RNpos.
  rewrite Z.log2_mul_pow2 by lia.
  replace (k + Z.log2 m + 1 + (e - k)) with (Z.log2 m + 1 + e) by lia.
  set (E := fexp32 _). f_equal. f_equal.
  destruct (Z.leb_spec E (e - k)) as [H1|H1]; destruct (Z.leb_spec E e) as [H2|H2];
    try lia.
  - rewrite <- Z.mul_assoc, <- (pow2_add k (e - k - E)) by lia. f_equal. f_equal. lia.
  - replace k with ((e - E) + (E - (e - k))) at 1 by lia.
    rewrite (pow2_add (e - E) (E - (e - k))) by lia. rewrite Z.mul_assoc.
    apply rne_div_exact. apply pow2_pos; lia.
  - replace (E - (e - k)) with ((E - e) + k) by lia.
    rewrite (pow2_add (E - e) k) by lia.
    apply rne_div_scale; apply pow2_pos; lia.
Qed.

(** The rounded mantissa stays within the binade of the value. *)
Lemma RNpos_upper m e :
  0 < m ->
  let d := Z.log2 m + 1 + e in
  RNpos m e <= 2 ^ (Z.max d (fexp32 d) + 149).
Proof.
  intros Hm d. unfold RNpos. fold d. set (E := fexp32 d).
  assert (HE : -149 <= E) by (unfold E, fexp32; lia).
  assert (Hdd : d = Z.log2 m + 1 + e) by reflexivity. clearbody E d.
  pose proof (log2_bounds m Hm) as [Hlo Hhi].
  pose proof (Z.log2_nonneg m) as Hl0.
  apply Z.le_trans with (1 := Z.le_min_l _ _).
  assert (HP : 0 < 2 ^ (E + 149)) by (apply pow2_pos; lia).
  destruct (Z.leb_spec E e) as [H1|H1].
  - rewrite Z.max_l by lia.
    replace (d + 149) with ((Z.log2 m + 1) + (e - E) + (E + 149)) by lia.
    rewrite (pow2_add (Z.log2 m + 1 + (e - E)) (E + 149)),
      (pow2_add (Z.log2 m + 1) (e - E)) by lia.
    assert (0 < 2 ^ (e - E)) by (apply pow2_pos; lia).
    apply Z.mul_le_mono_nonneg_r; [lia|].
    apply Z.mul_le_mono_nonneg_r; lia.
  - assert (HN : 0 < 2 ^ (E - e)) by (apply pow2_pos; lia).
    destruct (Z.le_ge_cases E d) as [H2|H2].
    + rewrite Z.max_l by lia.
      replace (d + 149) with ((d - E) + (E + 149)) by lia.
      rewrite (pow2_add (d - E) (E + 149)) by lia.
      apply Z.mul_le_mono_nonneg_r; [lia|].
      apply rne_div_le; [exact HN|].
      rewrite <- (pow2_add (d - E) (E - e)) by lia.
      replace (d - E + (E - e)) with (Z.log2 m + 1) by lia. lia.
    + rewrite Z.max_r by lia.
      rewrite <- (Z.mul_1_l (2 ^ (E + 149))) at 2.
      apply Z.mul_le_mono_nonneg_r; [lia|].
      apply rne_div_le; [exact HN|].
      rewrite Z.mul_1_l.
      apply Z.lt_le_incl, Z.lt_le_trans with (1 := Hhi).
      apply pow2_le. lia.
Qed.

Lemma RNpos_lower m e :
  0 < m ->
  let d := Z.log2 m + 1 + e in
  fexp32 d <= d - 1 ->
  Z.min (2 ^ (d - 1 + 149)) omega <= RNpos m e.
Proof.
  intros Hm d Hd. unfold RNpos. fold d. set (E := fexp32 d) in *.
  assert (HE : -149 <= E) by (unfold E, fexp32; lia).
  assert (Hdd : d = Z.log2 m + 1 + e) by reflexivity. clearbody E d.
  pose proof (log2_bounds m Hm) as [Hlo Hhi].
  pose proof (Z.log2_nonneg m) as Hl0.
  apply Z.min_le_compat_r.
  assert (HP : 0 < 2 ^ (E + 149)) by (apply pow2_pos; lia).
  replace (d - 1 + 149) with ((d - 1 - E) + (E + 149)) by lia.
  rewrite (pow2_add (d - 1 - E) (E + 149)) by lia.
  apply Z.mul_le_mono_nonneg_r; [lia|].
  destruct (Z.leb_spec E e) as [H1|H1].
  - replace (d - 1 - E) with (Z.log2 m + (e - E)) by lia.
    rewrite (pow2_add (Z.log2 m) (e - E)) by lia.
    apply Z.mul_le_mono_nonneg_r; [|lia].
    apply Z.pow_nonneg; lia.
  - assert (HN : 0 < 2 ^ (E - e)) by (apply pow2_pos; lia).
    apply rne_div_ge; [exact HN|].
    rewrite <- (pow2_add (d - 1 - E) (E - e)) by lia.
    replace (d - 1 - E + (E - e)) with (Z.log2 m) by lia. lia.
Qed.

Lemma RNpos_mono m1 m2 e :
  0 < m1 -> m1 <= m2 -> RNpos m1 e <= RNpos m2 e.
Proof.
  intros H1 H12.
  assert (H2 : 0 < m2) by lia.
  pose proof (Z.log2_le_mono m1 m2 H12) as Hl.
  set (d1 := Z.log2 m1 + 1 + e). set (d2 := Z.log2 m2 + 1 + e).
  assert (Hd : d1 <= d2) by (unfold d1, d2; lia).
  pose proof (fexp32_mono d1 d2 Hd) as HE.
  destruct (Z.eq_dec (fexp32 d1) (fexp32 d2)) as [Heq|Hne].
  - unfold RNpos. fold d1 d2. rewrite Heq. set (E := fexp32 d2).
    assert (HE' : -149 <= E) by (unfold E, fexp32; lia).
    apply Z.min_le_compat_r.
    apply Z.mul_le_mono_nonneg_r; [apply Z.pow_nonneg; lia|].
    destruct (Z.leb_spec E e).
    + apply Z.mul_le_mono_nonneg_r; [apply Z.pow_nonneg; lia|lia].
    + apply rne_div_mono; [apply pow2_pos; lia|lia].
  - assert (Hlt : fexp32 d1 < fexp32 d2) by lia.
    assert (Hd2 : fexp32 d2 <= d2 - 1) by (unfold fexp32 in *; lia).
    pose proof (RNpos_lower m2 e H2 Hd2) as Hlow. fold d2 in Hlow.
    pose proof (RNpos_upper m1 e H1) as Hup. fold d1 in Hup.
    pose proof (RNpos_le_omega m1 e) as Hom.
    apply Z.le_trans with (2 := Hlow).
    apply Z.min_glb; [|exact Hom].
    apply Z.le_trans with (1 := Hup).
    apply pow2_le. unfold fexp32 in *. lia.
Qed.

Lemma RNpos_canonical m e :
  0 < m -> fexp32 (Z.log2 m + 1 + e) = e -> e <= 104 ->
  RNpos m e = m * 2 ^ (e + 149).
Proof.
  intros Hm Hc He. unfold RNpos. rewrite Hc.
  rewrite Z.leb_refl, Z.sub_diag, Z.pow_0_r, Z.mul_1_r.
  apply Z.min_l.
  pose proof (log2_bounds m Hm) as [_ Hhi].
  pose proof (Z.log2_nonneg m) as Hl0.
  assert (Hl : Z.log2 m + 1 <= 24) by (unfold fexp32 in Hc; lia).
  assert (He' : -149 <= e) by (unfold fexp32 in Hc; lia).
  unfold omega. replace 277 with (24 + 253) by lia.
  rewrite (pow2_add 24 253) by lia.
  assert (2 ^ (Z.log2 m + 1) <= 2 ^ 24) by (apply pow2_le; lia).
  assert (2 ^ (e + 149) <= 2 ^ 253) by (apply pow2_le; lia).
  assert (0 < 2 ^ (e + 149)) by (apply pow2_pos; lia).
  apply Z.mul_le_mono_nonneg; lia.
Qed.

(** ** The signed rounding *)

Lemma RN_opp M e : RN (- M) e = - RN M e.
Proof. destruct M; simpl; lia. Qed.

Lemma RN_pos M e : 0 < M -> RN M e = RNpos M e.
Proof. destruct M; simpl; lia. Qed.

Lemma RN_neg M e : M < 0 -> RN M e = - RNpos (- M) e.
Proof. destruct M; simpl; lia. Qed.

Lemma RN_cond_Zopp s M e : RN (cond_Zopp s M) e = cond_Zopp s (RN M e).
Proof. destruct s; simpl; [apply RN_opp|reflexivity]. Qed.

Lemma RN_sign M e : (0 <= M -> 0 <= RN M e) /\ (M <= 0 -> RN M e <= 0).
Proof.
  destruct M as [|p|p]; simpl; split; intros; try lia.
  - apply RNpos_nonneg. lia.
  - pose proof (RNpos_nonneg (Zpos p) e ltac:(lia)). lia.
Qed.

Lemma RN_mono M1 M2 e : M1 <= M2 -> RN M1 e <= RN M2 e.
Proof.
  intros H.
  destruct (RN_sign M1 e) as [P1 N1]. destruct (RN_sign M2 e) as [P2 N2].
  destruct (Z.lt_trichotomy M1 0) as [A|[A|A]];
    destruct (Z.lt_trichotomy M2 0) as [B|[B|B]]; try lia.
  - rewrite !RN_neg by lia.
    apply -> Z.opp_le_mono. apply RNpos_mono; lia.
  - rewrite !RN_pos by lia. apply RNpos_mono; lia.
Qed.

Lemma omega_pos : 0 < omega.
Proof. reflexivity. Qed.

Lemma RN_bounds M e : - omega <= RN M e <= omega.
Proof.
  pose proof omega_pos.
  destruct (Z.lt_trichotomy M 0) as [A|[A|A]].
  - rewrite RN_neg by lia.
    pose proof (RNpos_nonneg (- M) e ltac:(lia)).
    pose proof (RNpos_le_omega (- M) e). lia.
  - subst M. simpl. lia.
  - rewrite RN_pos by lia.
    pose proof (RNpos_nonneg M e ltac:(lia)).
    pose proof (RNpos_le_omega M e). lia.
Qed.

Lemma RN_shift M e k : 0 <= k -> RN (M * 2 ^ k) (e - k) = RN M e.
Proof.
  intros Hk. assert (HP : 0 < 2 ^ k) by (apply pow2_pos; lia).
  destruct (Z.lt_trichotomy M 0) as [A|[A|A]].
  - rewrite !RN_neg by nia. f_equal.
    rewrite <- Z.mul_opp_l. apply RNpos_shift; lia.
  - subst M. reflexivity.
  - rewrite !RN_pos by nia. apply RNpos_shift; lia.
Qed.

(** ** Normalisation of an integer mantissa *)

Lemma iter_xO m d : Zpos (Pos.iter xO m d) = Zpos m * 2 ^ Zpos d.
Proof.
  change (Pos.iter xO m d) with (shift_pos d m).
  rewrite shift_pos_correct. rewrite Z.mul_comm. reflexivity.
Qed.

Lemma shl_align_spec mx ex ex' :
  snd (shl_align mx ex ex') = Z.min ex ex' /\
  Zpos (fst (shl_align mx ex ex'))
  = Zpos mx * 2 ^ (ex - snd (shl_align mx ex ex')).
Proof.
  unfold shl_align. destruct (ex' - ex) as [|d|d] eqn:Hd; cbn [fst snd].
  - split; [lia|]. rewrite Z.sub_diag. simpl. lia.
  - split; [lia|]. rewrite Z.sub_diag. simpl. lia.
  - split; [lia|]. rewrite iter_xO. f_equal. f_equal. lia.
Qed.

Lemma binary_round_spec s m e :
  let x := binary_round prec emax s m e in
  valid x = true /\ signed s x /\ ord x = cond_Zopp s (RNpos (Zpos m) e).
Proof.
  cbv zeta. unfold binary_round.
  rewrite fexp_eq, digits2_pos_log2.
  set (E := fexp32 (Z.log2 (Zpos m) + 1 + e)).
  destruct (shl_align_spec m e E) as [He Hm].
  destruct (shl_align m e E) as [mz ez]. cbn [fst snd] in He, Hm.
  assert (Hk : 0 <= e - ez) by lia.
  assert (Hd : Zdigits2 (Zpos mz) + ez = Z.log2 (Zpos m) + 1 + e).
  { rewrite Zdigits2_log2 by lia. rewrite Hm.
    rewrite Z.log2_mul_pow2 by lia. lia. }
  assert (Hpre : ez <= fexp32 (Zdigits2 (Zpos mz) + ez)).
  { rewrite Hd. fold E. lia. }
  destruct (bra_valid s (Zpos mz) ez loc_Exact ltac:(lia) Hpre) as [Hv Hs].
  split; [exact Hv|split; [exact Hs|]].
  rewrite bra_exact by (try lia; exact Hpre).
  f_equal. rewrite Hm.
  replace ez with (e - (e - ez)) at 2 by lia.
  apply RNpos_shift; lia.
Qed.

Lemma signed_not_nan s x : signed s x -> is_nan x = false.
Proof. destruct x; simpl; tauto. Qed.

Lemma binary_normalize_spec M e sz :
  let x := binary_normalize prec emax M e sz in
  valid x = true /\ is_nan x = false /\ ord x = RN M e.
Proof.
  cbv zeta. destruct M as [|p|p]; cbn [binary_normalize RN].
  - repeat split.
  - destruct (binary_round_spec false p e) as (Hv & Hs & Ho).
    split; [exact Hv|split; [eapply signed_not_nan; exact Hs|exact Ho]].
  - destruct (binary_round_spec true p e) as (Hv & Hs & Ho).
    split; [exact Hv|split; [eapply signed_not_nan; exact Hs|exact Ho]].
Qed.

(** ** Members of the format *)

Lemma valid_finite s m e :
  valid (S754_finite s m e) = true ->
  fexp32 (Z.log2 (Zpos m) + 1 + e) = e /\ e <= 104.
Proof.
  unfold valid, valid_binary, bounded, canonical_mantissa.
  rewrite fexp_eq, digits2_pos_log2. change (emax - prec) with 104.
  intros H. apply andb_prop in H. destruct H as [H1 H2].
  apply Z.eqb_eq in H1. apply Z.leb_le in H2. split; assumption.
Qed.

Lemma valid_finite_range s m e :
  valid (S754_finite s m e) = true ->
  -149 <= e <= 104 /\ Zpos m < 2 ^ 24 /\ (-149 < e -> 2 ^ 23 <= Zpos m).
Proof.
  intros H. apply valid_finite in H. destruct H as [Hc He].
  pose proof (log2_bounds (Zpos m) ltac:(lia)) as [Hlo Hhi].
  pose proof (Z.log2_nonneg (Zpos m)) as Hl0.
  set (l := Z.log2 (Zpos m)) in *. clearbody l.
  unfold fexp32 in Hc. split; [lia|]. split.
  - apply Z.lt_le_trans with (1 := Hhi). apply pow2_le. lia.
  - intros H. apply Z.le_trans with (2 := Hlo). apply pow2_le. lia.
Qed.

Lemma ord_finite_pos s m e :
  valid (S754_finite s m e) = true ->
  0 < Zpos m * 2 ^ (e + 149) < omega.
Proof.
  intros H. destruct (valid_finite_range _ _ _ H) as (He & Hm & _).
  assert (0 < 2 ^ (e + 149)) by (apply pow2_pos; lia).
  assert (2 ^ (e + 149) <= 2 ^ 253) by (apply pow2_le; lia).
  split; [nia|].
  assert (Zpos m * 2 ^ (e + 149) <= (2 ^ 24 - 1) * 2 ^ 253)
    by (apply Z.mul_le_mono_nonneg; lia).
  unfold omega. 
  assert ((2 ^ 24 - 1) * 2 ^ 253 < 2 ^ 277) by reflexivity. lia.
Qed.

Lemma ord_bounds x : valid x = true -> - omega <= ord x <= omega.
Proof.
  pose proof omega_pos.
  destruct x as [s|s|  |s m e]; intros Hv; cbn [ord].
  - lia.
  - destruct s; cbn [cond_Zopp]; lia.
  - lia.
  - pose proof (ord_finite_pos s m e Hv). destruct s; cbn [cond_Zopp]; lia.
Qed.

Lemma ord_finite_lt x :
  valid x = true -> is_finite x = true -> - omega < ord x < omega.
Proof.
  pose proof omega_pos.
  destruct x as [s|s|  |s m e]; intros Hv Hf; cbn [ord]; try discriminate.
  - lia.
  - pose proof (ord_finite_pos s m e Hv). destruct s; cbn [cond_Zopp]; lia.
Qed.

(** A member of the format is its own rounding. *)
Lemma RNZ_ord x : valid x = true -> RNZ (ord x) = ord x.
Proof.
  destruct x as [s|s|  |s m e]; intros Hv; cbn [ord]; try reflexivity.
  - destruct s; reflexivity.
  - destruct (valid_finite _ _ _ Hv) as [Hc He].
    destruct (valid_finite_range _ _ _ Hv) as (He' & _).
    unfold RNZ. rewrite RN_cond_Zopp. f_equal.
    replace (-149) with (e - (e + 149)) by lia.
    rewrite RN_shift by lia. rewrite RN_pos by lia.
    apply RNpos_canonical; [lia|assumption|assumption].
Qed.

(** ** The comparison is the order of [ord] *)

Lemma canonical_lt s1 m1 e1 s2 m2 e2 :
  valid (S754_finite s1 m1 e1) = true ->
  valid (S754_finite s2 m2 e2) = true ->
  e1 < e2 -> Zpos m1 * 2 ^ (e1 + 149) < Zpos m2 * 2 ^ (e2 + 149).
Proof.
  intros H1 H2 Hlt.
  destruct (valid_finite_range _ _ _ H1) as (He1 & Hm1 & _).
  destruct (valid_finite_range _ _ _ H2) as (He2 & _ & Hm2).
  specialize (Hm2 ltac:(lia)).
  assert (P1 : 0 < 2 ^ (e1 + 149)) by (apply pow2_pos; lia).
  assert (P2 : 2 ^ (e1 + 149 + 1) <= 2 ^ (e2 + 149)) by (apply pow2_le; lia).
  rewrite (pow2_add (e1 + 149) 1) in P2 by lia.
  change (2 ^ 1) with 2 in P2. change (2 ^ 24) with 16777216 in Hm1.
  change (2 ^ 23) with 8388608 in Hm2.
  apply Z.lt_le_trans with (16777216 * 2 ^ (e1 + 149)); [nia|].
  apply Z.le_trans with (8388608 * 2 ^ (e2 + 149)); [lia|nia].
Qed.

Lemma compare_finite_pos s1 m1 e1 s2 m2 e2 :
  valid (S754_finite s1 m1 e1) = true ->
  valid (S754_finite s2 m2 e2) = true ->
  match e1 ?= e2 with
  | Lt => Lt
  | Gt => Gt
  | Eq => Pos.compare_cont Eq m1 m2
  end = (Zpos m1 * 2 ^ (e1 + 149) ?= Zpos m2 * 2 ^ (e2 + 149)).
Proof.
  intros H1 H2. symmetry.
  destruct (Z.compare_spec e1 e2) as [->|Hlt|Hgt].
  - destruct (valid_finite_range _ _ _ H2) as (He2 & _).
    assert (P : 0 < 2 ^ (e2 + 149)) by (apply pow2_pos; lia).
    change (Pos.compare_cont Eq m1 m2) with (Zpos m1 ?= Zpos m2).
    destruct (Z.compare_spec (Zpos m1) (Zpos m2)) as [E|L|G].
    + rewrite E. apply Z.compare_refl.
    + apply Z.compare_lt_iff. nia.
    + apply Z.compare_gt_iff. nia.
  - apply Z.compare_lt_iff. eapply canonical_lt; eassumption.
  - apply Z.compare_gt_iff. eapply canonical_lt; eassumption.
Qed.

Lemma compare_spec x y :
  valid x = true -> valid y = true ->
  is_nan x = false -> is_nan y = false ->
  SFcompare x y = Some (ord x ?= ord y).
Proof.
  pose proof omega_pos as Hom.
  intros Hx Hy Nx Ny.
  destruct x as [sx|sx| |sx mx ex]; try discriminate;
    destruct y as [sy|sy| |sy my ey]; try discriminate;
    cbn [SFcompare ord]; f_equal.
  - destruct sy; cbn [cond_Zopp]; symmetry;
      [apply Z.compare_gt_iff|apply Z.compare_lt_iff]; lia.
  - pose proof (ord_finite_pos sy my ey Hy).
    destruct sy; cbn [cond_Zopp]; symmetry;
      [apply Z.compare_gt_iff|apply Z.compare_lt_iff]; lia.
  - destruct sx; cbn [cond_Zopp]; symmetry;
      [apply Z.compare_lt_iff|apply Z.compare_gt_iff]; lia.
  - destruct sx, sy; cbn [cond_Zopp]; symmetry;
      try apply Z.compare_refl;
      [apply Z.compare_lt_iff|apply Z.compare_gt_iff]; lia.
  - pose proof (ord_finite_pos sy my ey Hy).
    destruct sx; cbn [cond_Zopp]; symmetry; destruct sy; cbn [cond_Zopp];
      solve [apply Z.compare_lt_iff; lia | apply Z.compare_gt_iff; lia].
  - pose proof (ord_finite_pos sx mx ex Hx).
    destruct sx; cbn [cond_Zopp]; symmetry;
      [apply Z.compare_lt_iff|apply Z.compare_gt_iff]; lia.
  - pose proof (ord_finite_pos sx mx ex Hx).
    destruct sy; cbn [cond_Zopp]; symmetry; destruct sx; cbn [cond_Zopp];
      solve [apply Z.compare_lt_iff; lia | apply Z.compare_gt_iff; lia].
  - pose proof (ord_finite_pos sx mx ex Hx) as Px.
    pose proof (ord_finite_pos sy my ey Hy) as Py.
    pose proof (compare_finite_pos sx mx ex sy my ey Hx Hy) as C1.
    pose proof (compare_finite_pos sy my ey sx mx ex Hy Hx) as C2.
    destruct sx, sy; cbn [cond_Zopp].
    + rewrite Z.compare_opp. rewrite <- C2.
      rewrite (Z.compare_antisym ey ex).
      destruct (ey ?= ex); simpl; try reflexivity.
      rewrite Pos.compare_cont_antisym. reflexivity.
    + symmetry. apply Z.compare_lt_iff. lia.
    + symmetry. apply Z.compare_gt_iff. lia.
    + exact C1.
Qed.

(** ** Alignment to the smallest exponent *)

Lemma cond_Zopp_mul s a b : cond_Zopp s a * b = cond_Zopp s (a * b).
Proof. destruct s; simpl; lia. Qed.

Lemma aligned_ord s m e ez :
  -149 <= ez <= e ->
  cond_Zopp s (Zpos (fst (shl_align m e ez))) * 2 ^ (ez + 149)
  = ord (S754_finite s m e).
Proof.
  intros H. destruct (shl_align_spec m e ez) as [He Hm].
  rewrite Hm, He, Z.min_r by lia. cbn [ord].
  rewrite cond_Zopp_mul. f_equal.
  rewrite <- Z.mul_assoc, <- (pow2_add (e - ez) (ez + 149)) by lia.
  f_equal. f_equal. lia.
Qed.

Lemma RN_at M e : -149 <= e -> RN M e = RNZ (M * 2 ^ (e + 149)).
Proof.
  intros H. unfold RNZ. replace (-149) with (e - (e + 149)) by lia.
  symmetry. apply RN_shift. lia.
Qed.

(** ** Addition and subtraction of finite numbers *)

Lemma add_spec x y :
  valid x = true -> valid y = true ->
  is_finite x = true -> is_finite y = true ->
  valid (add x y) = true /\ is_nan (add x y) = false /\
  ord (add x y) = RNZ (ord x + ord y).
Proof.
  intros Hx Hy Fx Fy.
  destruct x as [sx|sx| |sx mx ex]; try discriminate;
    destruct y as [sy|sy| |sy my ey]; try discriminate.
  - destruct sx, sy; repeat split.
  - split; [exact Hy|split; [reflexivity|]].
    rewrite Z.add_0_l. symmetry. apply (RNZ_ord _ Hy).
  - split; [exact Hx|split; [reflexivity|]].
    rewrite Z.add_0_r. symmetry. apply (RNZ_ord _ Hx).
  - unfold add. cbn [SFadd].
    destruct (valid_finite_range _ _ _ Hx) as (Hex & _).
    destruct (valid_finite_range _ _ _ Hy) as (Hey & _).
    set (ez := Z.min ex ey).
    destruct (binary_normalize_spec
      (cond_Zopp sx (Zpos (fst (shl_align mx ex ez)))
       + cond_Zopp sy (Zpos (fst (shl_align my ey ez)))) ez false)
      as (Hv & Hn & Ho).
    split; [exact Hv|split; [exact Hn|]].
    rewrite Ho, RN_at by lia. f_equal.
    rewrite Z.mul_add_distr_r, !aligned_ord by lia. reflexivity.
Qed.

Lemma sub_spec x y :
  valid x = true -> valid y = true ->
  is_finite x = true -> is_finite y = true ->
  valid (sub x y) = true /\ is_nan (sub x y) = false /\
  ord (sub x y) = RNZ (ord x - ord y).
Proof.
  intros Hx Hy Fx Fy.
  destruct x as [sx|sx| |sx mx ex]; try discriminate;
    destruct y as [sy|sy| |sy my ey]; try discriminate.
  - destruct sx, sy; repeat split.
  - split; [exact Hy|split; [reflexivity|]].
    rewrite Z.sub_0_l.
    change (sub (S754_zero sx) (S754_finite sy my ey))
      with (S754_finite (negb sy) my ey).
    assert (E : ord (S754_finite (negb sy) my ey) = - ord (S754_finite sy my ey))
      by (destruct sy; cbn [ord cond_Zopp negb]; lia).
    rewrite E. unfold RNZ. rewrite RN_opp. f_equal.
    symmetry. apply (RNZ_ord _ Hy).
  - split; [exact Hx|split; [reflexivity|]].
    rewrite Z.sub_0_r. symmetry. apply (RNZ_ord _ Hx).
  - unfold sub. cbn [SFsub].
    destruct (valid_finite_range _ _ _ Hx) as (Hex & _).
    destruct (valid_finite_range _ _ _ Hy) as (Hey & _).
    set (ez := Z.min ex ey).
    destruct (binary_normalize_spec
      (cond_Zopp sx (Zpos (fst (shl_align mx ex ez)))
       - cond_Zopp sy (Zpos (fst (shl_align my ey ez)))) ez false)
      as (Hv & Hn & Ho).
    split; [exact Hv|split; [exact Hn|]].
    rewrite Ho, RN_at by lia. f_equal.
    rewrite Z.mul_sub_distr_r, !aligned_ord by lia. reflexivity.
Qed.

(** ** Multiplication *)

Lemma mul_pre mx ex my ey sx sy :
  valid (S754_finite sx mx ex) = true ->
  valid (S754_finite sy my ey) = true ->
  ex + ey <= fexp32 (Zdigits2 (Zpos (mx * my)) + (ex + ey)).
Proof.
  intros Hx Hy.
  destruct (valid_finite _ _ _ Hx) as [Cx _].
  destruct (valid_finite _ _ _ Hy) as [Cy _].
  rewrite Zdigits2_log2 by lia. rewrite Pos2Z.inj_mul.
  pose proof (Z.log2_mul_below (Zpos mx) (Zpos my) ltac:(lia) ltac:(lia)) as Hl.
  pose proof (Z.log2_nonneg (Zpos mx)). pose proof (Z.log2_nonneg (Zpos my)).
  unfold fexp32 in *. lia.
Qed.

Lemma mul_spec x y :
  valid x = true -> valid y = true ->
  is_finite x = true -> is_finite y = true ->
  valid (mul x y) = true /\ is_nan (mul x y) = false /\
  ord (mul x y) = RN (ord x * ord y) (-298).
Proof.
  intros Hx Hy Fx Fy.
  destruct x as [sx|sx| |sx mx ex]; try discriminate;
    destruct y as [sy|sy| |sy my ey]; try discriminate.
  - repeat split.
  - repeat split.
  - cbn [ord]. rewrite Z.mul_0_r. repeat split.
  - unfold mul. cbn [SFmul].
    pose proof (mul_pre mx ex my ey sx sy Hx Hy) as Hpre.
    destruct (bra_valid (xorb sx sy) (Zpos (mx * my)) (ex + ey) loc_Exact
                ltac:(lia) Hpre) as [Hv Hs].
    split; [exact Hv|split; [eapply signed_not_nan; exact Hs|]].
    rewrite bra_exact by (try lia; exact Hpre).
    destruct (valid_finite_range _ _ _ Hx) as (Hex & _).
    destruct (valid_finite_range _ _ _ Hy) as (Hey & _).
    cbn [ord].
    assert (E : cond_Zopp sx (Zpos mx * 2 ^ (ex + 149))
                * cond_Zopp sy (Zpos my * 2 ^ (ey + 149))
                = cond_Zopp (xorb sx sy)
                    (Zpos (mx * my) * 2 ^ (ex + ey + 298))).
    { replace (ex + ey + 298) with ((ex + 149) + (ey + 149)) by lia.
      rewrite (pow2_add (ex + 149) (ey + 149)) by lia.
      rewrite Pos2Z.inj_mul.
      destruct sx, sy; cbn [cond_Zopp xorb]; ring. }
    rewrite E, RN_cond_Zopp. f_equal.
    replace (-298) with ((ex + ey) - (ex + ey + 298)) by lia.
    rewrite RN_shift by lia. rewrite RN_pos by lia. reflexivity.
Qed.

(** The sign of a product is the exclusive or of the signs. *)
Lemma mul_signed sx sy x y :
  valid x = true -> valid y = true ->
  signed sx x -> signed sy y -> is_nan (mul x y) = false ->
  signed (xorb sx sy) (mul x y).
Proof.
  intros Hx Hy Sx Sy.
  destruct x as [s1|s1| |s1 mx ex]; destruct y as [s2|s2| |s2 my ey];
    cbn [signed] in Sx, Sy; try contradiction; subst; try discriminate;
    intros _; try reflexivity.
  unfold mul. cbn [SFmul].
  apply (bra_valid (xorb sx sy) (Zpos (mx * my)) (ex + ey) loc_Exact
           ltac:(lia) (mul_pre mx ex my ey sx sy Hx Hy)).
Qed.

(** ** Conversion of integers *)

Lemma of_int_spec n :
  valid (of_int n) = true /\ is_nan (of_int n) = false /\
  ord (of_int n) = RNZ (n * 2 ^ 149).
Proof.
  unfold of_int.
  destruct (binary_normalize_spec n 0 false) as (Hv & Hn & Ho).
  split; [exact Hv|split; [exact Hn|]].
  rewrite Ho, RN_at by lia. reflexivity.
Qed.

Lemma RNZ_int n : - 2 ^ 24 < n < 2 ^ 24 -> RNZ (n * 2 ^ 149) = n * 2 ^ 149.
Proof.
  assert (P : forall k, 0 < k < 2 ^ 24 -> RNpos k 0 = k * 2 ^ 149).
  { intros k Hk. unfold RNpos.
    pose proof (log2_bounds k ltac:(lia)) as [Hlo Hhi].
    pose proof (Z.log2_nonneg k) as Hl0.
    assert (Hl : Z.log2 k < 24) by (apply log2_lt_pow2'; lia).
    set (l := Z.log2 k) in *. clearbody l.
    replace (fexp32 (l + 1 + 0)) with (l - 23) by (unfold fexp32; lia).
    destruct (Z.leb_spec (l - 23) 0) as [_|H]; [|lia].
    rewrite <- Z.mul_assoc.
    rewrite <- (pow2_add (0 - (l - 23)) (l - 23 + 149)) by lia.
    replace (0 - (l - 23) + (l - 23 + 149)) with 149 by lia.
    apply Z.min_l. unfold omega.
    change (2 ^ 277) with (2 ^ 128 * 2 ^ 149).
    apply Z.mul_le_mono_nonneg_r; [apply Z.pow_nonneg; lia|].
    change (2 ^ 24) with 16777216 in Hk.
    change (2 ^ 128) with 340282366920938463463374607431768211456. lia. }
  intros Hn. unfold RNZ.
  replace (-149) with (0 - 149) by lia. rewrite RN_shift by lia.
  destruct (Z.lt_trichotomy n 0) as [A|[A|A]].
  - rewrite RN_neg by lia. rewrite P by lia. lia.
  - subst n. reflexivity.
  - rewrite RN_pos by lia. apply P. lia.
Qed.

Lemma of_int_exact n :
  - 2 ^ 24 < n < 2 ^ 24 ->
  valid (of_int n) = true /\ is_finite (of_int n) = true /\
  ord (of_int n) = n * 2 ^ 149.
Proof.
  intros Hn. destruct (of_int_spec n) as (Hv & Hnan & Ho).
  rewrite RNZ_int in Ho by exact Hn.
  split; [exact Hv|split; [|exact Ho]].
  destruct (of_int n) as [s|s| |s m e] eqn:E; try reflexivity; try discriminate.
  exfalso. cbn [ord] in Ho.
  assert (Hb : - 2 ^ 24 * 2 ^ 149 < n * 2 ^ 149 < 2 ^ 24 * 2 ^ 149).
  { assert (0 < 2 ^ 149) by reflexivity. nia. }
  unfold omega in Ho. 
  change (2 ^ 24 * 2 ^ 149) with (2 ^ 173) in Hb.
  change (- 2 ^ 24 * 2 ^ 149) with (- 2 ^ 173) in Hb.
  assert (2 ^ 173 < 2 ^ 277) by reflexivity.
  destruct s; cbn [cond_Zopp] in Ho; lia.
Qed.

(** ** The comparisons of C++ on members of the format *)

Lemma compare_some x y :
  is_nan x = false -> is_nan y = false -> exists c, SFcompare x y = Some c.
Proof.
  destruct x as [sx|sx| |sx mx ex]; try discriminate;
    destruct y as [sy|sy| |sy my ey]; try discriminate; intros _ _;
    cbn [SFcompare]; eexists; reflexivity.
Qed.

Lemma compare_not_nan x y c :
  SFcompare x y = Some c -> is_nan x = false /\ is_nan y = false.
Proof.
  destruct x as [sx|sx| |sx mx ex]; destruct y as [sy|sy| |sy my ey];
    cbn [SFcompare]; try discriminate; intros _; split; reflexivity.
Qed.

Lemma ltb_not_nan x y : ltb x y = true -> is_nan x = false /\ is_nan y = false.
Proof.
  unfold ltb, SFltb. destruct (SFcompare x y) as [c|] eqn:E; [|discriminate].
  intros _. eapply compare_not_nan; exact E.
Qed.

Lemma leb_not_nan x y : leb x y = true -> is_nan x = false /\ is_nan y = false.
Proof.
  unfold leb, SFleb. destruct (SFcompare x y) as [c|] eqn:E; [|discriminate].
  intros _. eapply compare_not_nan; exact E.
Qed.

Lemma gtb_not_nan x y : gtb x y = true -> is_nan x = false /\ is_nan y = false.
Proof.
  unfold gtb. destruct (SFcompare x y) as [c|] eqn:E; [|discriminate].
  intros _. eapply compare_not_nan; exact E.
Qed.

Lemma geb_not_nan x y : geb x y = true -> is_nan x = false /\ is_nan y = false.
Proof.
  unfold geb. destruct (SFcompare x y) as [c|] eqn:E; [|discriminate].
  intros _. eapply compare_not_nan; exact E.
Qed.

Lemma ltb_ord x y :
  valid x = true -> valid y = true -> is_nan x = false -> is_nan y = false ->
  ltb x y = (ord x <? ord y).
Proof.
  intros Hx Hy Nx Ny. unfold ltb, SFltb. rewrite compare_spec by assumption.
  unfold Z.ltb. destruct (ord x ?= ord y); reflexivity.
Qed.

Lemma leb_ord x y :
  valid x = true -> valid y = true -> is_nan x = false -> is_nan y = false ->
  leb x y = (ord x <=? ord y).
Proof.
  intros Hx Hy Nx Ny. unfold leb, SFleb. rewrite compare_spec by assumption.
  unfold Z.leb. destruct (ord x ?= ord y); reflexivity.
Qed.

Lemma gtb_ord x y :
  valid x = true -> valid y = true -> is_nan x = false -> is_nan y = false ->
  gtb x y = (ord y <? ord x).
Proof.
  intros Hx Hy Nx Ny. unfold gtb. rewrite compare_spec by assumption.
  rewrite Z.ltb_antisym. unfold Z.leb. destruct (ord x ?= ord y); reflexivity.
Qed.

Lemma geb_ord x y :
  valid x = true -> valid y = true -> is_nan x = false -> is_nan y = false ->
  geb x y = (ord y <=? ord x).
Proof.
  intros Hx Hy Nx Ny. unfold geb. rewrite compare_spec by assumption.
  rewrite Z.leb_antisym. unfold Z.ltb. destruct (ord x ?= ord y); reflexivity.
Qed.

Lemma ltb_true_ord x y :
  valid x = true -> valid y = true -> ltb x y = true -> ord x < ord y.
Proof.
  intros Hx Hy H. destruct (ltb_not_nan x y H) as [Nx Ny].
  rewrite ltb_ord in H by assumption. now apply Z.ltb_lt.
Qed.

Lemma leb_true_ord x y :
  valid x = true -> valid y = true -> leb x y = true -> ord x <= ord y.
Proof.
  intros Hx Hy H. destruct (leb_not_nan x y H) as [Nx Ny].
  rewrite leb_ord in H by assumption. now apply Z.leb_le.
Qed.

Lemma gtb_true_ord x y :
  valid x = true -> valid y = true -> gtb x y = true -> ord y < ord x.
Proof.
  intros Hx Hy H. destruct (gtb_not_nan x y H) as [Nx Ny].
  rewrite gtb_ord in H by assumption. now apply Z.ltb_lt.
Qed.

Lemma ord_leb x y :
  valid x = true -> valid y = true -> is_nan x = false -> is_nan y = false ->
  ord x <= ord y -> leb x y = true.
Proof.
  intros Hx Hy Nx Ny H. rewrite leb_ord by assumption. now apply Z.leb_le.
Qed.

(** [!(x > y)] is [x <= y] when neither is a NaN. *)
Lemma not_gtb_leb x y :
  is_nan x = false -> is_nan y = false -> gtb x y = false -> leb x y = true.
Proof.
  intros Nx Ny. destruct (compare_some x y Nx Ny) as [c E].
  unfold gtb, leb, SFleb. rewrite E. destruct c; congruence.
Qed.

Lemma ltb_leb x y : ltb x y = true -> leb x y = true.
Proof.
  unfold ltb, leb, SFltb, SFleb.
  destruct (SFcompare x y) as [[| |]|]; congruence.
Qed.

Lemma finite_of_ord x :
  valid x = true -> is_nan x = false -> - omega < ord x < omega ->
  is_finite x = true.
Proof.
  destruct x as [s|s| |s m e]; try reflexivity; try discriminate.
  intros _ _. cbn [ord]. destruct s; cbn [cond_Zopp]; lia.
Qed.

Lemma finite_not_nan x : is_finite x = true -> is_nan x = false.
Proof. destruct x; simpl; congruence. Qed.

Lemma nonneg_inf x :
  is_nan x = false -> is_finite x = false -> 0 <= ord x ->
  x = S754_infinity false.
Proof.
  pose proof omega_pos.
  destruct x as [s|s| |s m e]; try discriminate. intros _ _.
  destruct s; cbn [ord cond_Zopp]; [lia|reflexivity].
Qed.

(** ** Monotonicity of the rounded operations *)

Lemma add_nonneg x y :
  valid x = true -> valid y = true -> is_finite x = true ->
  is_nan y = false -> 0 <= ord y ->
  valid (add x y) = true /\ is_nan (add x y) = false /\
  ord x <= ord (add x y).
Proof.
  intros Hx Hy Fx Ny Py.
  destruct (is_finite y) eqn:Fy.
  - destruct (add_spec x y Hx Hy Fx Fy) as (Hv & Hn & Ho).
    split; [exact Hv|split; [exact Hn|]].
    rewrite Ho. rewrite <- (RNZ_ord x Hx) at 1. apply RN_mono. lia.
  - rewrite (nonneg_inf y Ny Fy Py).
    destruct x as [s|s| |s m e]; try discriminate;
      (split; [reflexivity|split; [reflexivity|]]);
      apply (ord_bounds _ Hx).
Qed.

Lemma add_mono x1 y1 x2 y2 :
  valid x1 = true -> valid y1 = true -> valid x2 = true -> valid y2 = true ->
  is_finite x1 = true -> is_finite y1 = true ->
  is_finite x2 = true -> is_finite y2 = true ->
  ord x1 <= ord x2 -> ord y1 <= ord y2 ->
  ord (add x1 y1) <= ord (add x2 y2).
Proof.
  intros. 
  destruct (add_spec x1 y1) as (_ & _ & ->); try assumption.
  destruct (add_spec x2 y2) as (_ & _ & ->); try assumption.
  apply RN_mono. lia.
Qed.

Lemma sub_mono x1 y1 x2 y2 :
  valid x1 = true -> valid y1 = true -> valid x2 = true -> valid y2 = true ->
  is_finite x1 = true -> is_finite y1 = true ->
  is_finite x2 = true -> is_finite y2 = true ->
  ord x1 <= ord x2 -> ord y2 <= ord y1 ->
  ord (sub x1 y1) <= ord (sub x2 y2).
Proof.
  intros.
  destruct (sub_spec x1 y1) as (_ & _ & ->); try assumption.
  destruct (sub_spec x2 y2) as (_ & _ & ->); try assumption.
  apply RN_mono. lia.
Qed.

Lemma mul_mono x1 y1 x2 y2 :
  valid x1 = true -> valid y1 = true -> valid x2 = true -> valid y2 = true ->
  is_finite x1 = true -> is_finite y1 = true ->
  is_finite x2 = true -> is_finite y2 = true ->
  0 <= ord x1 <= ord x2 -> 0 <= ord y1 <= ord y2 ->
  ord (mul x1 y1) <= ord (mul x2 y2).
Proof.
  intros.
  destruct (mul_spec x1 y1) as (_ & _ & ->); try assumption.
  destruct (mul_spec x2 y2) as (_ & _ & ->); try assumption.
  apply RN_mono. nia.
Qed.

Lemma mul_nonneg x y :
  valid x = true -> valid y = true ->
  is_finite x = true -> is_finite y = true ->
  0 <= ord x -> 0 <= ord y ->
  valid (mul x y) = true /\ is_nan (mul x y) = false /\ 0 <= ord (mul x y).
Proof.
  intros Hx Hy Fx Fy Px Py.
  destruct (mul_spec x y Hx Hy Fx Fy) as (Hv & Hn & Ho).
  split; [exact Hv|split; [exact Hn|]].
  rewrite Ho. apply RN_sign. nia.
Qed.

(** A positive finite number is written with a mantissa. *)
Lemma pos_finite x :
  is_finite x = true -> 0 < ord x -> exists m e, x = S754_finite false m e.
Proof.
  destruct x as [s|s| |s m e]; try discriminate; intros _; cbn [ord].
  pose proof (Pos2Z.is_pos m). intros H1.
  destruct s; cbn [cond_Zopp] in H1.
  - exfalso. assert (0 <= 2 ^ (e + 149)) by (apply Z.pow_nonneg; lia). nia.
  - now exists m, e.
Qed.

(** The rounding does not cross a member of the format. *)
Lemma RNZ_le_ord k c : valid c = true -> k <= ord c -> RNZ k <= ord c.
Proof. intros Hc H. rewrite <- (RNZ_ord c Hc). now apply RN_mono. Qed.


(** ** The operations stay in the format *)

Lemma add_valid x y : valid x = true -> valid y = true -> valid (add x y) = true.
Proof.
  intros Hx Hy.
  destruct (is_finite x) eqn:Fx; destruct (is_finite y) eqn:Fy;
    [now destruct (add_spec x y Hx Hy Fx Fy)|..];
    destruct x as [sx|sx| |sx mx ex]; try discriminate;
    destruct y as [sy|sy| |sy my ey]; try discriminate;
    try reflexivity; try assumption;
    destruct sx, sy; reflexivity.
Qed.

Lemma sub_valid x y : valid x = true -> valid y = true -> valid (sub x y) = true.
Proof.
  intros Hx Hy.
  destruct (is_finite x) eqn:Fx; destruct (is_finite y) eqn:Fy;
    [now destruct (sub_spec x y Hx Hy Fx Fy)|..];
    destruct x as [sx|sx| |sx mx ex]; try discriminate;
    destruct y as [sy|sy| |sy my ey]; try discriminate;
    try reflexivity; try assumption;
    destruct sx, sy; reflexivity.
Qed.

Lemma mul_valid x y : valid x = true -> valid y = true -> valid (mul x y) = true.
Proof.
  intros Hx Hy.
  destruct (is_finite x) eqn:Fx; destruct (is_finite y) eqn:Fy;
    [now destruct (mul_spec x y Hx Hy Fx Fy)|..];
    destruct x as [sx|sx| |sx mx ex]; try discriminate;
    destruct y as [sy|sy| |sy my ey]; try discriminate;
    reflexivity.
Qed.

Lemma leb_neg_inf a : is_nan a = false -> leb (S754_infinity true) a = true.
Proof. destruct a as [s|[|]| |s m e]; try discriminate; reflexivity. Qed.

Lemma leb_pos_inf a : is_nan a = false -> leb a (S754_infinity false) = true.
Proof. destruct a as [s|[|]| |[|] m e]; try discriminate; reflexivity. Qed.

(** ** Division: the quotient is a member of the format *)

Lemma div_core_pre m1 e1 m2 e2 :
  0 < m1 -> 0 < m2 ->
  let '(q, e', l) := SFdiv_core_binary prec emax m1 e1 m2 e2 in
  0 <= q /\ e' <= fexp32 (Zdigits2 q + e').
Proof.
  intros H1 H2. unfold SFdiv_core_binary.
  rewrite fexp_eq, !Zdigits2_log2 by lia.
  pose proof (log2_bounds m1 H1) as [Lo1 Hi1].
  pose proof (log2_bounds m2 H2) as [Lo2 Hi2].
  pose proof (Z.log2_nonneg m1) as N1. pose proof (Z.log2_nonneg m2) as N2.
  set (l1 := Z.log2 m1) in *. set (l2 := Z.log2 m2) in *.
  set (D := l1 + 1 + e1 - (l2 + 1 + e2)).
  set (e' := Z.min (fexp32 D) (e1 - e2)).
  set (s := e1 - e2 - e').
  assert (Hs : 0 <= s) by (unfold s, e'; lia).
  set (m' := match s with Z.pos _ => Z.shiftl m1 s | 0 => m1 | Z.neg _ => 0 end).
  assert (Hm' : m' = m1 * 2 ^ s).
  { unfold m'. destruct s as [|p|p] eqn:Es; try lia.
    apply Z.shiftl_mul_pow2. lia. }
  destruct (Z.div_eucl m' m2) as [q r] eqn:Eq.
  assert (Hq : q = m' / m2) by (unfold Z.div; now rewrite Eq).
  assert (Hpow : 2 ^ (l1 + s) <= m').
  { rewrite Hm', (pow2_add l1 s) by lia.
    apply Z.mul_le_mono_nonneg_r; [apply Z.pow_nonneg|]; lia. }
  assert (Hmp : 0 < m')
    by (apply Z.lt_le_trans with (2 := Hpow); apply pow2_pos; lia).
  assert (Hq0 : 0 <= q) by (rewrite Hq; apply Z.div_pos; lia).
  split; [exact Hq0|].
  assert (He' : e' <= fexp32 D) by (unfold e'; lia).
  assert (HD : D = l1 - l2 + s + e') by (unfold D, s; lia).
  clearbody l1 l2 D e' s m'.
  destruct (Z.eq_dec q 0) as [Hz|Hnz].
  - (* the quotient is below the smallest number *)
    subst q. cbn [Zdigits2]. 
    assert (Hlt : m' < m2).
    { destruct (Z.lt_ge_cases m' m2) as [L|G]; [exact L|].
      exfalso. assert (1 <= m' / m2) by (apply Z.div_le_lower_bound; lia). lia. }
    assert (l1 + s < l2 + 1).
    { apply (Z.pow_lt_mono_r_iff 2); try lia. }
    unfold fexp32 in *. lia.
  - assert (Hqp : 0 < q) by lia.
    rewrite Zdigits2_log2 by exact Hqp.
    apply Z.le_trans with (1 := He'). apply fexp32_mono.
    assert (l1 + s - l2 - 1 <= Z.log2 q); [|lia].
    destruct (Z.le_gt_cases (l1 + s - l2 - 1) 0) as [A|A].
    + pose proof (Z.log2_nonneg q). lia.
    + remember (l1 + s - l2 - 1) as k eqn:Ek.
      apply log2_le_pow2'; [exact Hqp|].
      rewrite Hq. apply Z.div_le_lower_bound; [lia|].
      apply Z.le_trans with (2 := Hpow).
      replace (l1 + s) with (k + (l2 + 1)) by lia.
      rewrite (pow2_add k (l2 + 1)) by lia. rewrite (Z.mul_comm m2).
      apply Z.mul_le_mono_nonneg_l; [apply Z.pow_nonneg|]; lia.
Qed.

Lemma div_valid x y :
  valid x = true -> valid y = true -> valid (div x y) = true.
Proof.
  intros Hx Hy.
  destruct x as [sx|sx| |sx mx ex]; destruct y as [sy|sy| |sy my ey];
    try reflexivity.
  unfold div. cbn [SFdiv].
  pose proof (div_core_pre (Zpos mx) ex (Zpos my) ey ltac:(lia) ltac:(lia)) as H.
  destruct (SFdiv_core_binary prec emax (Zpos mx) ex (Zpos my) ey)
    as [[mz ez] lz].
  destruct H as [H0 Hpre].
  apply (bra_valid (xorb sx sy) mz ez lz H0 Hpre).
Qed.

(** ** Division: the quotient is correctly rounded *)

Lemma stands_for_round a N mrs :
  0 < N -> stands_for a N mrs ->
  round_nearest_even (shr_m mrs) (loc_of_shr_record mrs) = rne_div a N.
Proof.
  intros HN [Hm Hl]. unfold rne_div. rewrite <- Hm.
  destruct mrs as [m r s]. cbn [shr_m shr_r shr_s] in *.
  pose proof (Z.mod_pos_bound a N HN) as Hb.
  destruct r, s; cbn [loc_of_shr_record round_nearest_even].
  - destruct (Z.ltb_spec (2 * (a mod N)) N); [lia|].
    destruct (Z.ltb_spec N (2 * (a mod N))); [reflexivity|lia].
  - destruct (Z.ltb_spec (2 * (a mod N)) N); [lia|].
    destruct (Z.ltb_spec N (2 * (a mod N))); [lia|reflexivity].
  - destruct (Z.ltb_spec (2 * (a mod N)) N); [reflexivity|lia].
  - destruct (Z.ltb_spec (2 * (a mod N)) N); [reflexivity|lia].
Qed.

Lemma stands_for_shr_1 a N mrs :
  0 <= a -> 0 < N -> stands_for a N mrs -> stands_for a (N * 2) (shr_1 mrs).
Proof.
  intros Ha HN [Hm Hl].
  assert (Hq : 0 <= a / N) by (apply Z.div_pos; lia).
  pose proof (Z.mod_pos_bound a N HN) as Hb.
  pose proof (Z.mod_pos_bound (a / N) 2 ltac:(lia)) as Hb2.
  assert (Hrem : a mod (N * 2) = a mod N + N * ((a / N) mod 2))
    by (apply Z.rem_mul_r; lia).
  split.
  - rewrite shr_1_m by (rewrite Hm; exact Hq).
    rewrite Hm, Z.div_div by lia. reflexivity.
  - rewrite shr_1_r by (rewrite Hm; exact Hq). rewrite shr_1_s, Hm.
    rewrite Hrem, Zmod_odd.
    destruct mrs as [m r s]. cbn [shr_m shr_r shr_s] in *.
    destruct (Z.odd (a / N)); destruct r, s; cbn [orb]; lia.
Qed.

Lemma stands_for_iter n a N mrs :
  0 <= a -> 0 < N -> stands_for a N mrs ->
  stands_for a (N * 2 ^ Z.of_nat n) (Nat.iter n shr_1 mrs).
Proof.
  intros Ha HN H. induction n as [|n IH].
  - simpl. now rewrite Z.mul_1_r.
  - rewrite Nat2Z.inj_succ, Z.pow_succ_r by lia. cbn [Nat.iter nat_rect].
    replace (N * (2 * 2 ^ Z.of_nat n)) with (N * 2 ^ Z.of_nat n * 2) by lia.
    apply stands_for_shr_1; [exact Ha| |exact IH].
    apply Z.mul_pos_pos; [exact HN|apply pow2_pos; lia].
Qed.

(** The location that [SFdiv_core_binary] computes. *)
Lemma new_location_stands a b :
  0 <= a -> 0 < b ->
  stands_for a b (shr_record_of_loc (a / b) (new_location b (a mod b))).
Proof.
  intros Ha Hb. pose proof (Z.mod_pos_bound a b Hb) as Hr.
  split; [apply shr_record_of_loc_m|].
  unfold new_location, new_location_even, new_location_odd.
  destruct (Z.even b) eqn:Ev.
  - destruct (Z.eqb_spec (a mod b) 0) as [E|E]; [exact E|].
    destruct (Z.compare_spec (2 * (a mod b)) b);
      cbn [shr_r shr_s shr_record_of_loc]; lia.
  - destruct (Z.eqb_spec (a mod b) 0) as [E|E]; [exact E|].
    assert (Hodd : Z.odd b = true) by (rewrite <- Z.negb_even, Ev; reflexivity).
    apply Z.odd_spec in Hodd. destruct Hodd as [k Hk].
    destruct (Z.compare_spec (2 * (a mod b) + 1) b);
      cbn [shr_r shr_s shr_record_of_loc]; lia.
Qed.

Lemma Zdigits2_nonneg q : 0 <= q -> 0 <= Zdigits2 q.
Proof.
  intros H. destruct (Z.eq_dec q 0) as [->|N]; [simpl; lia|].
  rewrite Zdigits2_log2 by lia. pose proof (Z.log2_nonneg q). lia.
Qed.

Lemma Zdigits2_upper q : 0 <= q -> q < 2 ^ Zdigits2 q.
Proof.
  intros H. destruct (Z.eq_dec q 0) as [->|N]; [reflexivity|].
  rewrite Zdigits2_log2 by lia. apply log2_bounds. lia.
Qed.

Lemma Zdigits2_lower q : 0 < q -> 2 ^ (Zdigits2 q - 1) <= q.
Proof.
  intros H. rewrite Zdigits2_log2 by lia.
  replace (Z.log2 q + 1 - 1) with (Z.log2 q) by lia. apply log2_bounds. lia.
Qed.

Lemma Zdigits2_mono q1 q2 : 0 <= q1 <= q2 -> Zdigits2 q1 <= Zdigits2 q2.
Proof.
  intros H. destruct (Z.eq_dec q1 0) as [->|N].
  - apply Zdigits2_nonneg. lia.
  - rewrite !Zdigits2_log2 by lia.
    pose proof (Z.log2_le_mono q1 q2 ltac:(lia)). lia.
Qed.

(** [binary_round_aux] on the quotient and the location of a division. *)
Lemma bra_quo s a b e :
  0 <= a -> 0 < b -> e <= fexp32 (Zdigits2 (a / b) + e) ->
  ord (binary_round_aux prec emax s (a / b) e (new_location b (a mod b)))
  = cond_Zopp s (RNquo a b e).
Proof.
  intros Ha Hb He. rewrite bra_finish.
  assert (Hq : 0 <= a / b) by (apply Z.div_pos; lia).
  set (lx := new_location b (a mod b)).
  destruct (first_shift (a / b) e lx Hq He) as [HE Hm].
  destruct (first_shift_range (a / b) e Hq He) as (Hr & HE' & Hn).
  rewrite HE.
  set (E := fexp32 (Zdigits2 (a / b) + e)) in *.
  assert (Hst : stands_for a (b * 2 ^ (E - e))
                  (fst (shr_fexp prec emax (a / b) e lx))).
  { unfold shr_fexp. rewrite fexp_eq. fold E.
    rewrite shr_nat by lia. cbn [fst].
    rewrite <- (Z2Nat.id (E - e)) at 1 by lia.
    apply stands_for_iter; [exact Ha|exact Hb|].
    apply new_location_stands; assumption. }
  assert (HN : 0 < b * 2 ^ (E - e))
    by (apply Z.mul_pos_pos; [exact Hb|apply pow2_pos; lia]).
  pose proof (round_nearest_even_bounds
                (shr_m (fst (shr_fexp prec emax (a / b) e lx)))
                (loc_of_shr_record (fst (shr_fexp prec emax (a / b) e lx))))
    as Hrb.
  rewrite (stands_for_round a _ _ HN Hst) in *.
  rewrite Hm in Hrb.
  destruct (finish_spec s (rne_div a (b * 2 ^ (E - e))) E) as (_ & _ & Ho);
    try lia.
  rewrite Ho. reflexivity.
Qed.

Lemma RNquo_nonneg a b e :
  0 <= a -> 0 < b -> e <= fexp32 (Zdigits2 (a / b) + e) -> 0 <= RNquo a b e.
Proof.
  intros Ha Hb He. unfold RNquo. set (E := fexp32 _) in *.
  pose proof omega_pos.
  apply Z.min_glb; [|lia].
  assert (HN : 0 < b * 2 ^ (E - e))
    by (apply Z.mul_pos_pos; [exact Hb|apply pow2_pos; lia]).
  pose proof (rne_div_bounds a _ HN).
  assert (0 <= a / (b * 2 ^ (E - e))) by (apply Z.div_pos; lia).
  apply Z.mul_nonneg_nonneg; [lia|apply Z.pow_nonneg; lia].
Qed.

(** The same quotient written on a finer scale. *)
Lemma RNquo_shift a b e k :
  0 <= a -> 0 < b -> 0 <= k -> e <= fexp32 (Zdigits2 (a / b) + e) ->
  fexp32 (Zdigits2 (a * 2 ^ k / b) + (e - k)) = fexp32 (Zdigits2 (a / b) + e) /\
  RNquo (a * 2 ^ k) b (e - k) = RNquo a b e.
Proof.
  intros Ha Hb Hk He.
  assert (P : 0 < 2 ^ k) by (apply pow2_pos; lia).
  assert (HE : fexp32 (Zdigits2 (a * 2 ^ k / b) + (e - k))
               = fexp32 (Zdigits2 (a / b) + e)).
  { destruct (Z.eq_dec (a / b) 0) as [Hz|Hnz].
    - rewrite Hz in *. cbn [Zdigits2] in *.
      assert (Hlt : a < b).
      { destruct (Z.lt_ge_cases a b) as [L|G]; [exact L|].
        assert (1 <= a / b) by (apply Z.div_le_lower_bound; lia). lia. }
      assert (Hq' : 0 <= a * 2 ^ k / b < 2 ^ k).
      { split; [apply Z.div_pos; nia|].
        apply Z.div_lt_upper_bound; [lia|]. nia. }
      assert (Hd : Zdigits2 (a * 2 ^ k / b) <= k).
      { destruct (Z.eq_dec (a * 2 ^ k / b) 0) as [->|N]; [simpl; lia|].
        rewrite Zdigits2_log2 by lia.
        assert (Z.log2 (a * 2 ^ k / b) < k) by (apply log2_lt_pow2'; lia).
        lia. }
      pose proof (Zdigits2_nonneg (a * 2 ^ k / b) ltac:(lia)).
      unfold fexp32 in *. lia.
    - assert (Hq : 0 < a / b).
      { assert (0 <= a / b) by (apply Z.div_pos; lia). lia. }
      pose proof (log2_bounds (a / b) Hq) as [Lo Hi].
      pose proof (Z.log2_nonneg (a / b)) as Hl0.
      set (l := Z.log2 (a / b)) in *.
      assert (Ha1 : 2 ^ l * b <= a).
      { pose proof (Z.mul_div_le a b Hb). nia. }
      assert (Ha2 : a < 2 ^ (l + 1) * b).
      { pose proof (Z.mod_pos_bound a b Hb).
        pose proof (Z.div_mod a b ltac:(lia)). nia. }
      assert (Lo' : 2 ^ (l + k) <= a * 2 ^ k / b).
      { apply Z.div_le_lower_bound; [lia|].
        rewrite (pow2_add l k) by lia. nia. }
      assert (Hi' : a * 2 ^ k / b < 2 ^ (l + k + 1)).
      { apply Z.div_lt_upper_bound; [lia|].
        replace (l + k + 1) with ((l + 1) + k) by lia.
        rewrite (pow2_add (l + 1) k) by lia. nia. }
      assert (Hq' : 0 < a * 2 ^ k / b).
      { apply Z.lt_le_trans with (2 := Lo'). apply pow2_pos. lia. }
      rewrite (Zdigits2_log2 (a / b)) by lia.
      rewrite (Zdigits2_log2 (a * 2 ^ k / b)) by lia.
      assert (Z.log2 (a * 2 ^ k / b) = l + k).
      { apply Z.log2_unique; [lia|].
        replace (Z.succ (l + k)) with (l + k + 1) by lia. split; assumption. }
      f_equal. fold l. lia. }
  split; [exact HE|].
  unfold RNquo. rewrite HE. set (E := fexp32 (Zdigits2 (a / b) + e)) in *.
  f_equal. f_equal.
  replace (E - (e - k)) with ((E - e) + k) by lia.
  rewrite (pow2_add (E - e) k) by lia.
  rewrite Z.mul_assoc.
  apply rne_div_scale; [|exact P].
  apply Z.mul_pos_pos; [exact Hb|apply pow2_pos; lia].
Qed.

(** Numerator and denominator scaled alike. *)
Lemma RNquo_scale a b e c :
  0 < b -> 0 < c -> e <= fexp32 (Zdigits2 (a / b) + e) ->
  RNquo (a * c) (b * c) e = RNquo a b e.
Proof.
  intros Hb Hc He. unfold RNquo.
  rewrite Z.div_mul_cancel_r by lia.
  set (E := fexp32 (Zdigits2 (a / b) + e)) in *.
  f_equal. f_equal.
  replace (b * c * 2 ^ (E - e)) with (b * 2 ^ (E - e) * c) by ring.
  apply rne_div_scale; [|exact Hc].
  apply Z.mul_pos_pos; [exact Hb|apply pow2_pos; lia].
Qed.

Lemma RNquo_mono a1 a2 b e :
  0 <= a1 <= a2 -> 0 < b ->
  e <= fexp32 (Zdigits2 (a1 / b) + e) ->
  RNquo a1 b e <= RNquo a2 b e.
Proof.
  intros Ha Hb He1.
  assert (Hq : 0 <= a1 / b <= a2 / b).
  { split; [apply Z.div_pos; lia|apply Z.div_le_mono; lia]. }
  pose proof (Zdigits2_mono _ _ Hq) as Hd.
  pose proof (Zdigits2_nonneg _ (proj1 Hq)) as Hd0.
  assert (He2 : e <= fexp32 (Zdigits2 (a2 / b) + e)).
  { apply Z.le_trans with (1 := He1). apply fexp32_mono. lia. }
  unfold RNquo.
  set (E1 := fexp32 (Zdigits2 (a1 / b) + e)) in *.
  set (E2 := fexp32 (Zdigits2 (a2 / b) + e)) in *.
  assert (HE : E1 <= E2) by (apply fexp32_mono; lia).
  assert (HE1 : -149 <= E1) by (unfold E1, fexp32; lia).
  assert (HN1 : 0 < b * 2 ^ (E1 - e))
    by (apply Z.mul_pos_pos; [exact Hb|apply pow2_pos; lia]).
  assert (HN2 : 0 < b * 2 ^ (E2 - e))
    by (apply Z.mul_pos_pos; [exact Hb|apply pow2_pos; lia]).
  apply Z.min_le_compat_r.
  destruct (Z.eq_dec E1 E2) as [Eq|Ne].
  - rewrite <- Eq.
    apply Z.mul_le_mono_nonneg_r; [apply Z.pow_nonneg; lia|].
    apply rne_div_mono; [exact HN1|lia].
  - assert (Hlt : E1 < E2) by lia.
    assert (HE2 : E2 = Zdigits2 (a2 / b) + e - 24) by (unfold E2, fexp32 in *; lia).
    assert (HE1' : Zdigits2 (a1 / b) + e - 24 <= E1) by (unfold E1, fexp32; lia).
    assert (Hq2 : 0 < a2 / b).
    { destruct (Z.eq_dec (a2 / b) 0) as [Z0|NZ]; [|lia].
      exfalso. assert (a1 / b = 0) by lia.
      unfold E1, E2 in Hlt. rewrite Z0, H in Hlt. lia. }
    (* the lower value rounds to at most 2^24 units of its exponent *)
    assert (U : rne_div a1 (b * 2 ^ (E1 - e)) <= 2 ^ 24).
    { apply rne_div_le; [exact HN1|].
      pose proof (Zdigits2_upper (a1 / b) (proj1 Hq)) as Hu.
      assert (a1 < (a1 / b + 1) * b).
      { pose proof (Z.mod_pos_bound a1 b Hb).
        pose proof (Z.div_mod a1 b ltac:(lia)). nia. }
      assert (2 ^ Zdigits2 (a1 / b) <= 2 ^ (24 + (E1 - e)))
        by (apply pow2_le; lia).
      rewrite (pow2_add 24 (E1 - e)) in H0 by lia.
      assert (a1 <= 2 ^ Zdigits2 (a1 / b) * b) by nia.
      apply Z.le_trans with (1 := H1).
      replace (2 ^ 24 * (b * 2 ^ (E1 - e))) with (2 ^ 24 * 2 ^ (E1 - e) * b) by ring.
      apply Z.mul_le_mono_nonneg_r; lia. }
    (* the higher one to at least 2^23 units of its own *)
    assert (L : 2 ^ 23 <= rne_div a2 (b * 2 ^ (E2 - e))).
    { apply rne_div_ge; [exact HN2|].
      pose proof (Zdigits2_lower (a2 / b) Hq2) as Hl.
      pose proof (Z.mul_div_le a2 b Hb) as Hm.
      replace (Zdigits2 (a2 / b) - 1) with (23 + (E2 - e)) in Hl by lia.
      rewrite (pow2_add 23 (E2 - e)) in Hl by lia.
      replace (2 ^ 23 * (b * 2 ^ (E2 - e))) with (b * (2 ^ 23 * 2 ^ (E2 - e))) by ring.
      apply Z.le_trans with (2 := Hm).
      apply Z.mul_le_mono_nonneg_l; lia. }
    apply Z.le_trans with (2 ^ 24 * 2 ^ (E1 + 149)).
    { apply Z.mul_le_mono_nonneg_r; [apply Z.pow_nonneg; lia|exact U]. }
    apply Z.le_trans with (2 ^ 23 * 2 ^ (E2 + 149)).
    { assert (2 ^ (E1 + 149 + 1) <= 2 ^ (E2 + 149)) by (apply pow2_le; lia).
      rewrite (pow2_add (E1 + 149) 1) in H by lia.
      change (2 ^ 24) with (2 ^ 23 * 2 ^ 1).
      rewrite <- Z.mul_assoc. apply Z.mul_le_mono_nonneg_l; [lia|]. lia. }
    apply Z.mul_le_mono_nonneg_r; [apply Z.pow_nonneg; lia|exact L].
Qed.

(** A quotient that is an integer. *)
Lemma RNquo_exact q b e :
  0 < q -> 0 < b -> e <= fexp32 (Zdigits2 q + e) ->
  RNquo (q * b) b e = RNpos q e.
Proof.
  intros Hq Hb He. unfold RNquo, RNpos.
  rewrite Z.div_mul by lia. rewrite <- Zdigits2_log2 by lia.
  set (E := fexp32 (Zdigits2 q + e)) in *.
  f_equal. f_equal.
  rewrite (Z.mul_comm b). rewrite rne_div_scale by (try apply pow2_pos; lia).
  destruct (Z.leb_spec E e) as [H|H]; [|reflexivity].
  replace (E - e) with 0 by lia. replace (e - E) with 0 by lia.
  rewrite Z.pow_0_r, rne_div_1. lia.
Qed.

(** ** Division: the rounded quotient on [ord] *)

Lemma div_core_spec m1 e1 m2 e2 :
  0 < m1 -> 0 < m2 ->
  exists s, 0 <= s /\
    SFdiv_core_binary prec emax m1 e1 m2 e2
    = (m1 * 2 ^ s / m2, e1 - e2 - s, new_location m2 ((m1 * 2 ^ s) mod m2)) /\
    e1 - e2 - s <= fexp32 (Zdigits2 (m1 * 2 ^ s / m2) + (e1 - e2 - s)).
Proof.
  intros H1 H2.
  pose proof (div_core_pre m1 e1 m2 e2 H1 H2) as Hpre.
  unfold SFdiv_core_binary in *.
  set (e' := Z.min (fexp prec emax (Zdigits2 m1 + e1 - (Zdigits2 m2 + e2)))
                   (e1 - e2)) in *.
  set (s := e1 - e2 - e') in *.
  assert (Hs : 0 <= s) by (unfold s, e'; lia).
  set (m' := match s with Z.pos _ => Z.shiftl m1 s | 0 => m1 | Z.neg _ => 0 end) in *.
  assert (Hm' : m' = m1 * 2 ^ s).
  { unfold m'. destruct s as [|p|p] eqn:Es; try lia.
    apply Z.shiftl_mul_pow2. lia. }
  exists s. split; [exact Hs|].
  assert (Hdm : Z.div_eucl m' m2 = (m' / m2, m' mod m2)).
  { unfold Z.div, Z.modulo. destruct (Z.div_eucl m' m2). reflexivity. }
  rewrite Hdm in *. rewrite <- Hm'.
  replace (e1 - e2 - s) with e' by (unfold s; lia).
  split; [reflexivity|apply Hpre].
Qed.

Lemma RQ_zero Y : 0 < Y -> RQ 0 Y = 0.
Proof.
  intros HY. unfold RQ, RNquo. rewrite Z.mul_0_l, Z.div_0_l by lia.
  cbn [Zdigits2]. change (fexp32 (0 + -149)) with (-149).
  change (-149 - -149) with 0. rewrite Z.pow_0_r, Z.mul_1_r.
  rewrite ?Z.mul_1_r.
  rewrite (rne_div_unique 0 Y 0 0) by lia.
  destruct (Z.ltb_spec (2 * 0) Y); [reflexivity|lia].
Qed.

Lemma RQ_nonneg X Y : 0 <= X -> 0 < Y -> 0 <= RQ X Y.
Proof.
  intros HX HY. unfold RQ. apply RNquo_nonneg; try lia. unfold fexp32. lia.
Qed.

Lemma RQ_mono X1 X2 Y : 0 <= X1 <= X2 -> 0 < Y -> RQ X1 Y <= RQ X2 Y.
Proof.
  intros HX HY. unfold RQ. apply RNquo_mono; try lia. unfold fexp32. lia.
Qed.

Lemma RQ_self Y : 0 < Y -> RQ Y Y = ord one.
Proof.
  intros HY. unfold RQ. rewrite (Z.mul_comm Y).
  rewrite RNquo_exact; try lia; [reflexivity|]. unfold fexp32. lia.
Qed.


Lemma RQ_lower k X Y :
  0 < Y -> 0 < k -> k * Y <= X * 2 ^ 149 -> RNZ k <= RQ X Y.
Proof.
  intros HY Hk H. unfold RQ, RNZ. rewrite RN_pos by lia.
  rewrite <- (RNquo_exact k Y (-149)); try lia; [|unfold fexp32; lia].
  apply RNquo_mono; try nia. unfold fexp32. lia.
Qed.

Lemma SRQ_mono X1 X2 Y : X1 <= X2 -> 0 < Y -> SRQ X1 Y <= SRQ X2 Y.
Proof.
  intros HX HY. unfold SRQ.
  destruct (Z.ltb_spec X1 0), (Z.ltb_spec X2 0); try lia.
  - apply -> Z.opp_le_mono. apply RQ_mono; lia.
  - pose proof (RQ_nonneg (- X1) Y ltac:(lia) HY).
    pose proof (RQ_nonneg X2 Y ltac:(lia) HY). lia.
  - apply RQ_mono; lia.
Qed.

(** The quotient of two finite numbers, the divisor positive. *)
Lemma div_finite_spec sx mx ex my ey :
  valid (S754_finite sx mx ex) = true ->
  valid (S754_finite false my ey) = true ->
  ord (div (S754_finite sx mx ex) (S754_finite false my ey))
  = cond_Zopp sx (RQ (Zpos mx * 2 ^ (ex + 149)) (Zpos my * 2 ^ (ey + 149))).
Proof.
  intros Hx Hy.
  destruct (valid_finite_range _ _ _ Hx) as (Hex & _).
  destruct (valid_finite_range _ _ _ Hy) as (Hey & _).
  unfold div. cbn [SFdiv].
  destruct (div_core_spec (Zpos mx) ex (Zpos my) ey ltac:(lia) ltac:(lia))
    as (s & Hs & -> & Hpre).
  rewrite xorb_false_r.
  assert (Pa : 0 < Zpos mx * 2 ^ s)
    by (apply Z.mul_pos_pos; [lia|apply pow2_pos; lia]).
  rewrite bra_quo by (try lia; exact Hpre).
  f_equal. unfold RQ.
  set (a := Zpos mx * 2 ^ s) in *. set (b := Zpos my) in *.
  set (e' := ex - ey - s) in *.
  set (c := 2 ^ (ey + 149)).
  assert (Pc : 0 < c) by (apply pow2_pos; lia).
  assert (Pb : 0 < b) by (unfold b; lia).
  (* the same denominator *)
  rewrite <- (RNquo_scale a b e' c Pb Pc Hpre).
  assert (Hpre' : e' <= fexp32 (Zdigits2 (a * c / (b * c)) + e'))
    by (rewrite Z.div_mul_cancel_r by lia; exact Hpre).
  (* the same exponent *)
  set (e0 := Z.min e' (-149)).
  assert (He0 : e0 <= e' /\ e0 <= -149) by (unfold e0; lia).
  assert (Pbc : 0 < b * c) by (apply Z.mul_pos_pos; assumption).
  assert (Hl : RNquo (a * c * 2 ^ (e' - e0)) (b * c) e0
               = RNquo (a * c) (b * c) e').
  { replace e0 with (e' - (e' - e0)) at 2 by lia.
    apply (proj2 (RNquo_shift (a * c) (b * c) e' (e' - e0)
                    ltac:(nia) Pbc ltac:(lia) Hpre')). }
  assert (Hr : RNquo (Zpos mx * 2 ^ (ex + 149) * 2 ^ 149 * 2 ^ (-149 - e0))
                 (b * c) e0
               = RNquo (Zpos mx * 2 ^ (ex + 149) * 2 ^ 149) (b * c) (-149)).
  { replace e0 with (-149 - (-149 - e0)) at 2 by lia.
    assert (P0 : 0 <= Zpos mx * 2 ^ (ex + 149) * 2 ^ 149).
    { apply Z.mul_nonneg_nonneg; [|lia].
      apply Z.mul_nonneg_nonneg; [lia|apply Z.pow_nonneg; lia]. }
    apply (proj2 (RNquo_shift _ (b * c) (-149) (-149 - e0)
                    P0 Pbc ltac:(lia) ltac:(unfold fexp32; lia))). }
  rewrite <- Hl, <- Hr. f_equal.
  unfold a, c.
  rewrite <- !Z.mul_assoc.
  rewrite <- (pow2_add (ey + 149) (e' - e0)) by lia.
  rewrite <- (pow2_add s (ey + 149 + (e' - e0))) by lia.
  rewrite <- (pow2_add 149 (-149 - e0)) by lia.
  rewrite <- (pow2_add (ex + 149) (149 + (-149 - e0))) by lia.
  f_equal. f_equal. unfold e'. lia.
Qed.

Lemma div_spec x y :
  valid x = true -> valid y = true ->
  is_finite x = true -> is_finite y = true -> 0 < ord y ->
  valid (div x y) = true /\ is_nan (div x y) = false /\
  ord (div x y) = SRQ (ord x) (ord y).
Proof.
  intros Hx Hy Fx Fy Py.
  split; [now apply div_valid|].
  destruct (pos_finite y Fy Py) as (my & ey & ->).
  pose proof (ord_finite_pos false my ey Hy) as [PY _].
  destruct x as [sx|sx| |sx mx ex]; try discriminate.
  - split; [reflexivity|].
    cbn [ord]. unfold SRQ. cbn [Z.ltb Z.compare cond_Zopp].
    rewrite RQ_zero by exact PY. reflexivity.
  - pose proof (ord_finite_pos sx mx ex Hx) as [PX _].
    split.
    + unfold div. cbn [SFdiv].
      destruct (div_core_spec (Zpos mx) ex (Zpos my) ey ltac:(lia) ltac:(lia))
        as (s & Hs & -> & Hpre).
      eapply signed_not_nan.
      apply (bra_valid (xorb sx false) _ _ _).
      * apply Z.div_pos; [|lia].
        apply Z.mul_nonneg_nonneg; [lia|apply Z.pow_nonneg; lia].
      * exact Hpre.
    + rewrite div_finite_spec by assumption.
      cbn [ord cond_Zopp]. unfold SRQ.
      destruct sx; cbn [cond_Zopp].
      * destruct (Z.ltb_spec (- (Zpos mx * 2 ^ (ex + 149))) 0); [|lia].
        rewrite Z.opp_involutive. reflexivity.
      * destruct (Z.ltb_spec (Zpos mx * 2 ^ (ex + 149)) 0); [lia|].
        reflexivity.
Qed.

(** ** Integers of the range of [int], as floats *)

Lemma of_int_nonneg n :
  0 <= n < 2 ^ 31 ->
  valid (of_int n) = true /\ is_finite (of_int n) = true /\
  0 <= ord (of_int n) /\ (0 < n -> 0 < ord (of_int n)).
Proof.
  intros Hn. destruct (of_int_spec n) as (Hv & Hnan & Ho).
  assert (P : 0 < 2 ^ 149) by reflexivity.
  assert (Hup : ord (of_int n) <= 2 ^ 180).
  { rewrite Ho. replace (2 ^ 180) with (RNZ (2 ^ 31 * 2 ^ 149))
      by (vm_compute; reflexivity).
    apply RN_mono. nia. }
  assert (Hlo : 0 <= ord (of_int n)).
  { rewrite Ho. apply RN_sign. nia. }
  split; [exact Hv|split; [|split; [exact Hlo|]]].
  - apply finite_of_ord; try assumption.
    assert (2 ^ 180 < omega) by reflexivity. pose proof omega_pos. lia.
  - intros Hp. rewrite Ho.
    apply Z.lt_le_trans with (RNZ (1 * 2 ^ 149)); [reflexivity|].
    apply RN_mono. nia.
Qed.

Lemma of_int_mono n1 n2 : n1 <= n2 -> ord (of_int n1) <= ord (of_int n2).
Proof.
  intros H. destruct (of_int_spec n1) as (_ & _ & ->).
  destruct (of_int_spec n2) as (_ & _ & ->).
  apply RN_mono. assert (0 < 2 ^ 149) by reflexivity. nia.
Qed.

(** ** The quotient by a positive number *)

Lemma div_mono_num y1 y2 h :
  valid y1 = true -> valid y2 = true -> valid h = true ->
  is_finite h = true -> 0 < ord h ->
  is_nan y1 = false -> is_nan y2 = false -> ord y1 <= ord y2 ->
  is_nan (div y1 h) = false /\ is_nan (div y2 h) = false /\
  ord (div y1 h) <= ord (div y2 h).
Proof.
  intros V1 V2 Vh Fh Ph N1 N2 H.
  pose proof omega_pos as Hom.
  assert (A : forall y, valid y = true -> is_nan y = false ->
                is_nan (div y h) = false /\
                (is_finite y = true -> ord (div y h) = SRQ (ord y) (ord h)) /\
                (is_finite y = false -> div y h = y)).
  { intros y Vy Ny. destruct (is_finite y) eqn:Fy.
    - destruct (div_spec y h Vy Vh Fy Fh Ph) as (_ & Nd & Od).
      split; [exact Nd|split; [intros _; exact Od|discriminate]].
    - destruct (pos_finite h Fh Ph) as (m & e & ->).
      destruct y as [s|s| |s my ey]; try discriminate.
      split; [reflexivity|split; [discriminate|]].
      intros _. destruct s; reflexivity. }
  destruct (A y1 V1 N1) as (Nd1 & O1 & I1).
  destruct (A y2 V2 N2) as (Nd2 & O2 & I2).
  split; [exact Nd1|split; [exact Nd2|]].
  pose proof (ord_bounds _ (div_valid y1 h V1 Vh)) as B1.
  pose proof (ord_bounds _ (div_valid y2 h V2 Vh)) as B2.
  destruct (is_finite y1) eqn:F1; destruct (is_finite y2) eqn:F2.
  - rewrite O1, O2 by reflexivity. apply SRQ_mono; assumption.
  - rewrite (I2 eq_refl).
    pose proof (ord_finite_lt y1 V1 F1).
    destruct y2 as [s|[|]| |s m e]; try discriminate; cbn [ord cond_Zopp] in *; lia.
  - rewrite (I1 eq_refl).
    pose proof (ord_finite_lt y2 V2 F2).
    destruct y1 as [s|[|]| |s m e]; try discriminate; cbn [ord cond_Zopp] in *; lia.
  - rewrite (I1 eq_refl), (I2 eq_refl). exact H.
Qed.

(** A quotient of a number by one at least as large is at most one. *)
Lemma div_unit x y :
  valid x = true -> valid y = true ->
  is_finite x = true -> is_finite y = true ->
  0 <= ord x <= ord y -> 0 < ord y ->
  valid (div x y) = true /\ is_finite (div x y) = true /\
  0 <= ord (div x y) <= ord one.
Proof.
  intros Vx Vy Fx Fy Hx Py.
  destruct (div_spec x y Vx Vy Fx Fy Py) as (Vd & Nd & Od).
  assert (R : 0 <= ord (div x y) <= ord one).
  { rewrite Od. unfold SRQ.
    destruct (Z.ltb_spec (ord x) 0); [lia|].
    split; [apply RQ_nonneg; lia|].
    rewrite <- (RQ_self (ord y) Py). apply RQ_mono; lia. }
  split; [exact Vd|split; [|exact R]].
  apply finite_of_ord; try assumption.
  assert (ord one < omega) by reflexivity. pose proof omega_pos. lia.
Qed.

(** ** Clamping to the unit interval, on [ord] *)


Lemma mul_const_not_nan a c :
  valid a = true -> is_nan a = false -> is_finite c = true ->
  valid c = true -> ord c <> 0 -> is_nan (mul a c) = false.
Proof.
  intros Ha Na Fc Hc Nz.
  destruct (is_finite a) eqn:Fa.
  - now destruct (mul_spec a c Ha Hc Fa Fc) as (_ & H & _).
  - destruct a as [s|s| |s m e]; try discriminate.
    destruct c as [s'|s'| |s' m' e']; try discriminate; try reflexivity.
    now cbn [ord] in Nz.
Qed.

End F32Facts.

Import F32Facts.

(** * The program *)

(** ** Clamping *)

Lemma clampf_in x a b : clampf x a b = x \/ clampf x a b = a \/ clampf x a b = b.
Proof.
  unfold clampf, F32.max, F32.min.
  destruct (ltb x b); destruct (ltb a _); auto.
Qed.

Lemma clampf_valid_gen x a b :
  valid x = true -> valid a = true -> valid b = true ->
  valid (clampf x a b) = true.
Proof.
  intros Vx Va Vb. destruct (clampf_in x a b) as [->|[->| ->]]; assumption.
Qed.

Lemma clampf_cases a :
  (clampf a zero one = a /\ ltb zero a = true /\ ltb a one = true) \/
  (clampf a zero one = zero /\ ltb zero a = false /\ ltb a one = true) \/
  (clampf a zero one = one /\ ltb a one = false).
Proof.
  unfold clampf, F32.max, F32.min.
  destruct (ltb a one) eqn:L1.
  - destruct (ltb zero a) eqn:L0; auto.
  - right. right. split; reflexivity.
Qed.

Lemma clampf_range a :
  leb zero (clampf a zero one) = true /\ leb (clampf a zero one) one = true.
Proof.
  destruct (clampf_cases a) as [(-> & L0 & L1)|[(-> & _)|(-> & _)]].
  - split; now apply ltb_leb.
  - split; reflexivity.
  - split; reflexivity.
Qed.


(** ** The update of a puff *)







Lemma whiten_step_ge w dt :
  valid w = true -> valid dt = true -> is_finite dt = true ->
  leb zero dt = true -> leb w one = true ->
  leb w (clampf (add w (mul dt f0_15)) zero one) = true.
Proof.
  intros Vw Vd Fd Pd Lw.
  destruct (leb_not_nan _ _ Lw) as [Nw _].
  destruct (clampf_range (add w (mul dt f0_15))) as [R0 R1].
  destruct (leb_not_nan _ _ R0) as [_ Nc].
  destruct (is_finite w) eqn:Fw.
  - pose proof (leb_true_ord zero dt eq_refl Vd Pd) as Od.
    change (ord zero) with 0 in Od.
    destruct (mul_nonneg dt f0_15 Vd eq_refl Fd eq_refl Od
                ltac:(vm_compute; discriminate)) as (Vm & Nm & Pm).
    destruct (add_nonneg w _ Vw Vm Fw Nm Pm) as (Va & Na & Oa).
    destruct (clampf_cases (add w (mul dt f0_15)))
      as [(-> & _)|[(-> & L0 & _)|(-> & _)]].
    + apply ord_leb; assumption.
    + apply ord_leb; try assumption; try reflexivity.
      rewrite ltb_ord in L0 by (try assumption; reflexivity).
      apply Z.ltb_ge in L0. lia.
    + exact Lw.
  - destruct w as [s|[|]| |s m e]; try discriminate.
    apply leb_neg_inf. exact Nc.
Qed.

(** ** The horizontal wrap *)

(** [(float)winW + c] is exact for a width and a constant that are
    small integers. *)
Lemma width_plus winW c k :
  valid c = true -> is_finite c = true -> ord c = k * 2 ^ 149 ->
  - 2 ^ 24 < winW < 2 ^ 24 -> - 2 ^ 24 < winW + k < 2 ^ 24 ->
  valid (add (of_int winW) c) = true /\
  is_finite (add (of_int winW) c) = true /\
  ord (add (of_int winW) c) = (winW + k) * 2 ^ 149.
Proof.
  intros Vc Fc Oc HW HWk.
  destruct (of_int_exact winW HW) as (Vw & Fw & Ow).
  destruct (add_spec (of_int winW) c Vw Vc Fw Fc) as (Va & Na & Oa).
  rewrite Ow, Oc, <- Z.mul_add_distr_r, RNZ_int in Oa by exact HWk.
  split; [exact Va|split; [|exact Oa]].
  apply finite_of_ord; try assumption. rewrite Oa.
  assert (P : 0 < 2 ^ 149) by reflexivity.
  assert (B : 2 ^ 24 * 2 ^ 149 < omega) by reflexivity.
  split; nia.
Qed.



(** ** Culling *)

Section Culling.
Context {RT : Runtime}.

Lemma updatePuffs_In P dt breeze winW winH p :
  In p (updatePuffs P dt breeze winW winH) <->
  exists p0, In p0 P /\ p = update_puff dt breeze winW winH p0 /\
             culled winH p = false.
Proof.
  unfold updatePuffs. rewrite filter_In, in_map_iff. split.
  - intros [[p0 [E H]] C]. exists p0. subst p. repeat split; auto.
    now apply negb_true_iff.
  - intros (p0 & H & E & C). split; [exists p0; auto|].
    now apply negb_true_iff.
Qed.

Lemma updatePuffs_single p dt breeze winW winH :
  updatePuffs [p] dt breeze winW winH
  = if culled winH (update_puff dt breeze winW winH p) then []
    else [update_puff dt breeze winW winH p].
Proof.
  unfold updatePuffs. cbn [map filter].
  destruct (culled winH _); reflexivity.
Qed.

(** A lone puff is gone, or has aged by [dt] at each update. *)
Lemma updatePuffs_n_single n : forall p dt breeze winW winH,
  updatePuffs_n n [p] dt breeze winW winH = [] \/
  exists p',
    updatePuffs_n n [p] dt breeze winW winH = [p'] /\
    Puff.life p' = Nat.iter n (fun l => add l dt) (Puff.life p) /\
    Puff.maxLife p' = Puff.maxLife p /\
    (n <> O -> culled winH p' = false).
Proof.
  induction n as [|n IH]; intros p dt breeze winW winH.
  - right. exists p. cbn. repeat split; auto. congruence.
  - destruct (IH p dt breeze winW winH) as [E|(p' & E & Hl & Hm & Hc)].
    + left. 
      assert (S n = (n + 1)%nat) as -> by lia.
      clear IH. revert E. generalize [p]. induction n; intros l E.
      * simpl in *. subst l. reflexivity.
      * simpl in *. apply IHn. exact E.
    + assert (Hsplit : forall l, updatePuffs_n (S n) l dt breeze winW winH
                = updatePuffs (updatePuffs_n n l dt breeze winW winH)
                              dt breeze winW winH).
      { clear. induction n; intros l; [reflexivity|].
        change (updatePuffs_n (S (S n)) l dt breeze winW winH)
          with (updatePuffs_n (S n) (updatePuffs l dt breeze winW winH)
                              dt breeze winW winH).
        rewrite IHn. reflexivity. }
      rewrite Hsplit, E, updatePuffs_single.
      destruct (culled winH (update_puff dt breeze winW winH p')) eqn:C.
      * left. reflexivity.
      * right. exists (update_puff dt breeze winW winH p').
        split; [reflexivity|]. cbn [update_puff Puff.life Puff.maxLife].
        rewrite Hl, Hm. repeat split; auto.
Qed.

End Culling.

(** ** Spawning *)

Section Spawn.
Context {RT : Runtime}.


Lemma spawnPuff_whiten P E w h g p :
  In p (fst (spawnPuff P E w h g)) -> In p P \/ Puff.whiten p = f0_2.
Proof.
  unfold spawnPuff.
  repeat match goal with |- context [frand ?g] => destruct (frand g) end.
  cbn [fst]. rewrite in_app_iff. intros [H|[<-|[]]]; auto.
Qed.

(** [frand()] is a member of the format between 0 and 1. *)
Lemma frand_range g :
  rand_in_range ->
  valid (fst (frand g)) = true /\ is_finite (fst (frand g)) = true /\
  0 <= ord (fst (frand g)) <= ord one.
Proof.
  intros [HM Hr]. unfold frand. specialize (Hr g).
  destruct (rand g) as [n g']. cbn [fst] in *.
  destruct (of_int_nonneg n ltac:(lia)) as (Vn & Fn & Pn & _).
  assert (HM' : 0 <= RAND_MAX < 2 ^ 31) by lia.
  destruct (of_int_nonneg RAND_MAX HM') as (Vm & Fm & _ & Pm).
  specialize (Pm ltac:(lia)).
  apply div_unit; try assumption.
  split; [exact Pn|apply of_int_mono; lia].
Qed.



End Spawn.

(** ** The spawn scheduler *)

Section Scheduler.
Context {RT : Runtime}.








Lemma spawn_while_Forall (Q : Puff.t -> Prop) fuel :
  (forall P E w h g p, In p (fst (spawnPuff P E w h g)) -> In p P \/ Q p) ->
  forall timer P E w h g t' P' g',
    Forall Q P ->
    spawn_while fuel timer P E w h g = Some (t', P', g') -> Forall Q P'.
Proof.
  intros HS. induction fuel as [|fuel IH]; intros timer P E w h g t' P' g' HP;
    cbn [spawn_while].
  - destruct (geb timer one); [discriminate|]. intros H. injection H as <- <- <-.
    exact HP.
  - destruct (geb timer one).
    + destruct (spawnPuff P E w h g) as [P1 g1] eqn:ES. apply IH.
      apply Forall_forall. intros p Hp.
      destruct (HS P E w h g p) as [H|H]; [rewrite ES; exact Hp| |exact H].
      rewrite Forall_forall in HP. now apply HP.
    + intros H. injection H as <- <- <-. exact HP.
Qed.

End Scheduler.

(** ** The emission rates *)

Lemma rate_up q :
  valid q = true -> leb f0_6 q = true ->
  valid (add q f0_8) = true /\ leb f0_6 (add q f0_8) = true.
Proof.
  intros Vq Lq. split; [apply add_valid; [exact Vq|reflexivity]|].
  destruct (leb_not_nan _ _ Lq) as [_ Nq].
  pose proof (leb_true_ord f0_6 q eq_refl Vq Lq) as Oq.
  destruct (is_finite q) eqn:Fq.
  - destruct (add_nonneg q f0_8 Vq eq_refl Fq eq_refl
                ltac:(vm_compute; discriminate)) as (Va & Na & Oa).
    apply ord_leb; try assumption; try reflexivity. lia.
  - assert (0 < ord f0_6) by reflexivity.
    rewrite (nonneg_inf q Nq Fq ltac:(lia)). reflexivity.
Qed.

Lemma rate_down q :
  valid q = true ->
  valid (F32.max f0_6 (sub q f0_8)) = true /\
  leb f0_6 (F32.max f0_6 (sub q f0_8)) = true.
Proof.
  intros Vq. unfold F32.max.
  destruct (ltb f0_6 (sub q f0_8)) eqn:L.
  - split; [apply sub_valid; [exact Vq|reflexivity]|now apply ltb_leb].
  - split; reflexivity.
Qed.

Lemma Forall_modify (Q : Emitter.t -> Prop) f i l :
  (forall e, Q e -> Q (f e)) -> Forall Q l -> Forall Q (modify i f l).
Proof.
  intros Hf H. revert i. induction H as [|e l He Hl IH]; intros i.
  - destruct i; constructor.
  - destruct i; cbn [modify]; constructor; auto.
Qed.

(** ** The states the program reaches *)

Section Reach.
Context {RT : Runtime}.

Lemma Reachable_two s :
  Reachable s -> exists e0 e1, emitters s = [e0; e1].
Proof.
  induction 1 as [g ticks|ev s H IH|fuel now s s' H IH F].
  - eexists _, _. reflexivity.
  - destruct IH as (e0 & e1 & E).
    destruct ev as [|w h|k|]; cbn [handle_event emitters].
    + eauto.
    + rewrite E. eexists _, _. reflexivity.
    + destruct k; rewrite E; eexists _, _; reflexivity.
    + eauto.
  - destruct IH as (e0 & e1 & E). unfold frame in F.
    destruct (emit fuel (emitterTimerA s) _ (puffs s) _ _ _ _)
      as [[[tA P1] g1]|]; [|discriminate].
    destruct (emit fuel (emitterTimerB s) _ P1 _ _ _ _)
      as [[[tB P2] g2]|]; [|discriminate].
    destruct (frand g2) as [u g3].
    destruct (if ltb u _ then _ else _) as [P3 g4].
    injection F as <-. cbn [emitters]. eauto.
Qed.

Lemma frame_emitters fuel now s s' :
  frame fuel now s = Some s' -> emitters s' = emitters s.
Proof.
  unfold frame. intros F.
  destruct (emit fuel (emitterTimerA s) _ (puffs s) _ _ _ _)
    as [[[tA P1] g1]|]; [|discriminate].
  destruct (emit fuel (emitterTimerB s) _ P1 _ _ _ _)
    as [[[tB P2] g2]|]; [|discriminate].
  destruct (frand g2) as [u g3].
  destruct (if ltb u _ then _ else _) as [P3 g4].
  injection F as <-. reflexivity.
Qed.

Lemma Reachable_events evs : forall s,
  Reachable s -> Reachable (handle_events evs s).
Proof.
  unfold handle_events.
  induction evs as [|ev evs IH]; intros s R; cbn [fold_left].
  - exact R.
  - apply IH. apply R_event. exact R.
Qed.

Lemma Reachable_rates s : Reachable s -> Forall rate_ok (emitters s).
Proof.
  induction 1 as [g ticks|ev s R IH|fuel now s s' R IH F].
  - cbn. repeat constructor.
  - destruct ev as [|w h|k|]; cbn [handle_event emitters]; auto.
    + apply Forall_modify; [|apply Forall_modify; [|exact IH]];
        intros e He; exact He.
    + destruct k; auto.
      * apply Forall_forall. intros e He. apply in_map_iff in He.
        destruct He as (e0 & <- & H0).
        rewrite Forall_forall in IH. destruct (IH e0 H0) as [V L].
        unfold rate_ok. cbn [set_rate Emitter.rate]. now apply rate_up.
      * apply Forall_forall. intros e He. apply in_map_iff in He.
        destruct He as (e0 & <- & H0).
        rewrite Forall_forall in IH. destruct (IH e0 H0) as [V L].
        unfold rate_ok. cbn [set_rate Emitter.rate]. now apply rate_down.
  - rewrite (frame_emitters _ _ _ _ F). exact IH.
Qed.

(** A property of the puffs that holds of the new ones and that the
    update keeps holds in every state. *)
Lemma Reachable_puffs (Q : Puff.t -> Prop) :
  (forall P E w h g p, In p (fst (spawnPuff P E w h g)) -> In p P \/ Q p) ->
  (forall dt breeze winW winH p,
     valid dt = true -> Q p -> Q (update_puff dt breeze winW winH p)) ->
  forall s, Reachable s -> Forall Q (puffs s).
Proof.
  intros HS HU s R.
  induction R as [g ticks|ev s R IH|fuel now s s' R IH F].
  - constructor.
  - destruct ev as [|w h|k|]; cbn [handle_event puffs]; exact IH.
  - unfold frame in F.
    set (dt := clampf _ zero f0_033) in F.
    assert (Vdt : valid dt = true).
    { apply clampf_valid_gen; try reflexivity.
      apply mul_valid; [apply of_int_spec|reflexivity]. }
    destruct (emit fuel (emitterTimerA s) dt (puffs s) _ _ _ _)
      as [[[tA P1] g1]|] eqn:EA; [|discriminate].
    destruct (emit fuel (emitterTimerB s) dt P1 _ _ _ _)
      as [[[tB P2] g2]|] eqn:EB; [|discriminate].
    pose proof (spawn_while_Forall Q fuel HS _ _ _ _ _ _ _ _ _ IH EA) as H1.
    pose proof (spawn_while_Forall Q fuel HS _ _ _ _ _ _ _ _ _ H1 EB) as H2.
    destruct (frand g2) as [u g3].
    assert (Fin : forall P3,
              Forall Q P3 ->
              Forall Q (updatePuffs P3 dt (breeze s) (winW s) (winH s))).
    { intros P3 H3. apply Forall_forall. intros p Hp.
      apply updatePuffs_In in Hp. destruct Hp as (p0 & H0 & -> & _).
      apply HU; [exact Vdt|]. rewrite Forall_forall in H3. now apply H3. }
    destruct (ltb u (mul (mul f0_02 dt) f60)).
    + destruct (frand g3) as [v g'].
      match type of F with
      | context [spawnPuff ?P ?E ?w ?h ?g] =>
          pose proof (HS P E w h g) as HS3;
          destruct (spawnPuff P E w h g) as [P3 g4]
      end.
      cbn [fst] in HS3. injection F as <-. cbn [puffs]. apply Fin.
      apply Forall_forall. intros p Hp.
      destruct (HS3 p Hp) as [H|H]; [|exact H].
      rewrite Forall_forall in H2. now apply H2.
    + injection F as <-. cbn [puffs]. apply Fin. exact H2.
Qed.

Lemma Reachable_whiten s : Reachable s -> Forall whiten_ok (puffs s).
Proof.
  apply Reachable_puffs.
  - intros P E w h g p Hin.
    destruct (spawnPuff_whiten P E w h g p Hin) as [H|H]; [left; exact H|].
    right. unfold whiten_ok. rewrite H. repeat split.
  - intros dt breeze winW winH p Vdt (Vw & _ & _).
    unfold whiten_ok. cbn [update_puff Puff.whiten].
    destruct (clampf_range (add (Puff.whiten p) (mul dt f0_15))) as [L0 L1].
    split; [|split; assumption].
    apply clampf_valid_gen; try reflexivity.
    apply add_valid; [exact Vw|]. apply mul_valid; [exact Vdt|reflexivity].
Qed.


End Reach.

(** ** The rings of a soft blob *)

Section SoftBlob.
Context {RT : Runtime}.

Lemma drawSoftBlob_nth cx cy R rgb alphaPeak rings i d :
  (i < Z.to_nat rings)%nat ->
  nth i (drawSoftBlob cx cy R rgb alphaPeak rings) d
  = ring cx cy R rgb alphaPeak rings (Z.of_nat i).
Proof.
  intros H. unfold drawSoftBlob.
  rewrite nth_indep with (d' := ring cx cy R rgb alphaPeak rings (Z.of_nat 0))
    by (rewrite length_map, length_seq; exact H).
  rewrite (map_nth (fun i => ring cx cy R rgb alphaPeak rings (Z.of_nat i))).
  rewrite seq_nth by exact H. reflexivity.
Qed.

End SoftBlob.

(** ** More facts on binary32 *)

Lemma compare_refl a : is_nan a = false -> SFcompare a a = Some Eq.
Proof.
  destruct a as [s|s| |s m e]; cbn; try discriminate; intros _.
  - reflexivity.
  - destruct s; reflexivity.
  - destruct s; rewrite Z.compare_refl.
    + rewrite Pos.compare_cont_refl. reflexivity.
    + rewrite Pos.compare_cont_refl. reflexivity.
Qed.

Lemma leb_refl a : is_nan a = false -> leb a a = true.
Proof.
  intros N. unfold leb, SFleb. rewrite (compare_refl a N). reflexivity.
Qed.

Lemma ltb_nan_l a b : is_nan a = true -> ltb a b = false.
Proof. destruct a; try discriminate. reflexivity. Qed.

Lemma ltb_nan_r a b : is_nan b = true -> ltb a b = false.
Proof. destruct b; try discriminate. destruct a; reflexivity. Qed.

(** Two members of the format with the same [ord] are the same number,
    the two zeros apart. *)
Lemma ord_inj x y :
  valid x = true -> valid y = true ->
  is_nan x = false -> is_nan y = false ->
  ord x = ord y -> ord x <> 0 -> x = y.
Proof.
  intros Vx Vy Nx Ny E NZ.
  pose proof (compare_spec x y Vx Vy Nx Ny) as C.
  rewrite E, Z.compare_refl in C.
  destruct x as [sx|sx| |sx mx ex]; try discriminate; cbn [ord] in NZ; try lia;
  destruct y as [sy|sy| |sy my ey]; try discriminate; cbn [ord] in E.
  - destruct sx; cbn [cond_Zopp] in E; pose proof omega_pos; lia.
  - destruct sx, sy; cbn [cond_Zopp] in E; pose proof omega_pos; try lia; reflexivity.
  - destruct sx, sy; cbn in C; discriminate.
  - destruct sx; cbn [cond_Zopp] in E; pose proof (ord_finite_pos _ _ _ Vx); lia.
  - destruct sx, sy; cbn in C; discriminate.
  - assert (sx = sy) as ->.
    { pose proof (ord_finite_pos _ _ _ Vx). pose proof (ord_finite_pos _ _ _ Vy).
      destruct sx, sy; cbn [cond_Zopp] in E; try reflexivity; lia. }
    assert (Zpos mx * 2 ^ (ex + 149) = Zpos my * 2 ^ (ey + 149)) as E'.
    { destruct sy; cbn [cond_Zopp] in E; lia. }
    assert (ex = ey) as ->.
    { destruct (Z.lt_trichotomy ex ey) as [L|[L|L]]; [|exact L|].
      - pose proof (canonical_lt _ _ _ _ _ _ Vx Vy L). lia.
      - pose proof (canonical_lt _ _ _ _ _ _ Vy Vx L). lia. }
    destruct (valid_finite_range _ _ _ Vx) as [R _].
    assert (0 < 2 ^ (ey + 149)) by (apply Z.pow_pos_nonneg; lia).
    assert (Zpos mx = Zpos my) as M by nia.
    injection M as ->. reflexivity.
Qed.

(** ** Interval arithmetic with one constant operand *)

Lemma fin_const x : valid x = true -> is_finite x = true -> fin x.
Proof. split; assumption. Qed.

Lemma within_fin lo hi x :
  fin lo -> fin hi -> valid x = true -> is_nan x = false ->
  ord lo <= ord x <= ord hi -> within lo hi x.
Proof.
  intros [Vl Fl] [Vh Fh] V N O. split; [split; [exact V|]|exact O].
  apply finite_of_ord; auto.
  pose proof (ord_finite_lt lo Vl Fl). pose proof (ord_finite_lt hi Vh Fh). lia.
Qed.

Lemma within_leb lo hi x :
  fin lo -> fin hi -> within lo hi x -> leb lo x = true /\ leb x hi = true.
Proof.
  intros [Vl Fl] [Vh Fh] [[V F] O].
  split; apply ord_leb; auto using finite_not_nan; lia.
Qed.

Lemma within_add_c lo hi c x :
  fin lo -> fin hi -> fin c -> fin (add lo c) -> fin (add hi c) ->
  within lo hi x -> within (add lo c) (add hi c) (add x c).
Proof.
  intros [Vl Fl] [Vh Fh] [Vc Fc] Fa Fb [[V F] O].
  destruct (add_spec x c V Vc F Fc) as (Va & Na & _).
  apply within_fin; auto. split; apply add_mono; auto; lia.
Qed.

Lemma within_c_add lo hi c x :
  fin lo -> fin hi -> fin c -> fin (add c lo) -> fin (add c hi) ->
  within lo hi x -> within (add c lo) (add c hi) (add c x).
Proof.
  intros [Vl Fl] [Vh Fh] [Vc Fc] Fa Fb [[V F] O].
  destruct (add_spec c x Vc V Fc F) as (Va & Na & _).
  apply within_fin; auto. split; apply add_mono; auto; lia.
Qed.

Lemma within_sub_c lo hi c x :
  fin lo -> fin hi -> fin c -> fin (sub lo c) -> fin (sub hi c) ->
  within lo hi x -> within (sub lo c) (sub hi c) (sub x c).
Proof.
  intros [Vl Fl] [Vh Fh] [Vc Fc] Fa Fb [[V F] O].
  destruct (sub_spec x c V Vc F Fc) as (Va & Na & _).
  apply within_fin; auto. split; apply sub_mono; auto; lia.
Qed.


Lemma mul_mono_c x1 x2 c :
  valid x1 = true -> valid x2 = true -> valid c = true ->
  is_finite x1 = true -> is_finite x2 = true -> is_finite c = true ->
  0 <= ord c -> ord x1 <= ord x2 -> ord (mul x1 c) <= ord (mul x2 c).
Proof.
  intros V1 V2 Vc F1 F2 Fc Pc L.
  destruct (mul_spec x1 c V1 Vc F1 Fc) as (_ & _ & ->).
  destruct (mul_spec x2 c V2 Vc F2 Fc) as (_ & _ & ->).
  apply RN_mono. apply Z.mul_le_mono_nonneg_r; assumption.
Qed.

Lemma mul_c_mono x1 x2 c :
  valid x1 = true -> valid x2 = true -> valid c = true ->
  is_finite x1 = true -> is_finite x2 = true -> is_finite c = true ->
  0 <= ord c -> ord x1 <= ord x2 -> ord (mul c x1) <= ord (mul c x2).
Proof.
  intros V1 V2 Vc F1 F2 Fc Pc L.
  destruct (mul_spec c x1 Vc V1 Fc F1) as (_ & _ & ->).
  destruct (mul_spec c x2 Vc V2 Fc F2) as (_ & _ & ->).
  apply RN_mono. apply Z.mul_le_mono_nonneg_l; assumption.
Qed.

Lemma within_mul_c lo hi c x :
  fin lo -> fin hi -> fin c -> 0 <= ord c ->
  fin (mul lo c) -> fin (mul hi c) ->
  within lo hi x -> within (mul lo c) (mul hi c) (mul x c).
Proof.
  intros [Vl Fl] [Vh Fh] [Vc Fc] Pc Fa Fb [[V F] O].
  destruct (mul_spec x c V Vc F Fc) as (Va & Na & _).
  apply within_fin; auto. split; apply mul_mono_c; auto; lia.
Qed.

Lemma within_c_mul lo hi c x :
  fin lo -> fin hi -> fin c -> 0 <= ord c ->
  fin (mul c lo) -> fin (mul c hi) ->
  within lo hi x -> within (mul c lo) (mul c hi) (mul c x).
Proof.
  intros [Vl Fl] [Vh Fh] [Vc Fc] Pc Fa Fb [[V F] O].
  destruct (mul_spec c x Vc V Fc F) as (Va & Na & _).
  apply within_fin; auto. split; apply mul_c_mono; auto; lia.
Qed.

(** The premises on constants are decided by computation. *)
Ltac fin_const := split; reflexivity.
Ltac ord_const := vm_compute; discriminate.

(** ** A strict comparison of two products *)





(** ** The increment of the radius, strictly *)




(** * The claims *)

Section Claims.
Context {RT : Runtime}.

(** C1. Every puff that [updatePuffs] leaves in the collection fails
    both tests of the cull: its life is not above its maximal life and
    its bottom edge [y - r] is not above 1.1 times the height of the
    viewport, which read as [<=] when no NaN is involved.  The puffs
    left are the updated puffs that fail both tests, the first of which
    compares the life increased by [dt] and is strict.  So a puff of
    maximal life 20 that starts at life 0 is gone after 21 updates with
    [dt = 1] (whatever its other fields, the viewport and the
    breeze). *)
Theorem updatePuffs_cull :
  (forall P dt breeze winW winH p,
     In p (updatePuffs P dt breeze winW winH) ->
     gtb (Puff.life p) (Puff.maxLife p) = false /\
     gtb (sub (Puff.y p) (Puff.r p)) (mul (of_int winH) f1_1) = false /\
     (is_nan (Puff.life p) = false -> is_nan (Puff.maxLife p) = false ->
      leb (Puff.life p) (Puff.maxLife p) = true) /\
     (is_nan (sub (Puff.y p) (Puff.r p)) = false ->
      leb (sub (Puff.y p) (Puff.r p)) (mul (of_int winH) f1_1) = true)) /\
  (forall P dt breeze winW winH p,
     In p (updatePuffs P dt breeze winW winH) <->
     exists p0,
       In p0 P /\ p = update_puff dt breeze winW winH p0 /\
       gtb (add (Puff.life p0) dt) (Puff.maxLife p0) = false /\
       gtb (sub (Puff.y p) (Puff.r p)) (mul (of_int winH) f1_1) = false) /\
  (forall p breeze winW winH,
     Puff.life p = zero -> Puff.maxLife p = f20 ->
     updatePuffs_n 21 [p] one breeze winW winH = []).
Proof.
  split; [|split].
  - intros P dt breeze winW winH p Hin.
    apply updatePuffs_In in Hin. destruct Hin as (p0 & _ & _ & C).
    unfold culled in C. apply orb_false_elim in C. destruct C as [C1 C2].
    split; [exact C1|split; [exact C2|split]].
    + intros N1 N2. now apply not_gtb_leb.
    + intros N. apply not_gtb_leb; [exact N| |exact C2].
      destruct (of_int_spec winH) as (Hv & Hn & _).
      apply mul_const_not_nan; try assumption; try reflexivity. discriminate.
  - intros P dt breeze winW winH p. rewrite updatePuffs_In.
    split; intros (p0 & H0 & E & C); exists p0; subst p.
    + unfold culled in C. apply orb_false_elim in C. destruct C as [C1 C2].
      repeat split; assumption.
    + destruct C as [C1 C2]. repeat split; try assumption.
      unfold culled. apply orb_false_intro; assumption.
  - intros p breeze winW winH Hl Hm.
    destruct (updatePuffs_n_single 21 p one breeze winW winH)
      as [E|(p' & E & Hl' & Hm' & Hc)]; [exact E|].
    exfalso. specialize (Hc ltac:(discriminate)).
    unfold culled in Hc. apply orb_false_elim in Hc. destruct Hc as [C _].
    rewrite Hl', Hm', Hl, Hm in C. vm_compute in C. discriminate.
Qed.



(** C4. [drawSoftBlob] draws [rings] fans; the fan of index [i] has
    the radius fraction [t = (i+1)/rings], the alpha
    [alphaPeak * pow(1 - t, 1.6f)] and the radius [t * R]: after the
    centre its 33 rim vertices are
    [(cx + t*R*cos(ang), cy + t*R*sin(ang))] for
    [ang = s/32 * 2 * pi], [s = 0 .. 32].  With eight rings the last
    one has [t = 1], and its alpha is a zero as soon as
    [pow(+0, 1.6f)] is [+0] (as the C standard has it) and the peak is
    finite; so it is for the 0.18f that is the default peak. *)
Theorem drawSoftBlob_rings :
  (forall cx cy R rgb alphaPeak rings,
     length (drawSoftBlob cx cy R rgb alphaPeak rings) = Z.to_nat rings) /\
  (forall cx cy R rgb alphaPeak rings i d,
     (i < Z.to_nat rings)%nat ->
     let t := div (of_int (Z.of_nat i + 1)) (of_int rings) in
     let f := nth i (drawSoftBlob cx cy R rgb alphaPeak rings) d in
     fan_alpha f = mul alphaPeak (powf (sub one t) f1_6) /\
     fan_rgb f = rgb /\
     firstn 2 (fan_verts f) = [cx; cy] /\
     length (fan_verts f) = 68%nat /\
     fan_verts f
     = [cx; cy]
       ++ flat_map
            (fun s =>
               let ang :=
                 mul (mul (div (of_int (Z.of_nat s)) (of_int 32)) two) pi in
               [add cx (mul (mul t R) (cosf ang));
                add cy (mul (mul t R) (sinf ang))])
            (seq 0 33)) /\
  ring_t 7 8 = one /\
  (forall alphaPeak,
     powf zero f1_6 = zero -> is_finite alphaPeak = true ->
     ord (ring_alpha alphaPeak 7 8) = 0 /\
     SFeqb (ring_alpha alphaPeak 7 8) zero = true /\
     exists s, ring_alpha alphaPeak 7 8 = S754_zero s) /\
  (powf zero f1_6 = zero -> ring_alpha f0_18 7 8 = zero).
Proof.
  split; [|split; [|split; [|split]]].
  - intros. unfold drawSoftBlob. now rewrite length_map, length_seq.
  - intros cx cy R rgb alphaPeak rings i d H. cbv zeta.
    rewrite drawSoftBlob_nth by exact H.
    unfold ring. cbn [fan_alpha fan_rgb fan_verts].
    repeat split.
  - vm_compute. reflexivity.
  - intros alphaPeak Hp Hf. unfold ring_alpha.
    replace (sub one (ring_t 7 8)) with zero by (vm_compute; reflexivity).
    rewrite Hp.
    destruct alphaPeak as [s|s| |s m e]; try discriminate;
      (split; [reflexivity|split; [reflexivity|eexists; reflexivity]]).
  - intros Hp. unfold ring_alpha.
    replace (sub one (ring_t 7 8)) with zero by (vm_compute; reflexivity).
    rewrite Hp. reflexivity.
Qed.


(** C6. The whiteness of a puff after [update_puff] lies between 0 and
    1, whatever the puff and the time step; and it is at least the
    whiteness before, for a time step that is finite and not negative
    and a whiteness that was at most 1.  The whiteness of every puff of
    every state the program reaches is such: 0.2 at spawn, then between
    0 and 1.  The floats are members of binary32. *)
Theorem whiten_range_monotone :
  (forall dt breeze winW winH p,
     leb zero (Puff.whiten (update_puff dt breeze winW winH p)) = true /\
     leb (Puff.whiten (update_puff dt breeze winW winH p)) one = true) /\
  (forall dt breeze winW winH p,
     Puff.whiten (update_puff dt breeze winW winH p)
     = clampf (add (Puff.whiten p) (mul dt f0_15)) zero one) /\
  (forall dt breeze winW winH p,
     valid (Puff.whiten p) = true -> valid dt = true ->
     is_finite dt = true -> leb zero dt = true ->
     leb (Puff.whiten p) one = true ->
     leb (Puff.whiten p) (Puff.whiten (update_puff dt breeze winW winH p))
     = true) /\
  (forall P E w h g p,
     In p (fst (spawnPuff P E w h g)) -> In p P \/ Puff.whiten p = f0_2) /\
  (forall s dt breeze winW winH p,
     Reachable s -> In p (puffs s) ->
     valid dt = true -> is_finite dt = true -> leb zero dt = true ->
     leb zero (Puff.whiten p) = true /\ leb (Puff.whiten p) one = true /\
     leb (Puff.whiten p) (Puff.whiten (update_puff dt breeze winW winH p))
     = true).
Proof.
  split; [|split; [|split; [|split]]].
  - intros. cbn [update_puff Puff.whiten]. apply clampf_range.
  - reflexivity.
  - intros dt breeze winW winH p Vw Vd Fd Pd Lw.
    cbn [update_puff Puff.whiten]. now apply whiten_step_ge.
  - apply spawnPuff_whiten.
  - intros s dt breeze winW winH p R Hin Vd Fd Pd.
    pose proof (Reachable_whiten s R) as H. rewrite Forall_forall in H.
    destruct (H p Hin) as (Vw & L0 & L1).
    split; [exact L0|split; [exact L1|]].
    cbn [update_puff Puff.whiten]. now apply whiten_step_ge.
Qed.

(** C7. The program starts with the rates 4.0 and 3.2; the up key adds
    0.8 to every rate and the down key sets it to
    [max(0.6, rate - 0.8)]; nothing else writes a rate.  So in every
    state that the program reaches, through any events and frames and
    under any sequence of presses of the two keys, the rate of every
    persistent emitter is a member of binary32 that is at least the
    floor 0.6, and positive. *)
Theorem rate_floor :
  (forall g ticks,
     map Emitter.rate (emitters (initial g ticks)) = [f4; f3_2]) /\
  (forall s,
     map Emitter.rate (emitters (handle_event (SDL_KEYDOWN SDLK_UP) s))
     = map (fun e => add (Emitter.rate e) f0_8) (emitters s) /\
     map Emitter.rate (emitters (handle_event (SDL_KEYDOWN SDLK_DOWN) s))
     = map (fun e => F32.max f0_6 (sub (Emitter.rate e) f0_8)) (emitters s)) /\
  (forall s,
     Reachable s ->
     Forall (fun e => valid (Emitter.rate e) = true /\
                      leb f0_6 (Emitter.rate e) = true /\
                      ltb zero (Emitter.rate e) = true) (emitters s)) /\
  (forall evs g ticks,
     Forall (fun e => leb f0_6 (Emitter.rate e) = true)
            (emitters (handle_events evs (initial g ticks)))).
Proof.
  split; [reflexivity|split; [|split]].
  - intros s. cbn [handle_event emitters]. rewrite !map_map. split; reflexivity.
  - intros s R. eapply Forall_impl; [|exact (Reachable_rates s R)].
    intros e [V L]. split; [exact V|split; [exact L|]].
    destruct (leb_not_nan _ _ L) as [_ N].
    pose proof (leb_true_ord f0_6 _ eq_refl V L) as O.
    rewrite ltb_ord by (try assumption; reflexivity).
    apply Z.ltb_lt. assert (0 < ord f0_6) by reflexivity.
    change (ord zero) with 0. lia.
  - intros evs g ticks.
    eapply Forall_impl;
      [|exact (Reachable_rates _ (Reachable_events evs _ (R_initial g ticks)))].
    intros e [_ L]. exact L.
Qed.


(** C9. A resize to width [W] sets the span of the left emitter to
    [(W * 0.18f, W * 0.38f)]: from the start-up viewport of 960 by 600,
    where the span is (172.8f, 364.8f), a resize to 480 by 300 moves it
    to (86.4f, 182.4f). *)
Theorem resize_left_span :
  (forall s W H,
     Reachable s ->
     let e := nth_emitter 0 (handle_event (SDL_WINDOWEVENT_SIZE_CHANGED W H) s)
     in Emitter.x0 e = mul (of_int W) f0_18 /\
        Emitter.x1 e = mul (of_int W) f0_38) /\
  (forall g ticks,
     let s := initial g ticks in
     let s' := handle_event (SDL_WINDOWEVENT_SIZE_CHANGED 480 300) s in
     winW s = 960 /\ winH s = 600 /\
     Emitter.x0 (nth_emitter 0 s) = lit 1728 10 /\
     Emitter.x1 (nth_emitter 0 s) = lit 3648 10 /\
     winW s' = 480 /\ winH s' = 300 /\
     Emitter.x0 (nth_emitter 0 s') = lit 864 10 /\
     Emitter.x1 (nth_emitter 0 s') = lit 1824 10).
Proof.
  split.
  - intros s W H R. destruct (Reachable_two s R) as (e0 & e1 & E).
    unfold nth_emitter. cbn [handle_event emitters]. rewrite E.
    cbn. split; reflexivity.
  - intros g ticks. cbv zeta. repeat split; vm_compute; reflexivity.
Qed.

(** C10. Whatever the new size, the resize event writes the two sizes
    of the viewport and, of each persistent emitter, the span and the
    emission height, which is the constant 110 and does not follow the
    viewport; the rates, the breeze, the puffs, the two credits, the
    generator, the tick count and the running flag are as before. *)
Theorem resize_frame :
  forall s W H,
    Reachable s ->
    let s' := handle_event (SDL_WINDOWEVENT_SIZE_CHANGED W H) s in
    emitters s'
    = [Emitter.mk (mul (of_int W) f0_18) (mul (of_int W) f0_38) f110
                  (Emitter.rate (nth_emitter 0 s));
       Emitter.mk (mul (of_int W) f0_55) (mul (of_int W) f0_82) f110
                  (Emitter.rate (nth_emitter 1 s))] /\
    map Emitter.rate (emitters s') = map Emitter.rate (emitters s) /\
    Forall (fun e => Emitter.y e = f110) (emitters s') /\
    winW s' = W /\ winH s' = H /\
    breeze s' = breeze s /\ puffs s' = puffs s /\
    emitterTimerA s' = emitterTimerA s /\
    emitterTimerB s' = emitterTimerB s /\
    rng s' = rng s /\ lastTicks s' = lastTicks s /\ running s' = running s.
Proof.
  intros s W H R. destruct (Reachable_two s R) as (e0 & e1 & E).
  cbv zeta. unfold nth_emitter. cbn [handle_event emitters winW winH breeze
    puffs emitterTimerA emitterTimerB rng lastTicks running].
  rewrite E. cbn.
  repeat split; auto.
Qed.

End Claims.

(** On a viewport so wide that binary32 cannot hold [winW + 200], the
    first wrap can land above [winW + 100] and be undone by the second
    test. *)
Example wrap_x_wide_viewport :
  ltb (neg (of_int 101)) (neg f100) = true /\
  wrap_x (neg (of_int 101)) 134217744
  <> add (neg (of_int 101)) (add (of_int 134217744) f200).
Proof. split; [reflexivity|vm_compute; discriminate]. Qed.

(** ** The theorems at work on the sample runtime *)

Lemma updatePuffs_cull_witness :
  Puff.life sample_puff = zero /\ Puff.maxLife sample_puff = f20 /\
  @updatePuffs_n sample_runtime 21 [sample_puff] one f12 960 600 = [].
Proof.
  split; [reflexivity|split; [reflexivity|]].
  apply (proj2 (proj2 (@updatePuffs_cull sample_runtime))); reflexivity.
Defined.



Lemma drawSoftBlob_rings_witness :
  (@powf sample_runtime zero f1_6 = zero /\ is_finite f0_18 = true /\
   ord (@ring_alpha sample_runtime f0_18 7 8) = 0) /\
  ((3 < Z.to_nat 8)%nat /\
   nth 2 (fan_verts (nth 3 (@drawSoftBlob sample_runtime f100 f200 f60
                               (one, one, one) f0_18 8)
                         (mkFan [] (zero, zero, zero) zero)))
       zero
   = add f100 (mul (mul (div (of_int 4) (of_int 8)) f60) one)).
Proof.
  split.
  - split; [reflexivity|split; [reflexivity|]].
    apply (proj1 (proj2 (proj2 (proj2 (@drawSoftBlob_rings sample_runtime)))));
      reflexivity.
  - split; [cbn; lia|].
    destruct (proj1 (proj2 (@drawSoftBlob_rings sample_runtime))
                f100 f200 f60 (one, one, one) f0_18 8 3%nat
                (mkFan [] (zero, zero, zero) zero) ltac:(cbn; lia))
      as (_ & _ & _ & _ & V).
    rewrite V. reflexivity.
Defined.


Lemma whiten_range_monotone_witness :
  valid (Puff.whiten sample_puff) = true /\ valid f0_033 = true /\
  is_finite f0_033 = true /\ leb zero f0_033 = true /\
  leb (Puff.whiten sample_puff) one = true /\
  leb (Puff.whiten sample_puff)
      (Puff.whiten (@update_puff sample_runtime f0_033 f12 960 600
                      sample_puff)) = true.
Proof.
  repeat (split; [reflexivity|]).
  apply (proj1 (proj2 (proj2 (@whiten_range_monotone sample_runtime))));
    reflexivity.
Defined.

Lemma rate_floor_witness :
  Reachable
    (handle_event (SDL_KEYDOWN SDLK_DOWN)
       (handle_event (SDL_KEYDOWN SDLK_DOWN) sample_start)) /\
  Forall (fun e => valid (Emitter.rate e) = true /\
                   leb f0_6 (Emitter.rate e) = true /\
                   ltb zero (Emitter.rate e) = true)
    (emitters (handle_event (SDL_KEYDOWN SDLK_DOWN)
                 (handle_event (SDL_KEYDOWN SDLK_DOWN) sample_start))).
Proof.
  assert (R : Reachable
                (handle_event (SDL_KEYDOWN SDLK_DOWN)
                   (handle_event (SDL_KEYDOWN SDLK_DOWN) sample_start)))
    by (apply R_event, R_event, R_initial).
  split; [exact R|].
  apply (proj2 (proj2 (@rate_floor sample_runtime))). exact R.
Defined.


Lemma resize_left_span_witness :
  Reachable sample_start /\
  Emitter.x0 (nth_emitter 0
     (handle_event (SDL_WINDOWEVENT_SIZE_CHANGED 480 300) sample_start))
  = mul (of_int 480) f0_18 /\
  Emitter.x1 (nth_emitter 0
     (handle_event (SDL_WINDOWEVENT_SIZE_CHANGED 480 300) sample_start))
  = mul (of_int 480) f0_38.
Proof.
  split; [apply R_initial|].
  apply (proj1 (@resize_left_span sample_runtime)). apply R_initial.
Defined.

Lemma resize_frame_witness :
  Reachable sample_start /\
  map Emitter.rate
    (emitters (handle_event (SDL_WINDOWEVENT_SIZE_CHANGED 480 300)
                 sample_start))
  = map Emitter.rate (emitters sample_start).
Proof.
  split; [apply R_initial|].
  apply (@resize_frame sample_runtime sample_start 480 300). apply R_initial.
Defined.

(** * Further properties of the program *)

(** ** The helpers [clampf] and [frand] *)

Lemma sample_rand_in_range : @rand_in_range sample_runtime.
Proof.
  split; [cbn; lia|]. intros g. cbn [rand sample_runtime fst RAND_MAX].
  pose proof (Z.mod_pos_bound
                (((g * 1103515245 + 12345) mod 2 ^ 32) / 65536) 32768).
  lia.
Qed.

Lemma clampf_between x a b :
  leb a b = true ->
  leb a (clampf x a b) = true /\ leb (clampf x a b) b = true.
Proof.
  intros L. destruct (leb_not_nan _ _ L) as [Na Nb].
  pose proof (leb_refl a Na) as Ra. pose proof (leb_refl b Nb) as Rb.
  unfold clampf, F32.max, F32.min. split.
  - destruct (ltb x b) eqn:Lx.
    + destruct (ltb a x) eqn:La; [now apply ltb_leb|exact Ra].
    + destruct (ltb a b) eqn:Lab; [exact L|exact Ra].
  - destruct (ltb x b) eqn:Lx.
    + destruct (ltb a x) eqn:La; [now apply ltb_leb|exact L].
    + destruct (ltb a b) eqn:Lab; [exact Rb|exact L].
Qed.

(** X1. For bounds [a <= b], [clampf(x, a, b)] lies between [a] and [b]
    whatever [x] is, a NaN included: a NaN is clamped to the upper
    bound.  Clamping twice is clamping once. *)
Theorem clampf_bounds (x a b : float) :
  leb a b = true ->
  leb a (clampf x a b) = true /\ leb (clampf x a b) b = true /\
  (is_nan x = true -> ltb a b = true -> clampf x a b = b) /\
  clampf (clampf x a b) a b = clampf x a b.
Proof.
  intros L. destruct (clampf_between x a b L) as [L0 L1].
  split; [exact L0|]. split; [exact L1|].
  unfold clampf, F32.max, F32.min. split.
  - intros N Lab. rewrite (ltb_nan_l x b N), Lab. reflexivity.
  - destruct (ltb x b) eqn:Lx; [destruct (ltb a x) eqn:La|];
      rewrite ?Lx, ?La; try reflexivity;
      destruct (ltb a b) eqn:Lab; rewrite ?Lab;
      try reflexivity; destruct (ltb a a), (ltb b b); rewrite ?Lab; reflexivity.
Qed.

Lemma clampf_bounds_witness :
  leb zero f0_033 = true /\
  leb zero (clampf S754_nan zero f0_033) = true /\
  clampf S754_nan zero f0_033 = f0_033.
Proof.
  split; [reflexivity|].
  pose proof (clampf_bounds S754_nan zero f0_033 eq_refl) as (A & _ & N & _).
  split; [exact A|apply N; reflexivity].
Defined.

Section Helpers.
Context {RT : Runtime}.

Lemma of_int_pos_shape n :
  0 < n < 2 ^ 31 -> exists m e, of_int n = S754_finite false m e.
Proof.
  intros H. destruct (of_int_nonneg n ltac:(lia)) as (V & F & _ & P).
  apply pos_finite; [exact F|apply P; lia].
Qed.

(** X2. For a [rand] that keeps to its range, [frand] is a finite
    number of the closed unit interval: 0 when [rand] gives 0 and 1 when
    it gives [RAND_MAX].  It takes one draw of [rand]. *)
Theorem frand_unit (g : Rng) :
  rand_in_range ->
  is_finite (fst (frand g)) = true /\
  leb zero (fst (frand g)) = true /\ leb (fst (frand g)) one = true /\
  (fst (rand g) = 0 -> fst (frand g) = zero) /\
  (fst (rand g) = RAND_MAX -> fst (frand g) = one) /\
  snd (frand g) = snd (rand g).
Proof.
  intros R. destruct (frand_range g R) as (V & F & O0 & O1).
  pose proof R as [RM Rg]. specialize (Rg g).
  split; [exact F|].
  split; [apply ord_leb; auto using finite_not_nan|].
  split; [apply ord_leb; auto using finite_not_nan|].
  unfold frand in *. destruct (rand g) as [n g'] eqn:E. cbn [fst snd] in *.
  repeat split.
  - intros ->. destruct (of_int_pos_shape RAND_MAX RM) as (m & e & ->).
    reflexivity.
  - intros ->.
    assert (0 <= RAND_MAX < 2 ^ 31) as RM' by lia.
    destruct (of_int_nonneg RAND_MAX RM') as (Vr & Fr & _ & P).
    assert (0 < RAND_MAX) as RM'' by lia. specialize (P RM'').
    destruct (div_spec _ _ Vr Vr Fr Fr P) as (Vd & Nd & Od).
    apply ord_inj; auto.
    + unfold SRQ in Od. destruct (ord (of_int RAND_MAX) <? 0) eqn:Q;
        [apply Z.ltb_lt in Q; lia|].
      rewrite Od. apply RQ_self. exact P.
    + unfold SRQ in Od. destruct (ord (of_int RAND_MAX) <? 0) eqn:Q;
        [apply Z.ltb_lt in Q; lia|].
      rewrite Od, (RQ_self _ P). vm_compute. discriminate.
Qed.

End Helpers.

Lemma frand_unit_witness :
  leb (fst (@frand sample_runtime 1)) one = true.
Proof.
  exact (proj1 (proj2 (proj2 (@frand_unit sample_runtime 1 sample_rand_in_range)))).
Defined.

(** ** What [spawnPuff] makes *)

Section SpawnFields.
Context {RT : Runtime}.

Lemma frand_within g : rand_in_range -> within zero one (fst (frand g)).
Proof.
  intros R. destruct (frand_range g R) as (V & F & O).
  split; [split; assumption|exact O].
Qed.

Lemma frand_snd g : snd (frand g) = snd (rand g).
Proof. unfold frand. destruct (rand g). reflexivity. Qed.

(** [c + u * k] for a draw [u] of the unit interval. *)
Lemma within_affine c k u :
  fin c -> fin k -> 0 <= ord k -> fin (mul zero k) -> fin (mul one k) ->
  fin (add c (mul zero k)) -> fin (add c (mul one k)) ->
  within zero one u ->
  within (add c (mul zero k)) (add c (mul one k)) (add c (mul u k)).
Proof.
  intros Fc Fk Pk F0 F1 Fa Fb U.
  apply within_c_add; auto.
  apply within_mul_c; auto; fin_const.
Qed.

Lemma spawnPuff_within (P : list Puff.t) (E : Emitter.t) (w h : Z)
  (g : Rng) :
  rand_in_range ->
  exists p,
    fst (spawnPuff P E w h g) = P ++ [p] /\
    snd (spawnPuff P E w h g) = Nat.iter 8 (fun g => snd (rand g)) g /\
    Puff.life p = zero /\ Puff.whiten p = f0_2 /\
    within f12 (of_int 22) (Puff.r p) /\
    within (neg f4) f4 (Puff.vx p) /\
    within f12 (of_int 22) (Puff.vy p) /\
    within f3 (of_int 9) (Puff.growth p) /\
    within (neg f0_8) f0_8 (Puff.wobble p) /\
    within f18 (of_int 26) (Puff.maxLife p).
Proof.
  intros R. unfold spawnPuff.
  pose proof (frand_within g R) as U1. pose proof (frand_snd g) as S1.
  destruct (frand g) as [u1 g1]. cbn [fst snd] in U1, S1.
  pose proof (frand_within g1 R) as U2. pose proof (frand_snd g1) as S2.
  destruct (frand g1) as [u2 g2]. cbn [fst snd] in U2, S2.
  pose proof (frand_within g2 R) as U3. pose proof (frand_snd g2) as S3.
  destruct (frand g2) as [u3 g3]. cbn [fst snd] in U3, S3.
  pose proof (frand_within g3 R) as U4. pose proof (frand_snd g3) as S4.
  destruct (frand g3) as [u4 g4]. cbn [fst snd] in U4, S4.
  pose proof (frand_within g4 R) as U5. pose proof (frand_snd g4) as S5.
  destruct (frand g4) as [u5 g5]. cbn [fst snd] in U5, S5.
  pose proof (frand_within g5 R) as U6. pose proof (frand_snd g5) as S6.
  destruct (frand g5) as [u6 g6]. cbn [fst snd] in U6, S6.
  pose proof (frand_within g6 R) as U7. pose proof (frand_snd g6) as S7.
  destruct (frand g6) as [u7 g7]. cbn [fst snd] in U7, S7.
  pose proof (frand_within g7 R) as U8. pose proof (frand_snd g7) as S8.
  destruct (frand g7) as [u8 g8]. cbn [fst snd] in U8, S8.
  eexists. split; [reflexivity|].
  split; [cbn [fst snd Nat.iter nat_rect]; congruence|].
  cbn [Puff.life Puff.whiten Puff.r Puff.vx Puff.vy Puff.growth Puff.wobble
       Puff.maxLife].
  split; [reflexivity|]. split; [reflexivity|].
  split; [|split; [|split; [|split; [|split]]]].
  - apply (within_affine f12 f10); auto; try fin_const; ord_const.
  - apply (within_mul_c (sub zero f0_5) (sub one f0_5) f8);
      try fin_const; [ord_const|].
    apply within_sub_c; auto; fin_const.
  - apply (within_affine f12 f10); auto; try fin_const; ord_const.
  - apply (within_affine f3 f6); auto; try fin_const; ord_const.
  - apply (within_mul_c (sub (mul zero two) one) (sub (mul one two) one)
                        f0_8); try fin_const; [ord_const|].
    apply within_sub_c; try fin_const.
    apply within_mul_c; auto; try fin_const; ord_const.
  - apply (within_affine f18 f8); auto; try fin_const; ord_const.
Qed.

(** X3. [spawnPuff] appends one puff to the collection, whose other
    puffs it leaves as they are, and takes eight draws of [rand].  For a
    [rand] that keeps to its range the new puff has, whatever the
    emitter: age 0, whiteness 0.2, a radius in [12, 22], a horizontal
    velocity in [-4, 4], a vertical velocity in [12, 22], a growth rate
    in [3, 9], a wobble in [-0.8, 0.8] and a maximal life in
    [18, 26]. *)
Theorem spawnPuff_fields (P : list Puff.t) (E : Emitter.t) (w h : Z)
  (g : Rng) :
  rand_in_range ->
  exists p,
    fst (spawnPuff P E w h g) = P ++ [p] /\
    snd (spawnPuff P E w h g) = Nat.iter 8 (fun g => snd (rand g)) g /\
    Puff.life p = zero /\ Puff.whiten p = f0_2 /\
    (leb f12 (Puff.r p) = true /\ leb (Puff.r p) (of_int 22) = true) /\
    (leb (neg f4) (Puff.vx p) = true /\ leb (Puff.vx p) f4 = true) /\
    (leb f12 (Puff.vy p) = true /\ leb (Puff.vy p) (of_int 22) = true) /\
    (leb f3 (Puff.growth p) = true /\ leb (Puff.growth p) (of_int 9) = true) /\
    (leb (neg f0_8) (Puff.wobble p) = true /\
     leb (Puff.wobble p) f0_8 = true) /\
    (leb f18 (Puff.maxLife p) = true /\
     leb (Puff.maxLife p) (of_int 26) = true).
Proof.
  intros R.
  destruct (spawnPuff_within P E w h g R)
    as (p & A & B & L & W & W1 & W2 & W3 & W4 & W5 & W6).
  exists p.
  split; [exact A|]. split; [exact B|]. split; [exact L|]. split; [exact W|].
  split; [apply (within_leb f12 (of_int 22)); [fin_const..|exact W1]|].
  split; [apply (within_leb (neg f4) f4); [fin_const..|exact W2]|].
  split; [apply (within_leb f12 (of_int 22)); [fin_const..|exact W3]|].
  split; [apply (within_leb f3 (of_int 9)); [fin_const..|exact W4]|].
  split; [apply (within_leb (neg f0_8) f0_8); [fin_const..|exact W5]|].
  apply (within_leb f18 (of_int 26)); [fin_const..|exact W6].
Qed.

End SpawnFields.

Lemma spawnPuff_fields_witness :
  exists p,
    fst (@spawnPuff sample_runtime [] (Emitter.mk f100 f200 f110 f4) 960 600 1)
    = [] ++ [p] /\
    leb f18 (Puff.maxLife p) = true.
Proof.
  destruct (@spawnPuff_fields sample_runtime []
              (Emitter.mk f100 f200 f110 f4) 960 600 1 sample_rand_in_range)
    as (p & A & _ & _ & _ & _ & _ & _ & _ & _ & B & _).
  exists p. split; [exact A|exact B].
Defined.

(** ** More on [updatePuffs] *)

Section Update.
Context {RT : Runtime}.



(** X4. [updatePuffs] treats every puff on its own: the update of a
    collection in two parts is the update of the parts, one after the
    other, also over several ticks.  It never adds a puff, and an empty
    collection stays empty. *)
Theorem updatePuffs_app (P Q : list Puff.t) (dt breeze : float)
  (winW winH : Z) (n : nat) :
  updatePuffs (P ++ Q) dt breeze winW winH
  = updatePuffs P dt breeze winW winH ++ updatePuffs Q dt breeze winW winH /\
  updatePuffs_n n (P ++ Q) dt breeze winW winH
  = updatePuffs_n n P dt breeze winW winH
    ++ updatePuffs_n n Q dt breeze winW winH /\
  (length (updatePuffs P dt breeze winW winH) <= length P)%nat /\
  (length (updatePuffs_n n P dt breeze winW winH) <= length P)%nat /\
  updatePuffs_n n [] dt breeze winW winH = [].
Proof.
  assert (forall A B, updatePuffs (A ++ B) dt breeze winW winH
            = updatePuffs A dt breeze winW winH
              ++ updatePuffs B dt breeze winW winH) as App.
  { intros A B. unfold updatePuffs. rewrite map_app, filter_app. reflexivity. }
  assert (forall A, (length (updatePuffs A dt breeze winW winH)
                     <= length A)%nat) as Len.
  { intros A. unfold updatePuffs.
    etransitivity; [apply filter_length_le|]. rewrite length_map. lia. }
  split; [apply App|]. split; [|split; [apply Len|split]].
  - revert P Q. induction n as [|n IH]; intros P Q; cbn [updatePuffs_n].
    + reflexivity.
    + rewrite App. apply IH.
  - revert P. induction n as [|n IH]; intros P; cbn [updatePuffs_n].
    + lia.
    + etransitivity; [apply IH|apply Len].
  - induction n as [|n IH]; cbn [updatePuffs_n]; [reflexivity|exact IH].
Qed.

End Update.


(** ** The timing of a frame *)

Lemma of_int_u32 k :
  0 <= k < 2 ^ 32 -> fin (of_int k) /\ 0 <= ord (of_int k).
Proof.
  intros H. destruct (of_int_spec k) as (V & N & _).
  pose proof (of_int_mono 0 k ltac:(lia)) as L0.
  pose proof (of_int_mono k (2 ^ 32) ltac:(lia)) as L1.
  change (ord (of_int 0)) with 0 in L0.
  split; [split; [exact V|]|exact L0].
  apply finite_of_ord; auto.
  assert (ord (of_int (2 ^ 32)) < omega) by (vm_compute; reflexivity).
  pose proof omega_pos. lia.
Qed.

Lemma tick_dt_within now last : within zero f0_033 (tick_dt now last).
Proof.
  destruct (clampf_between (mul (of_int ((now - last) mod 2 ^ 32)) f0_001)
              zero f0_033 eq_refl) as (L0 & L1).
  fold (tick_dt now last) in L0, L1.
  assert (valid (tick_dt now last) = true) as V.
  { apply clampf_valid_gen; try reflexivity.
    apply mul_valid; [apply of_int_spec|reflexivity]. }
  destruct (leb_not_nan _ _ L0) as [_ N].
  apply within_fin; try fin_const; auto.
  split; [apply (leb_true_ord zero _ eq_refl V L0)
         |apply (leb_true_ord _ f0_033 V eq_refl L1)].
Qed.

(** X6. The time step of a frame is the count of milliseconds since the
    frame before, read on the 32-bit tick counter (so modulo [2^32]),
    times 0.001f, and cut at 0.033f: it is that product for less than 33
    milliseconds and exactly 0.033f from 33 milliseconds on, hence a
    finite number between 0 and 0.033f whatever the two readings of the
    counter are.  The threshold of the mid-level puff, [0.02f*dt*60.f],
    is then between 0 and 0.04f. *)
Theorem tick_dt_spec (now last : Z) :
  let k := (now - last) mod 2 ^ 32 in
  let dt := tick_dt now last in
  (k < 33 -> dt = mul (of_int k) f0_001) /\
  (33 <= k -> dt = f0_033) /\
  (valid dt = true /\ is_finite dt = true /\
   leb zero dt = true /\ leb dt f0_033 = true) /\
  (leb zero (mid_threshold dt) = true /\
   leb (mid_threshold dt) (lit 4 100) = true).
Proof.
  intros k dt.
  assert (0 <= k < 2 ^ 32) as Hk by (apply Z.mod_pos_bound; lia).
  pose proof (tick_dt_within now last) as W. fold dt in W.
  assert (dt = clampf (mul (of_int k) f0_001) zero f0_033) as Edt
    by reflexivity.
  clearbody k dt.
  split; [|split; [|split]].
  - intros H. rewrite Edt. clear - H Hk.
    destruct k as [|q|q]; [reflexivity| |lia].
    do 6 (destruct q as [q|q|]; try lia; try reflexivity).
  - intros H. rewrite Edt.
    destruct (of_int_u32 k Hk) as ([Vk Fk] & Pk).
    destruct (of_int_u32 33 ltac:(lia)) as ([V33 F33] & P33).
    destruct (mul_spec (of_int k) f0_001 Vk eq_refl Fk eq_refl)
      as (Vm & Nm & _).
    pose proof (mul_mono_c (of_int 33) (of_int k) f0_001 V33 Vk eq_refl
                  F33 Fk eq_refl ltac:(vm_compute; discriminate)
                  (of_int_mono 33 k H)) as M.
    assert (ord f0_033 <= ord (mul (of_int 33) f0_001)) as C
      by (vm_compute; discriminate).
    unfold clampf, F32.max, F32.min.
    rewrite (ltb_ord _ f0_033 Vm eq_refl Nm eq_refl).
    destruct (Z.ltb_spec (ord (mul (of_int k) f0_001)) (ord f0_033)); [lia|].
    reflexivity.
  - destruct W as [[V F] [O0 O1]].
    repeat split; auto; apply ord_leb; auto using finite_not_nan.
  - unfold mid_threshold.
    assert (within (mul (mul f0_02 zero) f60) (mul (mul f0_02 f0_033) f60)
                   (mul (mul f0_02 dt) f60)) as [[V F] [O0 O1]].
    { apply within_mul_c; try fin_const; [ord_const|].
      apply within_c_mul; try fin_const; [ord_const|exact W]. }
    assert (ord (mul (mul f0_02 f0_033) f60) <= ord (lit 4 100)) as C
      by (vm_compute; discriminate).
    change (ord (mul (mul f0_02 zero) f60)) with 0 in O0.
    split; apply ord_leb; auto using finite_not_nan;
      try reflexivity; try (change (ord zero) with 0); lia.
Qed.

(** ** The events and the frame *)

Lemma ord_int_fin x k :
  valid x = true -> is_nan x = false -> - 2 ^ 24 < k < 2 ^ 24 ->
  ord x = k * 2 ^ 149 -> is_finite x = true.
Proof.
  intros V N K E. apply finite_of_ord; auto. rewrite E.
  assert (omega = 2 ^ 128 * 2 ^ 149) as -> by reflexivity.
  assert (0 < 2 ^ 149) by (apply Z.pow_pos_nonneg; lia).
  assert (2 ^ 24 < 2 ^ 128) by (apply Z.pow_lt_mono_r; lia).
  nia.
Qed.

Lemma breeze_keys_acc evs : forall k,
  fold_left (fun k ev =>
    match ev with
    | SDL_KEYDOWN SDLK_LEFT => k - 4
    | SDL_KEYDOWN SDLK_RIGHT => k + 4
    | _ => k
    end) evs k = k + breeze_keys evs.
Proof.
  unfold breeze_keys.
  induction evs as [|ev evs IH]; intros k; cbn [fold_left]; [lia|].
  rewrite IH. rewrite (IH (match ev with
                           | SDL_KEYDOWN SDLK_LEFT => 0 - 4
                           | SDL_KEYDOWN SDLK_RIGHT => 0 + 4
                           | _ => 0 end)).
  destruct ev as [| | [] |]; lia.
Qed.

Section Controls.
Context {RT : Runtime}.

Lemma handle_events_cons ev evs s :
  handle_events (ev :: evs) s = handle_events evs (handle_event ev s).
Proof. reflexivity. Qed.

Lemma handle_events_breeze evs : forall s k,
  fin (breeze s) -> ord (breeze s) = k * 2 ^ 149 ->
  Z.abs k + 4 * Z.of_nat (length evs) < 2 ^ 24 ->
  fin (breeze (handle_events evs s)) /\
  ord (breeze (handle_events evs s)) = (k + breeze_keys evs) * 2 ^ 149.
Proof.
  induction evs as [|ev evs IH]; intros s k [V F] E B.
  - cbn. split; [split; assumption|]. rewrite E. f_equal. lia.
  - rewrite handle_events_cons. cbn [length] in B.
    unfold breeze_keys. cbn [fold_left]. rewrite breeze_keys_acc.
    assert (fin (breeze (handle_event ev s)) /\
            ord (breeze (handle_event ev s))
            = (k + match ev with
                   | SDL_KEYDOWN SDLK_LEFT => 0 - 4
                   | SDL_KEYDOWN SDLK_RIGHT => 0 + 4
                   | _ => 0 end) * 2 ^ 149) as [F' E'].
    { destruct ev as [|w h|key|]; cbn [handle_event breeze];
        try (split; [split; assumption|rewrite E; f_equal; lia]).
      destruct key;
        try (split; [split; assumption|rewrite E; f_equal; lia]).
      - destruct (sub_spec (breeze s) f4 V eq_refl F eq_refl) as (Vs & Ns & Os).
        assert (ord (sub (breeze s) f4) = (k + (0 - 4)) * 2 ^ 149) as Q.
        { rewrite Os, E. change (ord f4) with (4 * 2 ^ 149).
          replace (k * 2 ^ 149 - 4 * 2 ^ 149) with ((k + (0 - 4)) * 2 ^ 149)
            by lia.
          apply RNZ_int. lia. }
        split; [split; [exact Vs|]|exact Q].
        apply (ord_int_fin _ (k + (0 - 4))); auto. lia.
      - destruct (add_spec (breeze s) f4 V eq_refl F eq_refl) as (Vs & Ns & Os).
        assert (ord (add (breeze s) f4) = (k + (0 + 4)) * 2 ^ 149) as Q.
        { rewrite Os, E. change (ord f4) with (4 * 2 ^ 149).
          replace (k * 2 ^ 149 + 4 * 2 ^ 149) with ((k + (0 + 4)) * 2 ^ 149)
            by lia.
          apply RNZ_int. lia. }
        split; [split; [exact Vs|]|exact Q].
        apply (ord_int_fin _ (k + (0 + 4))); auto. lia. }
    destruct (IH _ _ F' E') as [F'' E''].
    { destruct ev as [| | [] |]; lia. }
    split; [exact F''|]. rewrite E''. f_equal. lia.
Qed.

Lemma breeze_keys_bound evs :
  Z.abs (breeze_keys evs) <= 4 * Z.of_nat (length evs).
Proof.
  induction evs as [|ev evs IH]; [cbn; lia|].
  unfold breeze_keys. cbn [fold_left length]. rewrite breeze_keys_acc.
  destruct ev as [| | [] |]; lia.
Qed.

(** X7. The left and right arrows move the breeze by 4 with no bound on
    either side: from the 12 of the start, after any list of less than
    four million events the breeze is equal to 12 plus four times the
    number of right arrows minus four times the number of left arrows,
    whatever other events come in between.  It can so be zero or
    negative. *)
Theorem breeze_arrows (evs : list Event) (g : Rng) (ticks : Z) :
  4 * Z.of_nat (length evs) < 2 ^ 24 - 12 ->
  SFeqb (breeze (handle_events evs (initial g ticks)))
        (of_int (12 + breeze_keys evs)) = true.
Proof.
  intros B.
  destruct (handle_events_breeze evs (initial g ticks) 12) as [[V F] E].
  - split; reflexivity.
  - reflexivity.
  - lia.
  - pose proof (breeze_keys_bound evs) as K.
    destruct (of_int_exact (12 + breeze_keys evs) ltac:(lia)) as (Vi & Fi & Oi).
    unfold SFeqb.
    rewrite (compare_spec _ _ V Vi (finite_not_nan _ F) (finite_not_nan _ Fi)).
    rewrite E, Oi, Z.compare_refl. reflexivity.
Qed.

Lemma spawnPuff_app P E w h g :
  exists p, fst (spawnPuff P E w h g) = P ++ [p].
Proof.
  unfold spawnPuff.
  repeat match goal with |- context [frand ?g] => destruct (frand g) end.
  eexists. reflexivity.
Qed.

Lemma spawn_while_app fuel : forall timer P E w h g t' P' g',
  spawn_while fuel timer P E w h g = Some (t', P', g') ->
  exists N, P' = P ++ N.
Proof.
  induction fuel as [|fuel IH]; intros timer P E w h g t' P' g' H;
    cbn [spawn_while] in H; destruct (geb timer one).
  - discriminate.
  - injection H as _ <- _. exists []. now rewrite app_nil_r.
  - destruct (spawnPuff_app P E w h g) as (p & Ep).
    destruct (spawnPuff P E w h g) as [P1 g1]. cbn [fst] in Ep. subst P1.
    destruct (IH _ _ _ _ _ _ _ _ _ H) as (N & ->).
    exists (p :: N). rewrite <- app_assoc. reflexivity.
  - injection H as _ <- _. exists []. now rewrite app_nil_r.
Qed.

Lemma frame_keeps (fuel : nat) (now : Z) (s s' : Sim) :
  frame fuel now s = Some s' ->
  running s' = running s /\ winW s' = winW s /\ winH s' = winH s /\
  breeze s' = breeze s.
Proof.
  unfold frame.
  destruct (emit fuel (emitterTimerA s) _ (puffs s) _ _ _ _)
    as [[[tA P1] g1]|]; [|discriminate].
  destruct (emit fuel (emitterTimerB s) _ P1 _ _ _ _)
    as [[[tB P2] g2]|]; [|discriminate].
  destruct (frand g2) as [u g3].
  destruct (if ltb u _ then _ else _) as [P3 g4].
  intros H. injection H as <-. repeat split.
Qed.

(** X8. A frame appends the puffs it spawns behind the puffs there are,
    then updates them all with the clamped time step of the tick
    counter; it records the tick count and leaves the viewport, the
    emitters, the breeze and the running flag as they are. *)
Theorem frame_controls (fuel : nat) (now : Z) (s s' : Sim) :
  frame fuel now s = Some s' ->
  (exists N,
     puffs s' = updatePuffs (puffs s ++ N) (tick_dt now (lastTicks s))
                            (breeze s) (winW s) (winH s)) /\
  lastTicks s' = now /\
  winW s' = winW s /\ winH s' = winH s /\ emitters s' = emitters s /\
  breeze s' = breeze s /\ running s' = running s.
Proof.
  unfold frame. fold (tick_dt now (lastTicks s)).
  set (dt := tick_dt now (lastTicks s)).
  destruct (emit fuel (emitterTimerA s) dt (puffs s) _ _ _ _)
    as [[[tA P1] g1]|] eqn:EA; [|discriminate].
  destruct (emit fuel (emitterTimerB s) dt P1 _ _ _ _)
    as [[[tB P2] g2]|] eqn:EB; [|discriminate].
  destruct (spawn_while_app _ _ _ _ _ _ _ _ _ _ EA) as (NA & ->).
  destruct (spawn_while_app _ _ _ _ _ _ _ _ _ _ EB) as (NB & ->).
  destruct (frand g2) as [u g3].
  destruct (ltb u (mul (mul f0_02 dt) f60)).
  - destruct (frand g3) as [v g']. 
    match goal with |- context [spawnPuff ?P ?E ?w ?h ?g] =>
      destruct (spawnPuff_app P E w h g) as (p & Ep);
      destruct (spawnPuff P E w h g) as [P3 g4] end.
    cbn [fst] in Ep. subst P3.
    intros H. injection H as <-. cbn.
    repeat split. exists (NA ++ NB ++ [p]). now rewrite <- !app_assoc.
  - intros H. injection H as <-. cbn.
    repeat split. exists (NA ++ NB). now rewrite <- !app_assoc.
Qed.

(** X9. The quit event and the keys Escape and q clear the running
    flag, and nothing sets it again: no event and no frame.  So the flag
    is cleared after a list of events as soon as one of the three is in
    the list, wherever it stands. *)
Theorem quit_is_final :
  (forall s ev,
     ev = SDL_QUIT \/ ev = SDL_KEYDOWN SDLK_ESCAPE \/ ev = SDL_KEYDOWN SDLK_q ->
     running (handle_event ev s) = false) /\
  (forall s ev, running s = false -> running (handle_event ev s) = false) /\
  (forall fuel now s s',
     running s = false -> frame fuel now s = Some s' -> running s' = false) /\
  (forall evs s,
     In SDL_QUIT evs \/ In (SDL_KEYDOWN SDLK_ESCAPE) evs \/
     In (SDL_KEYDOWN SDLK_q) evs ->
     running (handle_events evs s) = false).
Proof.
  assert (forall s ev, running s = false ->
                       running (handle_event ev s) = false) as Keep.
  { intros s ev H. destruct ev as [| | [] |]; cbn; auto. }
  assert (forall evs s, running s = false ->
                        running (handle_events evs s) = false) as Keeps.
  { induction evs as [|ev evs IH]; intros s H; [exact H|].
    rewrite handle_events_cons. apply IH, Keep, H. }
  split; [|split; [exact Keep|split]].
  - intros s ev [->|[->| ->]]; reflexivity.
  - intros fuel now s s' H F.
    destruct (frame_keeps _ _ _ _ F) as (-> & _). exact H.
  - induction evs as [|ev evs IH]; intros s H.
    + destruct H as [[]|[[]|[]]].
    + rewrite handle_events_cons.
      assert (ev = SDL_QUIT \/ ev = SDL_KEYDOWN SDLK_ESCAPE \/
              ev = SDL_KEYDOWN SDLK_q \/
              (In SDL_QUIT evs \/ In (SDL_KEYDOWN SDLK_ESCAPE) evs \/
               In (SDL_KEYDOWN SDLK_q) evs)) as [->|[->|[->|H']]]
        by (cbn in H; intuition).
      * apply Keeps. reflexivity.
      * apply Keeps. reflexivity.
      * apply Keeps. reflexivity.
      * apply IH, H'.
Qed.

(** X10. Of two resize events the later one decides: the state after
    both is the state after the second alone.  A resize and a key press
    can be taken in either order. *)
Theorem resize_last_wins (s : Sim) (w1 h1 w2 h2 : Z) (k : Key) :
  handle_event (SDL_WINDOWEVENT_SIZE_CHANGED w2 h2)
    (handle_event (SDL_WINDOWEVENT_SIZE_CHANGED w1 h1) s)
  = handle_event (SDL_WINDOWEVENT_SIZE_CHANGED w2 h2) s /\
  handle_event (SDL_KEYDOWN k)
    (handle_event (SDL_WINDOWEVENT_SIZE_CHANGED w1 h1) s)
  = handle_event (SDL_WINDOWEVENT_SIZE_CHANGED w1 h1)
      (handle_event (SDL_KEYDOWN k) s).
Proof.
  destruct s as [w h es tA tB P run last br g].
  split.
  - destruct es as [|a [|b l]]; reflexivity.
  - destruct k; destruct es as [|a [|b l]]; reflexivity.
Qed.

End Controls.

Lemma breeze_arrows_witness :
  SFeqb (breeze (@handle_events sample_runtime
                   [SDL_KEYDOWN SDLK_LEFT; SDL_KEYDOWN SDLK_LEFT;
                    SDL_KEYDOWN SDLK_LEFT; SDL_KEYDOWN SDLK_LEFT]
                   sample_start))
        (of_int (-4)) = true.
Proof.
  apply (@breeze_arrows sample_runtime
           [SDL_KEYDOWN SDLK_LEFT; SDL_KEYDOWN SDLK_LEFT;
            SDL_KEYDOWN SDLK_LEFT; SDL_KEYDOWN SDLK_LEFT] 1 0).
  vm_compute. reflexivity.
Defined.

(** ** The rates and the credits of the states the program reaches *)

Lemma within_weaken lo hi lo' hi' x :
  within lo hi x -> ord lo' <= ord lo -> ord hi <= ord hi' -> within lo' hi' x.
Proof. intros [F [A B]] L H. split; [exact F|lia]. Qed.

Lemma ord_int_fin_le x k :
  valid x = true -> is_nan x = false -> k < 2 ^ 24 ->
  0 <= ord x <= k * 2 ^ 149 -> is_finite x = true.
Proof.
  intros V N K E. apply finite_of_ord; auto.
  assert (omega = 2 ^ 128 * 2 ^ 149) as -> by reflexivity.
  assert (0 < 2 ^ 149) by (apply Z.pow_pos_nonneg; lia).
  assert (2 ^ 24 < 2 ^ 128) by (apply Z.pow_lt_mono_r; lia).
  nia.
Qed.

Lemma rate_up_bounded q :
  within f0_6 rate_cap q -> within f0_6 rate_cap (add q f0_8).
Proof.
  intros W.
  apply (within_weaken (add f0_6 f0_8) (add rate_cap f0_8)).
  - apply within_add_c; try fin_const. exact W.
  - vm_compute. discriminate.
  - vm_compute. discriminate.
Qed.

Lemma rate_down_bounded q :
  within f0_6 rate_cap q ->
  within f0_6 rate_cap (F32.max f0_6 (sub q f0_8)).
Proof.
  intros W.
  assert (within (sub f0_6 f0_8) (sub rate_cap f0_8) (sub q f0_8))
    as [[V F] [_ O]]
    by (apply within_sub_c; try fin_const; exact W).
  unfold F32.max. destruct (ltb f0_6 (sub q f0_8)) eqn:L.
  - pose proof (ltb_true_ord f0_6 _ eq_refl V L).
    split; [split; assumption|].
    assert (ord (sub rate_cap f0_8) <= ord rate_cap)
      by (vm_compute; discriminate).
    lia.
  - split; [fin_const|]. split; [lia|vm_compute; discriminate].
Qed.

Section Invariants.
Context {RT : Runtime}.

Lemma Reachable_rate_bounded s :
  Reachable s -> Forall rate_bounded (emitters s).
Proof.
  induction 1 as [g ticks|ev s R IH|fuel now s s' R IH F].
  - cbn. repeat constructor; try reflexivity; vm_compute; discriminate.
  - destruct ev as [|w h|k|]; cbn [handle_event emitters]; auto.
    + apply Forall_modify; [|apply Forall_modify; [|exact IH]];
        intros e He; exact He.
    + destruct k; auto.
      * apply Forall_forall. intros e He. apply in_map_iff in He.
        destruct He as (e0 & <- & H0).
        rewrite Forall_forall in IH.
        unfold rate_bounded. cbn [set_rate Emitter.rate].
        apply rate_up_bounded, IH, H0.
      * apply Forall_forall. intros e He. apply in_map_iff in He.
        destruct He as (e0 & <- & H0).
        rewrite Forall_forall in IH.
        unfold rate_bounded. cbn [set_rate Emitter.rate].
        apply rate_down_bounded, IH, H0.
  - rewrite (frame_emitters _ _ _ _ F). exact IH.
Qed.

Lemma Reachable_nth_rate s i :
  Reachable s -> (i < 2)%nat -> rate_bounded (nth_emitter i s).
Proof.
  intros R Hi. pose proof (Reachable_rate_bounded s R) as B.
  destruct (Reachable_two s R) as (e0 & e1 & E).
  unfold nth_emitter. rewrite E in *.
  inversion B as [|? ? B0 B']; subst. inversion B' as [|? ? B1 _]; subst.
  destruct i as [|[|i]]; [exact B0|exact B1|lia].
Qed.

(** The credit after the addition of [dt * rate]. *)
Lemma credit_add t dt q :
  credit_ok t -> within zero f0_033 dt -> within f0_6 rate_cap q ->
  fin (add t (mul dt q)) /\
  0 <= ord (add t (mul dt q)) <= 553650 * 2 ^ 149.
Proof.
  intros [[Vt Ft] Ot] [[Vd Fd] Od] [[Vq Fq] Oq].
  change (ord zero) with 0 in Od.
  assert (0 <= ord f0_6) as P6 by (vm_compute; discriminate).
  destruct (mul_nonneg dt q Vd Vq Fd Fq ltac:(lia) ltac:(lia))
    as (Vm & Nm & Om).
  pose proof (mul_mono dt q f0_033 rate_cap Vd Vq eq_refl eq_refl Fd Fq
                eq_refl eq_refl ltac:(lia) ltac:(lia)) as Um.
  assert (within zero (mul f0_033 rate_cap) (mul dt q)) as [[_ Fm] _].
  { apply within_fin; auto; try fin_const;
      try (change (ord zero) with 0; lia). }
  destruct (add_spec t (mul dt q) Vt Vm Ft Fm) as (Va & Na & _).
  pose proof (add_mono zero zero t (mul dt q) eq_refl eq_refl Vt Vm
                eq_refl eq_refl Ft Fm ltac:(change (ord zero) with 0; lia)
                ltac:(change (ord zero) with 0; lia)) as La.
  pose proof (add_mono t (mul dt q) one (mul f0_033 rate_cap) Vt Vm
                eq_refl eq_refl Ft Fm eq_refl eq_refl
                ltac:(lia) Um) as Ua.
  change (ord (add zero zero)) with 0 in La.
  assert (ord (add one (mul f0_033 rate_cap)) <= 553650 * 2 ^ 149) as C
    by (vm_compute; discriminate).
  assert (within zero (add one (mul f0_033 rate_cap)) (add t (mul dt q)))
    as [F _].
  { apply within_fin; auto; try fin_const;
      try (change (ord zero) with 0; lia). }
  split; [exact F|lia].
Qed.

Lemma geb_one_ord t :
  fin t -> geb t one = (ord one <=? ord t).
Proof.
  intros [V F]. apply geb_ord; auto using finite_not_nan.
Qed.

(** One turn of the loop: the credit goes down by one, exactly or
    rounded, and stays a finite number that is not negative. *)
Lemma credit_down t K :
  fin t -> ord one <= ord t -> ord t <= K * 2 ^ 149 -> K < 2 ^ 24 ->
  fin (sub t one) /\ 0 <= ord (sub t one) <= (K - 1) * 2 ^ 149 /\
  ord (sub t one) <= ord t.
Proof.
  intros [V F] L U B.
  change (ord one) with (2 ^ 149) in L.
  assert (0 < 2 ^ 149) as P by (apply Z.pow_pos_nonneg; lia).
  destruct (sub_spec t one V eq_refl F eq_refl) as (Vs & Ns & Os).
  change (ord one) with (2 ^ 149) in Os.
  assert (1 <= K) as K1 by nia.
  pose proof (RN_mono 0 (ord t - 2 ^ 149) (-149) ltac:(lia)) as L0.
  pose proof (RN_mono (ord t - 2 ^ 149) ((K - 1) * 2 ^ 149) (-149)
                ltac:(lia)) as L1.
  fold (RNZ (ord t - 2 ^ 149)) in L0, L1.
  fold (RNZ ((K - 1) * 2 ^ 149)) in L1.
  rewrite (RNZ_int (K - 1)) in L1 by lia.
  change (RN 0 (-149)) with 0 in L0.
  pose proof (RNZ_le_ord (ord t - 2 ^ 149) t V ltac:(lia)) as L2.
  rewrite <- Os in L0, L1, L2.
  split; [|lia].
  split; [exact Vs|].
  apply (ord_int_fin_le (sub t one) (K - 1)); auto; lia.
Qed.

End Invariants.

Section Loop.
Context {RT : Runtime}.

(** The credit that the loop leaves is a credit of [0, 1). *)
Lemma spawn_while_credit_ok fuel : forall timer K P E w h g t' P' g',
  fin timer -> 0 <= ord timer <= K * 2 ^ 149 -> K < 2 ^ 24 ->
  spawn_while fuel timer P E w h g = Some (t', P', g') -> credit_ok t'.
Proof.
  induction fuel as [|fuel IH]; intros timer K P E w h g t' P' g' Ft O B H;
    cbn [spawn_while] in H; rewrite (geb_one_ord timer Ft) in H;
    destruct (Z.leb_spec (ord one) (ord timer)) as [L|L].
  - discriminate.
  - injection H as <- _ _. split; [exact Ft|lia].
  - destruct (spawnPuff P E w h g) as [P1 g1].
    destruct (credit_down timer K Ft L ltac:(lia) B) as (Fs & Os & _).
    apply (IH _ (K - 1) _ _ _ _ _ _ _ _ Fs Os ltac:(lia) H).
  - injection H as <- _ _. split; [exact Ft|lia].
Qed.

(** With a credit of at most [K] the loop ends within [K] turns. *)
Lemma spawn_while_ends fuel : forall timer K P E w h g,
  fin timer -> ord timer <= K * 2 ^ 149 -> K < 2 ^ 24 ->
  K < Z.of_nat fuel ->
  exists r, spawn_while fuel timer P E w h g = Some r.
Proof.
  induction fuel as [|fuel IH]; intros timer K P E w h g Ft O B Hf;
    cbn [spawn_while]; rewrite (geb_one_ord timer Ft);
    destruct (Z.leb_spec (ord one) (ord timer)) as [L|L].
  - exfalso. change (ord one) with (2 ^ 149) in L.
    assert (0 < 2 ^ 149) by (apply Z.pow_pos_nonneg; lia).
    cbn in Hf. nia.
  - eexists. reflexivity.
  - destruct (spawnPuff P E w h g) as [P1 g1].
    destruct (credit_down timer K Ft L O B) as (Fs & Os & _).
    apply (IH _ (K - 1)); auto; lia.
  - eexists. reflexivity.
Qed.

Lemma frame_tick fuel now s :
  frame fuel now s
  = let dt := tick_dt now (lastTicks s) in
    let w := winW s in
    let h := winH s in
    match emit fuel (emitterTimerA s) dt (puffs s) (nth_emitter 0 s) w h (rng s)
    with
    | None => None
    | Some (tA, P1, g1) =>
        match emit fuel (emitterTimerB s) dt P1 (nth_emitter 1 s) w h g1 with
        | None => None
        | Some (tB, P2, g2) =>
            let (u, g3) := frand g2 in
            let (P3, g4) :=
              if ltb u (mid_threshold dt) then
                let (v, g') := frand g3 in
                let mid :=
                  Emitter.mk (mul (of_int w) f0_30) (mul (of_int w) f0_70)
                             (add (mul (of_int h) f0_45) (mul v f50)) one in
                spawnPuff P2 mid w h g'
              else (P2, g3) in
            Some (mkSim w h (emitters s) tA tB
                        (updatePuffs P3 dt (breeze s) w h)
                        (running s) now (breeze s) g4)
        end
    end.
Proof. reflexivity. Qed.

Lemma Reachable_credit s :
  Reachable s -> credit_ok (emitterTimerA s) /\ credit_ok (emitterTimerB s).
Proof.
  induction 1 as [g ticks|ev s R IH|fuel now s s' R IH F].
  - split; (split; [fin_const|split; [reflexivity|reflexivity]]).
  - destruct ev as [|w h|k|]; exact IH.
  - destruct IH as [CA CB]. rewrite frame_tick in F. cbv zeta in F.
    pose proof (tick_dt_within now (lastTicks s)) as Wd.
    destruct (emit fuel (emitterTimerA s) _ (puffs s) _ _ _ _)
      as [[[tA P1] g1]|] eqn:EA; [|discriminate].
    destruct (emit fuel (emitterTimerB s) _ P1 _ _ _ _)
      as [[[tB P2] g2]|] eqn:EB; [|discriminate].
    unfold emit in EA, EB.
    destruct (credit_add _ _ _ CA Wd (Reachable_nth_rate s 0 R ltac:(lia)))
      as (FA & OA).
    destruct (credit_add _ _ _ CB Wd (Reachable_nth_rate s 1 R ltac:(lia)))
      as (FB & OB).
    pose proof (spawn_while_credit_ok _ _ 553650 _ _ _ _ _ _ _ _ FA OA
                  ltac:(lia) EA) as CA'.
    pose proof (spawn_while_credit_ok _ _ 553650 _ _ _ _ _ _ _ _ FB OB
                  ltac:(lia) EB) as CB'.
    destruct (frand g2) as [u g3].
    destruct (if ltb u _ then _ else _) as [P3 g4].
    injection F as <-. cbn. split; assumption.
Qed.

(** X11. In every state the program reaches the rate of each emitter
    is a finite number between 0.6 and 16777216, where the up key stops
    to raise it (0.8 is less than half the distance to the next binary32
    number), and each of the two spawn credits is a finite number of
    [0, 1): what the loop of a frame leaves is less than one puff. *)
Theorem Reachable_rates_credits (s : Sim) :
  Reachable s ->
  Forall (fun e =>
            is_finite (Emitter.rate e) = true /\
            leb f0_6 (Emitter.rate e) = true /\
            leb (Emitter.rate e) (of_int 16777216) = true)
         (emitters s) /\
  (is_finite (emitterTimerA s) = true /\
   leb zero (emitterTimerA s) = true /\ ltb (emitterTimerA s) one = true) /\
  (is_finite (emitterTimerB s) = true /\
   leb zero (emitterTimerB s) = true /\ ltb (emitterTimerB s) one = true) /\
  add (of_int 16777216) f0_8 = of_int 16777216.
Proof.
  intros R. split; [|split; [|split; [|reflexivity]]].
  - eapply Forall_impl; [|exact (Reachable_rate_bounded s R)].
    intros e W. destruct (within_leb f0_6 rate_cap _ ltac:(fin_const) ltac:(fin_const) W)
      as [A B].
    destruct W as [[V F] _]. auto.
  - destruct (Reachable_credit s R) as [[[V F] O] _].
    split; [exact F|]. split.
    + apply ord_leb; auto using finite_not_nan. apply O.
    + rewrite ltb_ord; auto using finite_not_nan. apply Z.ltb_lt, O.
  - destruct (Reachable_credit s R) as [_ [[V F] O]].
    split; [exact F|]. split.
    + apply ord_leb; auto using finite_not_nan. apply O.
    + rewrite ltb_ord; auto using finite_not_nan. apply Z.ltb_lt, O.
Qed.

(** X12. From every state the program reaches a frame comes to its end:
    each of the two spawn loops stops within 553650 turns, whatever the
    tick count read.  (The fuel of the model only has to be larger than
    that.) *)
Theorem frame_terminates (s : Sim) (now : Z) (fuel : nat) :
  Reachable s -> 553650 < Z.of_nat fuel ->
  exists s', frame fuel now s = Some s'.
Proof.
  intros R Hf. destruct (Reachable_credit s R) as [CA CB].
  rewrite frame_tick. cbv zeta.
  pose proof (tick_dt_within now (lastTicks s)) as Wd.
  destruct (credit_add _ _ _ CA Wd (Reachable_nth_rate s 0 R ltac:(lia)))
    as (FA & OA).
  destruct (credit_add _ _ _ CB Wd (Reachable_nth_rate s 1 R ltac:(lia)))
    as (FB & OB).
  unfold emit.
  destruct (spawn_while_ends fuel _ 553650 (puffs s) (nth_emitter 0 s)
              (winW s) (winH s) (rng s) FA ltac:(lia) ltac:(lia) Hf)
    as ([[tA P1] g1] & ->).
  destruct (spawn_while_ends fuel _ 553650 P1 (nth_emitter 1 s)
              (winW s) (winH s) g1 FB ltac:(lia) ltac:(lia) Hf)
    as ([[tB P2] g2] & ->).
  destruct (frand g2) as [u g3].
  destruct (if ltb u _ then _ else _) as [P3 g4].
  eexists. reflexivity.
Qed.

(** X13. The loop [while (timer >= 1.f) { ...; timer -= 1.f; }] does not
    end on every credit: on a credit that the subtraction of one leaves
    as it is (an infinity, or a binary32 number from 33554432 on, where
    one is less than half the distance to the next number) it runs for
    ever, so no fuel is enough, for the loop and for its count. *)
Theorem spawn_loop_diverges (timer : float) (fuel : nat) (P : list Puff.t)
  (E : Emitter.t) (w h : Z) (g : Rng) :
  geb timer one = true -> sub timer one = timer ->
  spawn_while fuel timer P E w h g = None /\ credit_while fuel timer = None.
Proof.
  intros G S. split.
  - revert P g. induction fuel as [|fuel IH]; intros P g;
      cbn [spawn_while]; rewrite G; [reflexivity|].
    destruct (spawnPuff P E w h g) as [P1 g1]. rewrite S. apply IH.
  - induction fuel as [|fuel IH]; cbn [credit_while]; rewrite G;
      [reflexivity|]. rewrite S, IH. reflexivity.
Qed.

(** X14. A frame that reads the tick count of the frame before has a
    time step of zero: for a [rand] that keeps to its range it spawns no
    puff, neither from the two emitters nor at mid level, takes one draw
    of [rand], and updates the puffs there are with a time step of zero.
    It needs no turn of the spawn loops. *)
Theorem frame_no_time (s : Sim) (fuel : nat) :
  rand_in_range -> Reachable s ->
  exists s',
    frame fuel (lastTicks s) s = Some s' /\
    puffs s' = updatePuffs (puffs s) zero (breeze s) (winW s) (winH s) /\
    rng s' = snd (rand (rng s)).
Proof.
  intros HR R. destruct (Reachable_credit s R) as [CA CB].
  rewrite frame_tick. cbv zeta.
  assert (tick_dt (lastTicks s) (lastTicks s) = zero) as ->.
  { unfold tick_dt. rewrite Z.sub_diag. reflexivity. }
  assert (forall t q P E w h g,
            credit_ok t -> within f0_6 rate_cap q ->
            exists t', emit fuel t zero P (Emitter.mk (Emitter.x0 E)
                         (Emitter.x1 E) (Emitter.y E) q) w h g
                       = Some (t', P, g)) as NoSpawn.
  { intros t q P E w h g [[Vt Ft] Ot] [[Vq Fq] Oq].
    unfold emit. cbn [Emitter.rate].
    assert (mul zero q = zero) as ->.
    { assert (0 < ord q) as Pq.
      { eapply Z.lt_le_trans; [|apply Oq]. vm_compute. reflexivity. }
      destruct (pos_finite q Fq Pq) as (m & e & ->). reflexivity. }
    destruct (add_spec t zero Vt eq_refl Ft eq_refl) as (Va & Na & Oa).
    change (ord zero) with 0 in Oa. rewrite Z.add_0_r, (RNZ_ord t Vt) in Oa.
    assert (fin (add t zero)) as Fa.
    { split; [exact Va|]. apply finite_of_ord; auto. rewrite Oa.
      apply ord_finite_lt; auto. }
    exists (add t zero).
    destruct fuel; cbn [spawn_while]; rewrite (geb_one_ord _ Fa), Oa;
      destruct (Z.leb_spec (ord one) (ord t)); try lia; reflexivity. }
  pose proof (Reachable_nth_rate s 0 R ltac:(lia)) as B0.
  pose proof (Reachable_nth_rate s 1 R ltac:(lia)) as B1.
  destruct (NoSpawn (emitterTimerA s) _ (puffs s) (nth_emitter 0 s)
              (winW s) (winH s) (rng s) CA B0) as (tA & EA).
  destruct (NoSpawn (emitterTimerB s) _ (puffs s) (nth_emitter 1 s)
              (winW s) (winH s) (rng s) CB B1) as (tB & EB).
  destruct (nth_emitter 0 s) as [a0 b0 c0 q0].
  destruct (nth_emitter 1 s) as [a1 b1 c1 q1].
  cbn [Emitter.x0 Emitter.x1 Emitter.y Emitter.rate] in EA, EB.
  rewrite EA, EB.
  pose proof (frand_within (rng s) HR) as [[Vu Fu] [Ou _]].
  pose proof (frand_snd (rng s)) as Su.
  destruct (frand (rng s)) as [u g3]. cbn [fst snd] in *.
  change (mid_threshold zero) with zero.
  rewrite (ltb_ord u zero Vu eq_refl (finite_not_nan _ Fu) eq_refl).
  destruct (Z.ltb_spec (ord u) (ord zero)) as [L|L]; [lia|].
  eexists. split; [reflexivity|]. cbn. split; [reflexivity|exact Su].
Qed.

End Loop.

(** ** The rings of a blob, for every count of rings *)

Lemma zero_of_ord x :
  valid x = true -> is_finite x = true -> ord x = 0 ->
  exists s, x = S754_zero s.
Proof.
  intros V F O. destruct x as [s|s| |s m e]; try discriminate.
  - eexists. reflexivity.
  - pose proof (ord_finite_pos _ _ _ V). destruct s; cbn [ord cond_Zopp] in O; lia.
Qed.

Lemma mul_one_l x : valid x = true -> mul one x = x.
Proof.
  intros V. destruct (is_finite x) eqn:F.
  - destruct (mul_spec one x eq_refl V eq_refl F) as (Vm & Nm & Om).
    change (ord one) with (2 ^ 149) in Om.
    assert (ord (mul one x) = ord x) as E.
    { rewrite Om, Z.mul_comm.
      change (-298) with (-149 - 149).
      rewrite (RN_shift (ord x) (-149) 149) by lia.
      apply RNZ_ord, V. }
    destruct (Z.eq_dec (ord x) 0) as [O0|NZ].
    + destruct (zero_of_ord x V F O0) as (s & ->). destruct s; reflexivity.
    + apply ord_inj; auto using finite_not_nan. congruence.
  - destruct x as [s|s| |s m e]; try discriminate; [destruct s|]; reflexivity.
Qed.

Lemma div_self x :
  valid x = true -> is_finite x = true -> 0 < ord x -> div x x = one.
Proof.
  intros V F P. destruct (div_spec _ _ V V F F P) as (Vd & Nd & Od).
  unfold SRQ in Od. destruct (Z.ltb_spec (ord x) 0); [lia|].
  rewrite (RQ_self _ P) in Od.
  apply ord_inj; auto. rewrite Od. vm_compute. discriminate.
Qed.

Section Rings.
Context {RT : Runtime}.

Lemma ring_t_last rings : 0 < rings < 2 ^ 31 -> ring_t (rings - 1) rings = one.
Proof.
  intros H. unfold ring_t. replace (rings - 1 + 1) with rings by lia.
  destruct (of_int_nonneg rings ltac:(lia)) as (V & F & _ & P).
  apply div_self; auto. apply P. lia.
Qed.

Lemma ring_t_range rings i j :
  0 < rings < 2 ^ 31 -> 0 <= i -> i <= j -> j < rings ->
  ltb zero (ring_t i rings) = true /\
  leb (ring_t i rings) (ring_t j rings) = true /\
  leb (ring_t j rings) one = true.
Proof.
  intros H Hi Hij Hj. unfold ring_t.
  destruct (of_int_nonneg rings ltac:(lia)) as (V & F & _ & P).
  specialize (P ltac:(lia)).
  destruct (of_int_nonneg (i + 1) ltac:(lia)) as (Vi & Fi & _ & Pi).
  specialize (Pi ltac:(lia)).
  destruct (of_int_nonneg (j + 1) ltac:(lia)) as (Vj & Fj & Pj & _).
  pose proof (of_int_mono (i + 1) (j + 1) ltac:(lia)) as Mij.
  pose proof (of_int_mono (j + 1) rings ltac:(lia)) as Mj.
  pose proof (of_int_mono 1 (i + 1) ltac:(lia)) as M1.
  pose proof (of_int_mono rings (2 ^ 31) ltac:(lia)) as Mr.
  change (ord (of_int 1)) with (2 ^ 149) in M1.
  change (ord (of_int (2 ^ 31))) with (2 ^ 31 * 2 ^ 149) in Mr.
  destruct (div_spec _ _ Vi V Fi F P) as (Vd & Nd & Od).
  destruct (div_mono_num (of_int (i + 1)) (of_int (j + 1)) (of_int rings)
              Vi Vj V F P (finite_not_nan _ Fi) (finite_not_nan _ Fj) Mij)
    as (_ & Nj & Oij).
  destruct (div_unit (of_int (j + 1)) (of_int rings) Vj V Fj F
              ltac:(lia) P) as (Vdj & Fdj & Odj).
  split; [|split].
  - rewrite ltb_ord; auto. apply Z.ltb_lt. change (ord zero) with 0.
    rewrite Od. unfold SRQ.
    destruct (Z.ltb_spec (ord (of_int (i + 1))) 0); [lia|].
    assert (RNZ 1 <= RQ (ord (of_int (i + 1))) (ord (of_int rings))) as L.
    { apply RQ_lower; lia. }
    assert (RNZ 1 = 1) as E1 by (vm_compute; reflexivity).
    lia.
  - apply ord_leb; auto.
  - apply ord_leb; auto using finite_not_nan. lia.
Qed.

(** X15. For every count of rings (a positive [int]) the rings of a
    soft blob have radius fractions that are positive, do not go down
    from one ring to the next, and end at exactly 1: the last fan drawn
    has the radius [R] of the blob itself, and an alpha equal to zero
    when [pow(+0, 1.6f)] is [+0] and the peak is finite.  With a count
    of rings that is zero or negative nothing is drawn (and nothing is
    divided by zero). *)
Theorem blob_rings (cx cy R : float) (rgb : float * float * float)
  (peak : float) (rings : Z) :
  (rings <= 0 -> drawSoftBlob cx cy R rgb peak rings = []) /\
  (0 < rings < 2 ^ 31 ->
   (forall i j, 0 <= i -> i <= j -> j < rings ->
      ltb zero (ring_t i rings) = true /\
      leb (ring_t i rings) (ring_t j rings) = true /\
      leb (ring_t j rings) one = true) /\
   ring_t (rings - 1) rings = one /\
   forall d,
     let f := last (drawSoftBlob cx cy R rgb peak rings) d in
     (valid R = true ->
      fan_verts f
      = [cx; cy] ++ flat_map (fun s => fan_vertex cx cy R (Z.of_nat s))
                             (seq 0 33)) /\
     (powf zero f1_6 = zero -> is_finite peak = true ->
      SFeqb (fan_alpha f) zero = true)).
Proof.
  split.
  - intros H. unfold drawSoftBlob.
    replace (Z.to_nat rings) with 0%nat by lia. reflexivity.
  - intros H. split; [|split].
    + intros i j Hi Hij Hj. now apply ring_t_range.
    + now apply ring_t_last.
    + intros d f. subst f. unfold drawSoftBlob.
      assert (Z.to_nat rings = S (Z.to_nat (rings - 1))) as -> by lia.
      rewrite seq_S, map_app. cbn [map Nat.add]. rewrite last_last.
      rewrite Z2Nat.id by lia.
      unfold ring. cbn [fan_verts fan_alpha]. unfold ring_alpha.
      rewrite (ring_t_last rings H). split.
      * intros V. rewrite (mul_one_l R V). reflexivity.
      * intros Hp Hf. change (sub one one) with zero. rewrite Hp.
        destruct peak as [s|s| |s m e]; try discriminate; reflexivity.
Qed.

(** The peak alpha of a cloud puff. *)
Lemma cloud_peak_range r :
  valid r = true -> is_finite r = true -> 0 <= ord r ->
  within zero f0_22 (cloud_peak r).
Proof.
  intros V F P. unfold cloud_peak.
  destruct (mul_nonneg f0_004 r eq_refl V eq_refl F
              ltac:(vm_compute; discriminate) P) as (Vm & Nm & Om).
  destruct (add_nonneg one _ eq_refl Vm eq_refl Nm Om) as (Va & Na & Oa).
  set (d := add one (mul f0_004 r)) in *.
  assert (within zero one (div one d)) as W.
  { destruct (is_finite d) eqn:Fd.
    - assert (0 < ord d) as Pd.
      { eapply Z.lt_le_trans; [|exact Oa]. vm_compute. reflexivity. }
      destruct (div_unit one d eq_refl Va eq_refl Fd
                  ltac:(split; [vm_compute; discriminate|exact Oa]) Pd)
        as (Vq & Fq & Oq).
      split; [split; assumption|exact Oq].
    - assert (0 <= ord d) as Pd.
      { eapply Z.le_trans; [|exact Oa]. vm_compute. discriminate. }
      rewrite (nonneg_inf d Na Fd Pd).
      split; [fin_const|split; vm_compute; discriminate]. }
  apply (within_c_mul zero one f0_22) in W; try fin_const;
    [|vm_compute; discriminate].
  exact W.
Qed.

Lemma drawSoftBlob_length cx cy R rgb peak rings :
  length (drawSoftBlob cx cy R rgb peak rings) = Z.to_nat rings.
Proof. unfold drawSoftBlob. now rewrite length_map, length_seq. Qed.

Lemma drawClouds_length P : length (drawClouds P) = (9 * length P)%nat.
Proof.
  unfold drawClouds. induction P as [|p P IH]; [reflexivity|].
  cbn [flat_map]. rewrite length_app, IH, drawSoftBlob_length.
  cbn [length]. change (Z.to_nat 9) with 9%nat. lia.
Qed.

(** X16. [drawClouds] draws nine fans for each puff, the puffs in the
    order of the collection (so a later puff is painted over an earlier
    one), each fan centred on its puff; the haze of the sun adds ten
    fans after them.  The peak alpha of a puff with a finite radius
    that is not negative is between 0 and 0.22f. *)
Theorem drawClouds_fans (P Q : list Puff.t) (s : Sim) :
  drawClouds (P ++ Q) = drawClouds P ++ drawClouds Q /\
  length (drawClouds P) = (9 * length P)%nat /\
  length (scene_fans s) = (9 * length (puffs s) + 10)%nat /\
  (forall f, In f (drawClouds P) ->
     exists p, In p P /\
       firstn 2 (fan_verts f) = [Puff.x p; Puff.y p] /\
       fan_rgb f = cloud_rgb (Puff.whiten p)) /\
  (forall p, valid (Puff.r p) = true -> is_finite (Puff.r p) = true ->
     leb zero (Puff.r p) = true ->
     leb zero (cloud_peak (Puff.r p)) = true /\
     leb (cloud_peak (Puff.r p)) f0_22 = true).
Proof.
  split; [|split; [|split; [|split]]].
  - unfold drawClouds. apply flat_map_app.
  - apply drawClouds_length.
  - unfold scene_fans.
    rewrite length_app, drawClouds_length, drawSoftBlob_length.
    change (Z.to_nat 10) with 10%nat. lia.
  - intros f H. unfold drawClouds in H. apply in_flat_map in H.
    destruct H as (p & Hp & Hf). exists p. split; [exact Hp|].
    unfold drawSoftBlob in Hf. apply in_map_iff in Hf.
    destruct Hf as (i & <- & _). split; reflexivity.
  - intros p V F L.
    apply (within_leb zero f0_22); try fin_const.
    apply cloud_peak_range; auto.
    apply (leb_true_ord zero _ eq_refl V L).
Qed.

End Rings.

(** ** The puffs of the states the program reaches *)

Section Live.
Context {RT : Runtime}.

(** An invariant of the puffs that the spawn sets up and that the
    update keeps on the puffs it does not erase. *)
Lemma Reachable_puffs_live (Q : Puff.t -> Prop) :
  (forall P E w h g p, In p (fst (spawnPuff P E w h g)) -> In p P \/ Q p) ->
  (forall dt breeze winW winH p,
     within zero f0_033 dt -> Q p ->
     culled winH (update_puff dt breeze winW winH p) = false ->
     Q (update_puff dt breeze winW winH p)) ->
  forall s, Reachable s -> Forall Q (puffs s).
Proof.
  intros HS HU s R.
  induction R as [g ticks|ev s R IH|fuel now s s' R IH F].
  - constructor.
  - destruct ev as [|w h|k|]; cbn [handle_event puffs]; exact IH.
  - rewrite frame_tick in F. cbv zeta in F.
    pose proof (tick_dt_within now (lastTicks s)) as Wd.
    set (dt := tick_dt now (lastTicks s)) in *.
    destruct (emit fuel (emitterTimerA s) dt (puffs s) _ _ _ _)
      as [[[tA P1] g1]|] eqn:EA; [|discriminate].
    destruct (emit fuel (emitterTimerB s) dt P1 _ _ _ _)
      as [[[tB P2] g2]|] eqn:EB; [|discriminate].
    pose proof (spawn_while_Forall Q fuel HS _ _ _ _ _ _ _ _ _ IH EA) as H1.
    pose proof (spawn_while_Forall Q fuel HS _ _ _ _ _ _ _ _ _ H1 EB) as H2.
    destruct (frand g2) as [u g3].
    assert (Fin : forall P3,
              Forall Q P3 ->
              Forall Q (updatePuffs P3 dt (breeze s) (winW s) (winH s))).
    { intros P3 H3. apply Forall_forall. intros p Hp.
      apply updatePuffs_In in Hp. destruct Hp as (p0 & H0 & -> & C).
      apply HU; [exact Wd| |exact C]. rewrite Forall_forall in H3.
      now apply H3. }
    destruct (ltb u (mid_threshold dt)).
    + destruct (frand g3) as [v g'].
      match type of F with
      | context [spawnPuff ?P ?E ?w ?h ?g] =>
          pose proof (HS P E w h g) as HS3;
          destruct (spawnPuff P E w h g) as [P3 g4]
      end.
      cbn [fst] in HS3. injection F as <-. cbn [puffs]. apply Fin.
      apply Forall_forall. intros p Hp.
      destruct (HS3 p Hp) as [H|H]; [|exact H].
      rewrite Forall_forall in H2. now apply H2.
    + injection F as <-. cbn [puffs]. apply Fin. exact H2.
Qed.

Lemma Reachable_age s : rand_in_range -> Reachable s -> Forall age_ok (puffs s).
Proof.
  intros HR. apply Reachable_puffs_live.
  - intros P E w h g p Hp.
    destruct (spawnPuff_within P E w h g HR)
      as (p' & Ep & _ & L & _ & _ & _ & _ & _ & _ & Wm).
    rewrite Ep in Hp. apply in_app_iff in Hp.
    destruct Hp as [Hp|[<-|[]]]; [left; exact Hp|right].
    split; [exact Wm|]. rewrite L. split; [fin_const|].
    change (ord zero) with 0. split; [lia|].
    destruct Wm as [_ [O0 _]].
    eapply Z.le_trans; [|exact O0]. vm_compute. discriminate.
  - intros dt breeze winW winH p Wd (Wm & Fl & Ol) C.
    unfold culled in C. apply orb_false_iff in C. destruct C as [C _].
    cbn [update_puff Puff.life Puff.maxLife] in *.
    destruct Wm as [[Vm Fm] Om]. destruct Fl as [Vl Fl].
    destruct Wd as [[Vd Fd] Od]. change (ord zero) with 0 in Od.
    destruct (add_spec _ _ Vl Vd Fl Fd) as (Va & Na & Oa).
    destruct (add_nonneg _ _ Vl Vd Fl (finite_not_nan _ Fd) ltac:(lia))
      as (_ & _ & Oge).
    pose proof (not_gtb_leb _ _ Na (finite_not_nan _ Fm) C) as Lm.
    pose proof (leb_true_ord _ _ Va Vm Lm) as Ole.
    split; [split; [split; assumption|exact Om]|].
    cbn [update_puff Puff.life Puff.maxLife].
    split; [|lia].
    split; [exact Va|]. apply finite_of_ord; auto.
    pose proof (ord_finite_lt _ Vm Fm). lia.
Qed.

(** X17. For a [rand] that keeps to its range, every puff of every
    state the program reaches has a maximal life between 18 and 26
    seconds and an age that is a finite number between 0 and that
    maximal life: no puff is older than 26 seconds. *)
Theorem Reachable_puff_age (s : Sim) (p : Puff.t) :
  rand_in_range -> Reachable s -> In p (puffs s) ->
  (leb f18 (Puff.maxLife p) = true /\
   leb (Puff.maxLife p) (of_int 26) = true) /\
  is_finite (Puff.life p) = true /\
  leb zero (Puff.life p) = true /\
  leb (Puff.life p) (Puff.maxLife p) = true.
Proof.
  intros HR R Hp. pose proof (Reachable_age s HR R) as A.
  rewrite Forall_forall in A. destruct (A p Hp) as (Wm & [Vl Fl] & Ol).
  split; [apply within_leb; try fin_const; exact Wm|].
  destruct Wm as [[Vm Fm] _].
  split; [exact Fl|].
  split; apply ord_leb; auto using finite_not_nan;
    try reflexivity; try (change (ord zero) with 0); lia.
Qed.

End Live.

(** ** The band of the horizontal wrap *)

Lemma RNZ_mono a b : a <= b -> RNZ a <= RNZ b.
Proof. apply RN_mono. Qed.

(** X18. The wrap keeps the puffs in the band from -100 to
    [winW + 100]: a finite position that is at most one period
    ([winW + 200]) out of the band on either side comes back into it,
    and a position in the band stays where it is.  (For a viewport
    width below 8388000, where binary32 holds all the sums exactly.) *)
Theorem wrap_x_band (px : float) (winW : Z) :
  valid px = true -> is_finite px = true -> 0 <= winW < 8388000 ->
  leb (of_int (- (winW + 300))) px = true ->
  leb px (of_int (2 * winW + 300)) = true ->
  leb (neg f100) (wrap_x px winW) = true /\
  leb (wrap_x px winW) (add (of_int winW) f100) = true /\
  (leb (neg f100) px = true -> leb px (add (of_int winW) f100) = true ->
   wrap_x px winW = px).
Proof.
  intros Vx Fx HW L0 L1.
  assert (0 < 2 ^ 149) as P by (apply Z.pow_pos_nonneg; lia).
  change (2 ^ 24) with 16777216 in *.
  destruct (width_plus winW f200 200 eq_refl eq_refl eq_refl) as (VA & FA & OA);
    [change (2 ^ 24) with 16777216; lia..|].
  destruct (width_plus winW f100 100 eq_refl eq_refl eq_refl) as (VB & FB & OB);
    [change (2 ^ 24) with 16777216; lia..|].
  destruct (of_int_exact (- (winW + 300))) as (V0 & F0 & O0);
    [change (2 ^ 24) with 16777216; lia|].
  destruct (of_int_exact (2 * winW + 300)) as (V1 & F1 & O1);
    [change (2 ^ 24) with 16777216; lia|].
  pose proof (leb_true_ord _ _ V0 Vx L0) as Lo. rewrite O0 in Lo.
  pose proof (leb_true_ord _ _ Vx V1 L1) as Hi. rewrite O1 in Hi.
  pose proof (finite_not_nan _ Fx) as Nx.
  assert (ord (neg f100) = -100 * 2 ^ 149) as ON by reflexivity.
  assert (forall k, - 16777216 < k < 16777216 ->
                    RNZ (k * 2 ^ 149) = k * 2 ^ 149) as RI.
  { intros k Hk. apply RNZ_int. change (2 ^ 24) with 16777216. lia. }
  set (A := add (of_int winW) f200) in *.
  set (B := add (of_int winW) f100) in *.
  assert (forall y, valid y = true -> is_nan y = false ->
            -100 * 2 ^ 149 <= ord y <= (winW + 100) * 2 ^ 149 ->
            leb (neg f100) y = true /\ leb y B = true) as Band.
  { intros y Vy Ny Oy.
    split; apply ord_leb; auto using finite_not_nan; try reflexivity; lia. }
  unfold wrap_x. fold A B.
  destruct (ltb px (neg f100)) eqn:L.
  - pose proof (ltb_true_ord px (neg f100) Vx eq_refl L) as Ox.
    rewrite ON in Ox.
    destruct (add_spec px A Vx VA Fx FA) as (Va & Na & Oa).
    assert (-100 * 2 ^ 149 <= ord (add px A) <= (winW + 100) * 2 ^ 149) as Oy.
    { rewrite Oa, OA. split.
      - rewrite <- (RI (-100)) by lia. apply RNZ_mono. lia.
      - rewrite <- (RI (winW + 100)) by lia. apply RNZ_mono. lia. }
    assert (gtb (add px A) B = false) as G.
    { rewrite gtb_ord; auto using finite_not_nan. apply Z.ltb_ge. lia. }
    rewrite G. destruct (Band _ Va Na Oy) as [B0 B1].
    split; [exact B0|split; [exact B1|]].
    intros C _. pose proof (leb_true_ord (neg f100) px eq_refl Vx C) as Oc.
    lia.
  - assert (-100 * 2 ^ 149 <= ord px) as Ox.
    { rewrite ltb_ord in L; auto. apply Z.ltb_ge in L. lia. }
    destruct (gtb px B) eqn:G.
    + pose proof (gtb_true_ord px B Vx VB G) as Og. rewrite OB in Og.
      destruct (sub_spec px A Vx VA Fx FA) as (Va & Na & Oa).
      assert (-100 * 2 ^ 149 <= ord (sub px A) <= (winW + 100) * 2 ^ 149)
        as Oy.
      { rewrite Oa, OA. split.
        - rewrite <- (RI (-100)) by lia. apply RNZ_mono. lia.
        - rewrite <- (RI (winW + 100)) by lia. apply RNZ_mono. lia. }
      destruct (Band _ Va Na Oy) as [B0 B1].
      split; [exact B0|split; [exact B1|]].
      intros _ C. pose proof (leb_true_ord px B Vx VB C) as Oc. lia.
    + assert (ord px <= (winW + 100) * 2 ^ 149) as Og.
      { rewrite gtb_ord in G; auto using finite_not_nan.
        apply Z.ltb_ge in G. lia. }
      destruct (Band px Vx Nx ltac:(lia)) as [B0 B1].
      split; [exact B0|split; [exact B1|reflexivity]].
Qed.

Lemma wrap_x_band_witness :
  leb (neg f100) (wrap_x (of_int (-150)) 960) = true.
Proof.
  exact (proj1 (wrap_x_band (of_int (-150)) 960 eq_refl eq_refl
                  ltac:(lia) eq_refl eq_refl)).
Defined.

(** ** The layout of the scene *)

Lemma add_zero_l x : x <> S754_zero true -> add zero x = x.
Proof.
  destruct x as [[|]|s| |s m e]; intros H; try reflexivity.
  now destruct H.
Qed.

Lemma of_int_int n :
  - 2 ^ 31 <= n < 2 ^ 31 -> fin (of_int n).
Proof.
  intros H. destruct (of_int_spec n) as (V & N & _).
  pose proof (of_int_mono (- 2 ^ 31) n ltac:(lia)) as L0.
  pose proof (of_int_mono n (2 ^ 31) ltac:(lia)) as L1.
  apply (within_fin (of_int (- 2 ^ 31)) (of_int (2 ^ 31))); auto; fin_const.
Qed.

Lemma scaled_not_negzero n c :
  - 2 ^ 31 <= n < 2 ^ 31 -> fin c -> 0 <= ord c ->
  ord (mul (of_int (-1)) c) < 0 -> mul zero c = zero ->
  mul (of_int n) c <> S754_zero true.
Proof.
  intros H [Vc Fc] Pc Neg Z0 E.
  destruct (of_int_int n H) as [Vn Fn].
  destruct (Z.lt_trichotomy n 0) as [L|[->|L]].
  - pose proof (mul_mono_c (of_int n) (of_int (-1)) c Vn eq_refl Vc Fn
                  eq_refl Fc Pc (of_int_mono n (-1) ltac:(lia))) as M.
    rewrite E in M. cbn [ord] in M. lia.
  - change (of_int 0) with zero in E. rewrite Z0 in E. discriminate.
  - destruct (of_int_nonneg n ltac:(lia)) as (_ & _ & P0 & _).
    destruct (mul_spec (of_int n) c Vn Vc Fn Fc) as (Vm & Nm & Om).
    pose proof (mul_signed false false (of_int n) c Vn Vc) as S.
    rewrite E in S. cbn in S.
    assert (true = false); [|discriminate].
    apply S; [| |reflexivity].
    + destruct (pos_finite (of_int n) Fn) as (m & e & ->); [|reflexivity].
      destruct (of_int_nonneg n ltac:(lia)) as (_ & _ & _ & P1). apply P1, L.
    + destruct c as [[|]|[|]| |[|] m e]; try discriminate; try reflexivity;
        cbn [ord cond_Zopp] in Pc; pose proof (Pos2Z.is_pos m);
        assert (0 < 2 ^ (e + 149)) by
          (destruct (valid_finite_range _ _ _ Vc) as [? _];
           apply Z.pow_pos_nonneg; lia); nia.
Qed.

Lemma of_int_not_negzero n : of_int n <> S754_zero true.
Proof.
  intros E. destruct (of_int_spec n) as (_ & _ & O).
  rewrite E in O. cbn [ord] in O.
  destruct (Z.lt_trichotomy n 0) as [L|[->|L]].
  - pose proof (of_int_mono n (-1) ltac:(lia)) as M.
    rewrite E in M. cbn [ord] in M.
    assert (ord (of_int (-1)) < 0) by (vm_compute; reflexivity). lia.
  - discriminate.
  - pose proof (of_int_mono 1 n ltac:(lia)) as M.
    rewrite E in M. cbn [ord] in M.
    assert (0 < ord (of_int 1)) by (vm_compute; reflexivity). lia.
Qed.

(** X19. The five rectangles of [drawScene] all reach from the left
    edge 0 to the right edge [(float)winW], and they are stacked
    without a gap in every viewport: the lower band of the sky ends at
    [winH*0.45f] where the upper band begins, the ground ends at 110
    where the first strip of hills begins, and that strip ends at 128
    where the second one begins, which ends at 140.  (The sizes of the
    viewport are C [int]s.) *)
Theorem scene_rects_tile (winW winH : Z) :
  - 2 ^ 31 <= winW < 2 ^ 31 -> - 2 ^ 31 <= winH < 2 ^ 31 ->
  let W := of_int winW in
  let H45 := mul (of_int winH) f0_45 in
  let H55 := mul (of_int winH) f0_55 in
  map draw_box (scene_rects winW winH)
  = [(zero, H45, W, add H45 H55);
     (zero, zero, W, H45);
     (zero, zero, W, f110);
     (zero, f110, W, f128);
     (zero, f128, W, of_int 140)].
Proof.
  intros HW HH W H45 H55.
  assert (add zero W = W) as EW by (apply add_zero_l, of_int_not_negzero).
  assert (add zero H45 = H45) as EH.
  { apply add_zero_l, scaled_not_negzero; auto; try fin_const;
      try reflexivity; vm_compute; discriminate. }
  unfold scene_rects, fillRectGradient, fillRect, rect_verts, draw_box.
  cbn [map draw_verts nth]. fold W H45 H55. rewrite EW, EH. reflexivity.
Qed.

Lemma scene_rects_tile_witness :
  map draw_box (scene_rects 960 600)
  = [(zero, mul (of_int 600) f0_45, of_int 960,
      add (mul (of_int 600) f0_45) (mul (of_int 600) f0_55));
     (zero, zero, of_int 960, mul (of_int 600) f0_45);
     (zero, zero, of_int 960, f110);
     (zero, f110, of_int 960, f128);
     (zero, f128, of_int 960, of_int 140)].
Proof.
  apply (scene_rects_tile 960 600); lia.
Defined.

(** ** The emitters follow the viewport *)

Section Anchored.
Context {RT : Runtime}.

Lemma spawnPuff_ground P E w h g :
  rand_in_range -> Emitter.y E = f110 ->
  exists p,
    fst (spawnPuff P E w h g) = P ++ [p] /\
    within f110 (of_int 120) (Puff.y p).
Proof.
  intros R Ey. unfold spawnPuff.
  destruct (frand g) as [u1 g1].
  pose proof (frand_within g1 R) as U2.
  destruct (frand g1) as [u2 g2]. cbn [fst] in U2.
  repeat match goal with |- context [frand ?g] => destruct (frand g) end.
  eexists. split; [reflexivity|]. cbn [Puff.y]. rewrite Ey.
  apply (within_affine f110 f10); auto; try fin_const; ord_const.
Qed.

(** X20. In every state the program reaches there are two emitters,
    anchored to the viewport of that state: their spans are
    [winW*0.18f .. winW*0.38f] and [winW*0.55f .. winW*0.82f] for the
    current width, and both emit at the height 110.  So, for a [rand]
    that keeps to its range, a puff spawned from either of them starts
    at a height between 110 and 120. *)
Theorem emitters_anchored (s : Sim) :
  Reachable s ->
  (exists r0 r1,
     emitters s
     = [Emitter.mk (mul (of_int (winW s)) f0_18) (mul (of_int (winW s)) f0_38)
                   f110 r0;
        Emitter.mk (mul (of_int (winW s)) f0_55) (mul (of_int (winW s)) f0_82)
                   f110 r1]) /\
  (rand_in_range ->
   forall i P g, (i < 2)%nat ->
     exists p,
       fst (spawnPuff P (nth_emitter i s) (winW s) (winH s) g) = P ++ [p] /\
       leb f110 (Puff.y p) = true /\ leb (Puff.y p) (of_int 120) = true).
Proof.
  intros R.
  assert (exists r0 r1,
     emitters s
     = [Emitter.mk (mul (of_int (winW s)) f0_18) (mul (of_int (winW s)) f0_38)
                   f110 r0;
        Emitter.mk (mul (of_int (winW s)) f0_55) (mul (of_int (winW s)) f0_82)
                   f110 r1]) as A.
  { induction R as [g ticks|ev s R IH|fuel now s s' R IH F].
    - eexists _, _. reflexivity.
    - destruct IH as (r0 & r1 & E).
      destruct ev as [|w h|k|]; cbn [handle_event emitters winW].
      + eauto.
      + rewrite E. eexists _, _. reflexivity.
      + destruct k; rewrite E; eexists _, _; reflexivity.
      + eauto.
    - destruct (frame_keeps _ _ _ _ F) as (_ & -> & _ & _).
      rewrite (frame_emitters _ _ _ _ F). exact IH. }
  split; [exact A|].
  intros HR i P g Hi. destruct A as (r0 & r1 & E).
  assert (Emitter.y (nth_emitter i s) = f110) as Ey.
  { unfold nth_emitter. rewrite E. destruct i as [|[|i]]; [reflexivity..|lia]. }
  destruct (spawnPuff_ground P _ (winW s) (winH s) g HR Ey) as (p & Ep & W).
  exists p. split; [exact Ep|].
  apply (within_leb f110 (of_int 120)); [fin_const..|exact W].
Qed.

End Anchored.

(** ** The further properties at work on the sample runtime *)

Lemma tick_dt_spec_witness :
  (1016 - 1000) mod 2 ^ 32 < 33 /\
  tick_dt 1016 1000 = mul (of_int ((1016 - 1000) mod 2 ^ 32)) f0_001.
Proof.
  split; [reflexivity|].
  apply (proj1 (tick_dt_spec 1016 1000)). reflexivity.
Defined.

Lemma frame_controls_witness :
  @frame sample_runtime 5 1016 sample_busy = Some sample_next /\
  lastTicks sample_next = 1016 /\ breeze sample_next = breeze sample_busy.
Proof.
  assert (@frame sample_runtime 5 1016 sample_busy = Some sample_next) as F
    by reflexivity.
  split; [exact F|].
  destruct (@frame_controls sample_runtime 5 1016 sample_busy sample_next F)
    as (_ & L & _ & _ & _ & B & _).
  split; [exact L|exact B].
Defined.

Lemma quit_is_final_witness :
  running (@handle_events sample_runtime
             [SDL_KEYDOWN SDLK_UP; SDL_QUIT; SDL_KEYDOWN SDLK_LEFT]
             sample_start) = false.
Proof.
  apply (proj2 (proj2 (proj2 (@quit_is_final sample_runtime)))).
  left. right. left. reflexivity.
Defined.

Lemma Reachable_rates_credits_witness :
  ltb (emitterTimerA sample_busy) one = true.
Proof.
  exact (proj2 (proj2 (proj1 (proj2
    (@Reachable_rates_credits sample_runtime sample_busy
       (Reachable_events _ _ (@R_initial sample_runtime 1 0))))))).
Defined.

Lemma frame_terminates_witness :
  exists s', @frame sample_runtime (Z.to_nat 553651) 1016 sample_busy = Some s'.
Proof.
  apply (@frame_terminates sample_runtime sample_busy 1016 (Z.to_nat 553651)).
  - exact (Reachable_events _ _ (@R_initial sample_runtime 1 0)).
  - rewrite Z2Nat.id; lia.
Defined.

Lemma spawn_loop_diverges_witness :
  geb (of_int 33554432) one = true /\
  sub (of_int 33554432) one = of_int 33554432 /\
  @spawn_while sample_runtime 1000 (of_int 33554432) []
    (Emitter.mk f100 f200 f110 f4) 960 600 1 = None.
Proof.
  split; [reflexivity|]. split; [reflexivity|].
  exact (proj1 (@spawn_loop_diverges sample_runtime (of_int 33554432) 1000 []
                  (Emitter.mk f100 f200 f110 f4) 960 600 1 eq_refl eq_refl)).
Defined.

Lemma frame_no_time_witness :
  exists s',
    @frame sample_runtime 0 (lastTicks sample_busy) sample_busy = Some s' /\
    puffs s' = @updatePuffs sample_runtime (puffs sample_busy) zero
                 (breeze sample_busy) (winW sample_busy) (winH sample_busy) /\
    rng s' = snd (rand (rng sample_busy)).
Proof.
  exact (@frame_no_time sample_runtime sample_busy 0 sample_rand_in_range
           (Reachable_events _ _ (@R_initial sample_runtime 1 0))).
Defined.

Lemma blob_rings_witness :
  ring_t (9 - 1) 9 = one.
Proof.
  apply (proj2 (@blob_rings sample_runtime zero zero f60 (one, one, one)
                  f0_22 9)).
  lia.
Defined.

Lemma drawClouds_fans_witness :
  valid (Puff.r sample_puff) = true /\
  leb (cloud_peak (Puff.r sample_puff)) f0_22 = true.
Proof.
  split; [reflexivity|].
  exact (proj2 (proj2 (proj2 (proj2 (proj2
    (@drawClouds_fans sample_runtime [] [] sample_start)))) sample_puff
    eq_refl eq_refl eq_refl)).
Defined.

Lemma Reachable_puff_age_witness :
  @frame sample_runtime 5 1016 sample_busy = Some sample_next /\
  length (puffs sample_next) = 2%nat /\
  Forall (fun p => leb (Puff.life p) (Puff.maxLife p) = true)
         (puffs sample_next).
Proof.
  assert (@frame sample_runtime 5 1016 sample_busy = Some sample_next) as F
    by reflexivity.
  split; [exact F|]. split; [reflexivity|].
  apply Forall_forall. intros p Hp.
  apply (@Reachable_puff_age sample_runtime sample_next p sample_rand_in_range
           (R_frame 5 1016 sample_busy sample_next
              (Reachable_events _ _ (@R_initial sample_runtime 1 0)) F) Hp).
Defined.

Lemma emitters_anchored_witness :
  exists r0 r1,
    emitters sample_busy
    = [Emitter.mk (mul (of_int (winW sample_busy)) f0_18)
                  (mul (of_int (winW sample_busy)) f0_38) f110 r0;
       Emitter.mk (mul (of_int (winW sample_busy)) f0_55)
                  (mul (of_int (winW sample_busy)) f0_82) f110 r1].
Proof.
  exact (proj1 (@emitters_anchored sample_runtime sample_busy
                  (Reachable_events _ _ (@R_initial sample_runtime 1 0)))).
Defined.
